(** * Inline text editor: the text relocation and patch engine

    A shallow embedding of [src/lib/text-processor.ts] (class
    [TextProcessor]) and the properties of its normalizer, scanner,
    validator, ranker and patcher.

    JavaScript strings are sequences of UTF-16 code units; a string is a
    [list N] here and every index and length counts code units, as
    [String.prototype.length], [indexOf] and [substring] do. *)

From Stdlib Require Import NArith ZArith QArith Ascii String List Bool Lia.
From Stdlib Require Import Sorted Permutation Lqa.
From stdpp Require Import base option list gmap.

Local Open Scope nat_scope.
Local Open Scope list_scope.

(** ** JavaScript strings *)

Module Js.

Abbreviation jsstring := (list N).

(** Code units of an ASCII literal. *)
Definition str (s : string) : jsstring :=
  List.map N_of_ascii (list_ascii_of_string s).

Definition dq : N := 34.   (* the double quote *)
Definition sq : N := 39.   (* the single quote *)
Definition lf : N := 10.   (* line feed *)

Definition mem (c : N) (cs : list N) : bool := existsb (N.eqb c) cs.

(** [WhiteSpace] and [LineTerminator] of ECMA-262: what [trim] removes
    and what the class [\s] matches. *)
Definition is_ws (c : N) : bool :=
  mem c [9; 10; 11; 12; 13; 32; 160; 5760; 8232; 8233; 8239; 8287; 12288; 65279]%N
  || ((8192 <=? c)%N && (c <=? 8202)%N).

(** [\w] without the unicode flag. *)
Definition is_word (c : N) : bool :=
  ((48 <=? c)%N && (c <=? 57)%N) || ((65 <=? c)%N && (c <=? 90)%N)
  || ((97 <=? c)%N && (c <=? 122)%N) || (c =? 95)%N.

Fixpoint dropWhile (p : N -> bool) (s : jsstring) : jsstring :=
  match s with
  | [] => []
  | c :: s' => if p c then dropWhile p s' else s
  end.

Definition dropWhileEnd (p : N -> bool) (s : jsstring) : jsstring :=
  rev (dropWhile p (rev s)).

Definition trimStart (s : jsstring) : jsstring := dropWhile is_ws s.
Definition trimEnd (s : jsstring) : jsstring := dropWhileEnd is_ws s.
Definition trim (s : jsstring) : jsstring := trimEnd (trimStart s).

Fixpoint eqs (a b : jsstring) : bool :=
  match a, b with
  | [], [] => true
  | x :: a', y :: b' => (x =? y)%N && eqs a' b'
  | _, _ => false
  end.

Fixpoint startsWith (p s : jsstring) : bool :=
  match p, s with
  | [], _ => true
  | x :: p', y :: s' => (x =? y)%N && startsWith p' s'
  | _ :: _, [] => false
  end.

Definition endsWith (p s : jsstring) : bool := startsWith (rev p) (rev s).

(** [s.includes(p)] *)
Fixpoint includes (s p : jsstring) : bool :=
  startsWith p s ||
  match s with
  | [] => false
  | _ :: s' => includes s' p
  end.

(** [s.indexOf(p)], [None] for -1. *)
Fixpoint indexOf (s p : jsstring) : option nat :=
  if startsWith p s then Some 0
  else match s with
       | [] => None
       | _ :: s' => S <$> indexOf s' p
       end.

(** [s.slice(a, b)] and [s.substring(a, b)] for [0 <= a <= b]. *)
Definition substring (a b : nat) (s : jsstring) : jsstring :=
  take (b - a) (drop a s).

(** [xs.slice(a, b)] on an array, for [0 <= a]. *)
Definition slice {A} (a b : nat) (xs : list A) : list A :=
  take (b - a) (drop a xs).

(** [s.replace(new RegExp(p, 'g'), r)] for a pattern [p] without
    metacharacters and a replacement [r] without [$]: every occurrence
    of [p], leftmost first and not overlapping, becomes [r].  [skip]
    counts the code units of the current occurrence still to be passed. *)
Fixpoint replaceAll_from (skip : nat) (p r s : jsstring) : jsstring :=
  match s with
  | [] => []
  | c :: s' =>
      match skip with
      | S k => replaceAll_from k p r s'
      | 0 => if startsWith p s
             then r ++ replaceAll_from (length p - 1) p r s'
             else c :: replaceAll_from 0 p r s'
      end
  end.

Definition replaceAll (p r s : jsstring) : jsstring :=
  match p with
  | [] => r ++ flat_map (fun c => c :: r) s
  | _ => replaceAll_from 0 p r s
  end.

(** [s.replace(/[cs]/g, r)]: every code unit of the class becomes [r]. *)
Definition replaceChars (cs : list N) (r s : jsstring) : jsstring :=
  flat_map (fun c => if mem c cs then r else [c]) s.

(** [s.replace(/\s+/g, ' ')]: [in_run] tells that the previous code unit
    was white space, so that a run yields one space. *)
Fixpoint collapse_from (in_run : bool) (s : jsstring) : jsstring :=
  match s with
  | [] => []
  | c :: s' =>
      if is_ws c
      then (if in_run then collapse_from true s' else 32%N :: collapse_from true s')
      else c :: collapse_from false s'
  end.

Definition collapseSpaces (s : jsstring) : jsstring := collapse_from false s.

(** [s.replace(/\.$/, '')]: without the multiline flag [$] is the end of
    the input, so exactly one final period goes. *)
Definition stripFinalPeriod (s : jsstring) : jsstring :=
  match rev s with
  | c :: r => if (c =? 46)%N then rev r else s
  | [] => s
  end.

End Js.

Import Js.

(** ** The text normalizer *)

Module Normalizer.

(** [entityMap], in the insertion order [Object.entries] walks it. *)
Definition entityMap : list (jsstring * jsstring) :=
  [ (str "&ldquo;", [dq]); (str "&rdquo;", [dq]);
    (str "&lsquo;", [sq]); (str "&rsquo;", [sq]);
    (str "&quot;", [dq]); (str "&#39;", [sq]);
    (str "&amp;", str "&"); (str "&lt;", str "<"); (str "&gt;", str ">");
    (str "&ndash;", str "-"); (str "&mdash;", str "-");
    (str "&nbsp;", str " "); (str "&hellip;", str "...") ].

Definition replaceEntities (s : jsstring) : jsstring :=
  fold_left (fun cleaned er => replaceAll (fst er) (snd er) cleaned) entityMap s.

(** The code units the two [while] loops of [cleanSearchText] strip. *)
Definition isQuoteLike (c : N) : bool :=
  mem c [8220; 8221; 8216; 8217; 34; 39; 8222; 8218]%N.

Definition replaceTypography (s : jsstring) : jsstring :=
  replaceChars [8218]%N [sq]
    (replaceChars [8222]%N [dq]
       (replaceChars [8216; 8217]%N [sq]
          (replaceChars [8220; 8221]%N [dq]
             (replaceChars [8230]%N (str "...")
                (replaceChars [160]%N (str " ") s))))).

Definition cleanSearchText (text : jsstring) : jsstring :=
  let cleaned := trim text in
  let cleaned := replaceEntities cleaned in
  let cleaned := replaceTypography cleaned in
  let cleaned := collapseSpaces cleaned in
  let cleaned := dropWhile isQuoteLike cleaned in
  let cleaned := dropWhileEnd isQuoteLike cleaned in
  let cleaned := stripFinalPeriod cleaned in
  trim cleaned.

End Normalizer.

Import Normalizer.

(** ** Regular expressions

    The backtracking matcher of ECMA-262 (without the unicode flag) for
    the constructs the source uses: classes of code units, sequence,
    alternation, greedy and lazy [*], capture groups, back references
    and the assertions [^] and [$] (no multiline flag anywhere).  A
    continuation receives the captures, the index reached and the rest
    of the input; the first successful alternative wins, as in the
    standard's matcher.  Captures are not cleared when a [*] starts a
    new iteration; no group of the source sits under an alternative
    inside a [*], so the difference cannot be seen. *)

Module Regex.

Inductive regex : Type :=
| Eps
| Cls (p : N -> bool)
| Seq (r1 r2 : regex)
| Alt (r1 r2 : regex)
| Star (greedy : bool) (r : regex)
| Group (n : nat) (r : regex)
| Backref (n : nat)
| Bol
| Eol.

Abbreviation captures := (gmap nat (list N)).

Record found := Found { f_start : nat; f_end : nat; f_caps : captures }.

(** The iterations of [*]: [step] matches the starred regex once.  An
    iteration that consumes nothing is rejected, so [fuel] one more than
    the length of the input is never used up. *)
Fixpoint starLoop
    (step : (captures -> nat -> jsstring -> option found) ->
            captures -> nat -> jsstring -> option found)
    (greedy : bool) (k : captures -> nat -> jsstring -> option found)
    (fuel : nat) (caps : captures) (i : nat) (s : jsstring) : option found :=
  match fuel with
  | 0 => k caps i s
  | S fuel' =>
      let again (_ : unit) :=
        step (fun caps' i' s' =>
                if Nat.eqb i' i then None else starLoop step greedy k fuel' caps' i' s')
             caps i s in
      if greedy
      then match again tt with Some m => Some m | None => k caps i s end
      else match k caps i s with Some m => Some m | None => again tt end
  end.

Fixpoint rmatch (r : regex) (k : captures -> nat -> jsstring -> option found)
    (caps : captures) (i : nat) (s : jsstring) {struct r} : option found :=
  match r with
  | Eps => k caps i s
  | Cls p =>
      match s with
      | c :: s' => if p c then k caps (S i) s' else None
      | [] => None
      end
  | Seq a b => rmatch a (fun caps' i' s' => rmatch b k caps' i' s') caps i s
  | Alt a b =>
      match rmatch a k caps i s with
      | Some m => Some m
      | None => rmatch b k caps i s
      end
  | Star greedy a => starLoop (rmatch a) greedy k (S (length s)) caps i s
  | Group n a =>
      rmatch a (fun caps' i' s' => k (<[n := take (i' - i) s]> caps') i' s') caps i s
  | Backref n =>
      let w := default [] (caps !! n) in
      if startsWith w s then k caps (i + length w) (drop (length w) s) else None
  | Bol => if Nat.eqb i 0 then k caps i s else None
  | Eol => match s with [] => k caps i s | _ :: _ => None end
  end.

Definition Plus (r : regex) : regex := Seq r (Star true r).
Definition Chr (c : N) : regex := Cls (N.eqb c).
Definition OneOf (cs : list N) : regex := Cls (fun c => mem c cs).
Definition NoneOf (cs : list N) : regex := Cls (fun c => negb (mem c cs)).
Definition Lit (s : jsstring) : regex := fold_right (fun c r => Seq (Chr c) r) Eps s.
Definition Seqs (rs : list regex) : regex := fold_right Seq Eps rs.

(** One attempt at index [i], where [s] is the input from [i] on. *)
Definition matchAt (r : regex) (i : nat) (s : jsstring) : option found :=
  rmatch r (fun caps j _ => Some (Found i j caps)) ∅ i s.

(** The leftmost match at or after [i]. *)
Fixpoint search (r : regex) (i : nat) (s : jsstring) : option found :=
  match matchAt r i s with
  | Some m => Some m
  | None => match s with
            | [] => None
            | _ :: s' => search r (S i) s'
            end
  end.

(** [re.test(s)] and [s.match(re)] for a regex without the global flag. *)
Definition test (r : regex) (s : jsstring) : bool := bool_decide (is_Some (search r 0 s)).
Definition exec (r : regex) (s : jsstring) : option found := search r 0 s.

Definition group (n : nat) (m : found) : jsstring := default [] (f_caps m !! n).
Definition matched (s : jsstring) (m : found) : jsstring :=
  substring (f_start m) (f_end m) s.

(** All matches of a global regex, as the [exec] loop and [replace] find
    them: after a match the search resumes at its end, one further on
    when the match was empty.  [s] is the input from [i] on. *)
Fixpoint matchAll_from (fuel : nat) (r : regex) (i : nat) (s : jsstring) : list found :=
  match fuel with
  | 0 => []
  | S fuel' =>
      match search r i s with
      | None => []
      | Some m =>
          let next := if Nat.eqb (f_end m) (f_start m) then S (f_end m) else f_end m in
          m :: (if Nat.ltb (length s) (next - i) then []
                else matchAll_from fuel' r next (drop (next - i) s))
      end
  end.

Definition matchAll (r : regex) (s : jsstring) : list found :=
  matchAll_from (S (length s)) r 0 s.

(** [s.replace(re, f)] for a global [re]: the pieces between the matches
    are kept and every match [m] becomes [f m]. *)
Fixpoint stitch (s : jsstring) (pos : nat) (ms : list found) (f : found -> jsstring) : jsstring :=
  match ms with
  | [] => drop pos s
  | m :: ms' => substring pos (f_start m) s ++ f m ++ stitch s (f_end m) ms' f
  end.

Definition replaceAllRe (r : regex) (f : found -> jsstring) (s : jsstring) : jsstring :=
  stitch s 0 (matchAll r s) f.

(** [s.replace(re, f)] for a [re] without the global flag. *)
Definition replaceFirstRe (r : regex) (f : found -> jsstring) (s : jsstring) : jsstring :=
  match exec r s with
  | None => s
  | Some m => take (f_start m) s ++ f m ++ drop (f_end m) s
  end.

End Regex.

Import Regex.

(** [GetSubstitution] of ECMA-262 for a pattern without capture groups:
    [$$], [$&], [$`] and [$'] are expanded in a replacement string, any
    other [$] stands for itself. *)
Fixpoint getSubstitution (matched before after template : jsstring) : jsstring :=
  match template with
  | [] => []
  | c :: t =>
      if (c =? 36)%N then
        match t with
        | d :: t' =>
            if (d =? 36)%N then 36%N :: getSubstitution matched before after t'
            else if (d =? 38)%N then matched ++ getSubstitution matched before after t'
            else if (d =? 96)%N then before ++ getSubstitution matched before after t'
            else if (d =? 39)%N then after ++ getSubstitution matched before after t'
            else c :: getSubstitution matched before after t
        | [] => [c]
        end
      else c :: getSubstitution matched before after t
  end.

(** [s.replace(p, template)] for a string [p]: the first occurrence only. *)
Definition replaceFirstStr (p template s : jsstring) : jsstring :=
  match indexOf s p with
  | None => s
  | Some i =>
      let before := take i s in
      let after := drop (i + length p) s in
      before ++ getSubstitution p before after template ++ after
  end.

(** [s.replace(new RegExp(escapeRegex(p), 'g'), template)]: the escaped
    pattern matches [p] literally. *)
Definition replaceAllLit (p template s : jsstring) : jsstring :=
  replaceAllRe (Lit p)
    (fun m => getSubstitution (matched s m) (take (f_start m) s) (drop (f_end m) s) template) s.

(** ** What the engine takes from its runtime

    [String.prototype.toLowerCase] and the canonicalization of the
    RegExp flag [i] depend on the Unicode tables of the JavaScript
    engine, the three [path] functions on Node.  The development is
    parametric in them. *)

Class Runtime := {
  toLowerCase : jsstring -> jsstring;
  canonicalize : N -> N;
  path_join : jsstring -> jsstring -> jsstring;
  path_relative : jsstring -> jsstring -> jsstring;
  path_isAbsolute : jsstring -> bool
}.

(** ** The variation generator *)

Module Variations.

Definition normalizeQuotes (s : jsstring) : jsstring :=
  let n := replaceChars [8220; 8221]%N [dq] s in
  let n := replaceChars [8216; 8217]%N [sq] n in
  let n := replaceChars [8222]%N [dq] n in
  let n := replaceChars [8218]%N [sq] n in
  let n := replaceChars [171; 187]%N [dq] n in
  let n := replaceChars [8249; 8250]%N [sq] n in
  let n := replaceChars [160]%N (str " ") n in
  let n := replaceChars [8230]%N (str "...") n in
  collapseSpaces n.

(** The quote class of [withoutQuotes]. *)
Definition quoteClass : list N := [34; 39; 8222; 8218; 171; 187; 8249; 8250]%N.

(** The first glyph class of [staticPrefixes] and [staticSuffixes]: the
    regexes carry no unicode flag, so each half of a surrogate pair is a
    member of the class on its own. *)
Definition glyphClass : list N :=
  [10060; 9989; 55357; 56613; 55357; 56481; 55357; 56538; 11088; 55356; 57263;
   55357; 56960; 55357; 56490; 55356; 57119; 10024; 55356; 57225; 55357; 56596;
   55357; 56541; 55357; 56496; 55356; 57286; 55356; 57217; 55357; 56589; 55357;
   56522; 55356; 57258; 55356; 57256; 55356; 57269; 55356; 57262; 55356; 57266;
   55356; 57263; 55356; 57258]%N.

Definition markClass : list N :=
  [10003; 215; 8226; 8594; 8592; 8593; 8595; 9733; 9734; 9830; 9824; 9827; 9829]%N.

Definition is_digit (c : N) : bool := (48 <=? c)%N && (c <=? 57)%N.
Definition is_alpha (c : N) : bool :=
  ((97 <=? c)%N && (c <=? 122)%N) || ((65 <=? c)%N && (c <=? 90)%N).

Definition spaces : regex := Star true (Cls is_ws).

Definition withoutQuotesRe : regex :=
  Alt (Seq Bol (Plus (OneOf quoteClass))) (Seq (Plus (OneOf quoteClass)) Eol).

Definition staticPrefixes : list regex :=
  [ Seqs [Bol; OneOf glyphClass; spaces];
    Seqs [Bol; OneOf markClass; spaces];
    Seqs [Bol; Plus (Cls is_digit); Chr 46; spaces];
    Seqs [Bol; Cls is_alpha; Chr 41; spaces];
    Seqs [Bol; OneOf [45; 8226]%N; spaces] ].

Definition staticSuffixes : list regex :=
  [ Seqs [spaces; OneOf glyphClass; Eol];
    Seqs [spaces; OneOf markClass; Eol] ].

(** [Array.from(new Set(xs))]: the first occurrence of each string, in order. *)
Fixpoint dedupe_from (seen xs : list jsstring) : list jsstring :=
  match xs with
  | [] => []
  | x :: xs' =>
      if existsb (eqs x) seen then dedupe_from seen xs'
      else x :: dedupe_from (x :: seen) xs'
  end.

Definition dedupe (xs : list jsstring) : list jsstring := dedupe_from [] xs.

Definition nonEmpty (s : jsstring) : bool := negb (eqs s []).

(** The body shared by the prefix loop and the suffix loop. *)
Definition strippedBy (text : jsstring) (re : regex) : list jsstring :=
  let without := trim (replaceFirstRe re (fun _ => []) text) in
  if nonEmpty without && negb (eqs without text) then
    let normalized := normalizeQuotes without in
    without :: (if negb (eqs normalized without) then [normalized] else [])
  else [].

Definition extractDynamicPart (text : jsstring) : list jsstring :=
  let normalizedText := normalizeQuotes text in
  let withoutQuotes := trim (replaceAllRe withoutQuotesRe (fun _ => []) text) in
  dedupe
    ([text]
       ++ (if negb (eqs normalizedText text) then [normalizedText] else [])
       ++ (if nonEmpty withoutQuotes && negb (eqs withoutQuotes text) then
             let normalized := normalizeQuotes withoutQuotes in
             withoutQuotes :: (if negb (eqs normalized withoutQuotes) then [normalized] else [])
           else [])
       ++ flat_map (strippedBy text) staticPrefixes
       ++ flat_map (strippedBy text) staticSuffixes).

End Variations.

Import Variations.

(** ** The match classifier *)

Module Classifier.

Section WithRuntime.
Context `{Runtime}.

(** Classes and literals under the flag [i]: a code unit matches when its
    canonical form is that of a member of the class. *)
Definition ClsI (cs : list N) : regex :=
  Cls (fun x => existsb (fun a => (canonicalize a =? canonicalize x)%N) cs).
Definition NoneOfI (cs : list N) : regex :=
  Cls (fun x => negb (existsb (fun a => (canonicalize a =? canonicalize x)%N) cs)).
Definition LitI (s : jsstring) : regex :=
  fold_right (fun c r => Seq (ClsI [c]) r) Eps s.

Definition wordChars : list N :=
  List.map N.of_nat (seq 48 10 ++ seq 65 26 ++ [95] ++ seq 97 26).
Definition wsChars : list N :=
  [9; 10; 11; 12; 13; 32; 160; 5760]%N ++ List.map (fun k => (8192 + N.of_nat k)%N) (seq 0 11)
    ++ [8232; 8233; 8239; 8287; 12288; 65279]%N.

(** [\w+\s*=\s*] followed by [open], [[^close]*], the variation,
    [[^close]*] and [close]. *)
Definition attributePattern (open close : N) (variation : jsstring) : regex :=
  Seqs [ Plus (ClsI wordChars); Star true (ClsI wsChars); ClsI [61%N];
         Star true (ClsI wsChars); ClsI [open];
         Star true (NoneOfI [close]); LitI variation; Star true (NoneOfI [close]);
         ClsI [close] ].

Definition isAttributeMatch (line variation : jsstring) : bool :=
  existsb (fun pattern => test pattern line)
    [ attributePattern dq dq variation;
      attributePattern sq sq variation;
      attributePattern 123 125 variation ].

Definition contentAttributes : list jsstring :=
  [ str "quote="; str "title="; str "alt="; str "placeholder="; str "label=";
    str "content="; str "description="; str "text="; str "value=";
    str "message="; str "caption=" ].

Definition isTextContentMatch (line variation : jsstring) : bool :=
  if negb (isAttributeMatch line variation) then true
  else
    let hasContentAttribute :=
      existsb (fun attr => includes (toLowerCase line) (toLowerCase attr)
                           && includes line variation) contentAttributes in
    if hasContentAttribute then true
    else
      let l := replaceAllRe (Seqs [Chr dq; Star true (NoneOf [dq]); Chr dq])
                 (fun _ => [dq; dq]) line in
      let l := replaceAllRe (Seqs [Chr sq; Star true (NoneOf [sq]); Chr sq])
                 (fun _ => [sq; sq]) l in
      let l := replaceAllRe (Seqs [Chr 123; Star true (NoneOf [125]%N); Chr 125])
                 (fun _ => str "{}") l in
      includes l variation.

End WithRuntime.

End Classifier.

Import Classifier.

(** ** The exact-match predicate of the scanner *)

Module Scanner.

Definition basicQuotedPatterns (t : jsstring) : list jsstring :=
  [ [dq] ++ t ++ [dq];
    [sq] ++ t ++ [sq];
    [96%N] ++ t ++ [96%N];
    str "&quot;" ++ t ++ str "&quot;";
    str "&ldquo;" ++ t ++ str "&rdquo;" ].

Definition simplePatterns (t : jsstring) : list jsstring :=
  [ str "=" ++ [dq] ++ t ++ [dq];
    str "='" ++ t ++ [sq];
    str ": " ++ [dq] ++ t ++ [dq];
    str ": '" ++ t ++ [sq];
    str "quote=" ++ [dq] ++ t ++ [dq];
    str "quote='" ++ t ++ [sq];
    str "text: '" ++ t ++ [sq];
    str "text: " ++ [dq] ++ t ++ [dq] ].

Definition withPunctuation (t : jsstring) : list jsstring :=
  [ [dq] ++ t ++ str "." ++ [dq];
    [sq] ++ t ++ str ".'";
    [dq] ++ t ++ str "!" ++ [dq];
    [sq] ++ t ++ str "!'";
    [dq] ++ t ++ str "?" ++ [dq];
    [sq] ++ t ++ str "?'";
    [dq] ++ t ++ str "." ++ [dq] ++ str ",";
    [sq] ++ t ++ str ".',";
    [dq] ++ t ++ [dq] ++ str ",";
    [sq] ++ t ++ str "',";
    str "quote=" ++ [dq] ++ t ++ str "." ++ [dq];
    str "quote='" ++ t ++ str ".'";
    str "text: '" ++ t ++ str ".',";
    str "text: " ++ [dq] ++ t ++ str "." ++ [dq] ++ str ",";
    str "text: '" ++ t ++ str ".'";
    str "text: " ++ [dq] ++ t ++ str "." ++ [dq];
    str "&quot;" ++ t ++ str ".&quot;";
    str "&quot;" ++ t ++ str "&quot;";
    str "&ldquo;" ++ t ++ str "!&rdquo;";
    str "&ldquo;" ++ t ++ str ".&rdquo;";
    str "&ldquo;" ++ t ++ str "&rdquo;" ].

Definition hasExactTextMatch (line searchText : jsstring) : bool :=
  if existsb (includes line) (basicQuotedPatterns searchText) then true
  else if existsb (includes line) (simplePatterns searchText) then true
  else if existsb (includes line) (withPunctuation searchText) then true
  else
    let trimmedLine := trim line in
    if eqs trimmedLine searchText
       || eqs trimmedLine ([dq] ++ searchText ++ [dq])
       || eqs trimmedLine ([sq] ++ searchText ++ [sq]) then true
    else if includes line (str ">" ++ searchText ++ str "<") then true
    else if eqs trimmedLine searchText
            || eqs trimmedLine (searchText ++ str ".")
            || eqs trimmedLine (searchText ++ str "!")
            || eqs trimmedLine (searchText ++ str "?") then true
    else false.

(** *** Recovering the text as the file spells it *)

Definition isHighSurrogate (c : N) : bool := (55296 <=? c)%N && (c <=? 56319)%N.
Definition isLowSurrogate (c : N) : bool := (56320 <=? c)%N && (c <=? 57343)%N.

(** [Array.from(s)]: the string cut into code points, a surrogate pair
    being one element. *)
Fixpoint codePoints (s : jsstring) : list jsstring :=
  match s with
  | [] => []
  | c :: s' =>
      match s' with
      | d :: s'' =>
          if isHighSurrogate c && isLowSurrogate d
          then match codePoints s' with
               | _ :: rest => [c; d] :: rest
               | [] => [[c; d]]
               end
          else [c] :: codePoints s'
      | [] => [[c]]
      end
  end.

Definition is_entityChar (c : N) : bool := is_alpha c || is_digit c || (c =? 35)%N.

(** [/^&[a-zA-Z0-9#]+;/] *)
Definition entityRe : regex :=
  Seqs [Bol; Chr 38; Plus (Cls is_entityChar); Chr 59].

(** One turn of either [while] loop of [findTextWithHtmlEntities]: how
    far [originalIndex] moves and how many normalized code units that
    accounts for. *)
Definition entityStep (originalLine : jsstring) (originalChars : list jsstring)
    (originalIndex : nat) : nat * nat :=
  let originalChar := default [] (originalChars !! originalIndex) in
  let plain := (1, length (cleanSearchText originalChar)) in
  if eqs originalChar (str "&") then
    let rest := drop originalIndex originalLine in
    match exec entityRe rest with
    | Some m =>
        let entity := matched rest m in
        (length entity, length (cleanSearchText entity))
    | None => plain
    end
  else plain.

Fixpoint skipToMatch (fuel : nat) (originalLine : jsstring) (originalChars : list jsstring)
    (searchIndex originalIndex normalizedIndex : nat) : nat :=
  match fuel with
  | 0 => originalIndex
  | S fuel' =>
      if Nat.ltb normalizedIndex searchIndex && Nat.ltb originalIndex (length originalChars)
      then let '(d, n) := entityStep originalLine originalChars originalIndex in
           skipToMatch fuel' originalLine originalChars searchIndex
             (originalIndex + d) (normalizedIndex + n)
      else originalIndex
  end.

Fixpoint spanMatch (fuel : nat) (originalLine : jsstring) (originalChars : list jsstring)
    (remainingSearchLength : Z) (originalIndex : nat) : nat :=
  match fuel with
  | 0 => originalIndex
  | S fuel' =>
      if (0 <? remainingSearchLength)%Z && Nat.ltb originalIndex (length originalChars)
      then let '(d, n) := entityStep originalLine originalChars originalIndex in
           spanMatch fuel' originalLine originalChars
             (remainingSearchLength - Z.of_nat n)%Z (originalIndex + d)
      else originalIndex
  end.

Definition findTextWithHtmlEntities (originalLine normalizedSearchText : jsstring)
    : option jsstring :=
  let normalizedLine := cleanSearchText originalLine in
  match indexOf normalizedLine normalizedSearchText with
  | None => None
  | Some searchIndex =>
      let originalChars := codePoints originalLine in
      let fuel := length originalChars in
      let candidateStart :=
        skipToMatch fuel originalLine originalChars searchIndex 0 0 in
      let originalIndex :=
        spanMatch fuel originalLine originalChars
          (Z.of_nat (length normalizedSearchText)) candidateStart in
      let candidate := substring candidateStart originalIndex originalLine in
      if eqs (cleanSearchText candidate) normalizedSearchText then Some candidate
      else None
  end.

(** [s.substring(a, b)] in full: both ends are clamped to the string and
    swapped when they come in the wrong order. *)
Definition substringZ (a b : Z) (s : jsstring) : jsstring :=
  let len := Z.of_nat (length s) in
  let a' := Z.min (Z.max a 0) len in
  let b' := Z.min (Z.max b 0) len in
  substring (Z.to_nat (Z.min a' b')) (Z.to_nat (Z.max a' b')) s.

(** The regex of [quotedTextMatch]: an opening quote of any of the three
    kinds (group 1), a run without single or double quotes (group 2) and
    the opening quote again. *)
Definition quotedTextRe : regex :=
  Seqs [Group 1 (OneOf [39; 34; 96]%N); Group 2 (Star true (NoneOf [39; 34]%N)); Backref 1].

(** The pairs [(length, start)] in the order the two nested [for] loops
    visit them. *)
Definition candidateWindows (lineLength searchLength : nat) : list (Z * Z) :=
  let top := Z.min (Z.of_nat lineLength) (Z.of_nat searchLength + 10) in
  let bottom := (Z.of_nat searchLength - 5)%Z in
  flat_map (fun k : nat =>
              let len := (top - Z.of_nat k)%Z in
              List.map (fun start : nat => (len, Z.of_nat start))
                (seq 0 (Z.to_nat (Z.of_nat lineLength - len + 1))))
           (seq 0 (Z.to_nat (top - bottom + 1))).

Definition extractOriginalTextFromLine (originalLine normalizedSearchText normalizedLine : jsstring)
    : jsstring :=
  match indexOf normalizedLine normalizedSearchText with
  | None => normalizedSearchText
  | Some _ =>
      let fromEntities :=
        if includes originalLine (str "&") then
          match findTextWithHtmlEntities originalLine normalizedSearchText with
          | Some textWithEntities =>
              if nonEmpty textWithEntities then
                let trimmed := trim textWithEntities in
                if eqs (cleanSearchText trimmed) normalizedSearchText then Some trimmed
                else Some textWithEntities
              else None
          | None => None
          end
        else None in
      match fromEntities with
      | Some t => t
      | None =>
          let fromQuotes :=
            match exec quotedTextRe originalLine with
            | Some m =>
                let quotedContent := group 2 m in
                if eqs (cleanSearchText quotedContent) normalizedSearchText
                then Some quotedContent else None
            | None => None
            end in
          match fromQuotes with
          | Some t => t
          | None =>
              let hit :=
                List.find (fun w : Z * Z =>
                        eqs (cleanSearchText (substringZ (snd w) (snd w + fst w) originalLine))
                            normalizedSearchText)
                     (candidateWindows (length originalLine) (length normalizedSearchText)) in
              match hit with
              | Some w => substringZ (snd w) (snd w + fst w) originalLine
              | None => normalizedSearchText
              end
          end
      end
  end.

End Scanner.

Import Scanner.

(** ** Data model

    A JavaScript [number] is a rational here.  Every number the engine
    computes is a small multiple of 1/4 (scores are sums of the
    constants 0.5, 1, 2 and 3, a confidence is a score divided by 4) or
    the ratio of two small counts compared with 0.5, so that binary
    floating point computes and compares them exactly.  What the engine
    writes to the console is not modelled. *)

Record ElementContext := {
  elementTag : jsstring;
  elementClasses : option (list jsstring);
  elementId : option jsstring;
  heroPageElementId : option jsstring;
  cssSelector : jsstring;
  elementPath : jsstring
}.

Record SurroundingContext := {
  parentText : option jsstring;
  siblingsBefore : option (list jsstring);
  siblingsAfter : option (list jsstring);
  nearbyUniqueText : option jsstring
}.

Record PageContext := {
  pageUrl : jsstring;
  pageTitle : option jsstring;
  fullUrl : option jsstring
}.

(** [componentContext] and [projectId] are never read by the engine and
    are left out. *)
Record EditContext := {
  originalText : jsstring;
  newText : jsstring;
  elementContext : ElementContext;
  surroundingContext : option SurroundingContext;
  pageContext : PageContext
}.

(** The three flags are optional in the interface; the scanner always
    sets them, and an absent flag reads as [false] wherever it is used. *)
Record FileMatch := {
  filePath : jsstring;
  lineNumber : nat;
  originalLine : jsstring;
  updatedLine : jsstring;
  matchedText : jsstring;
  matchedVariation : option jsstring;
  contextBefore : list jsstring;
  contextAfter : list jsstring;
  isAttributeMatchFlag : bool;
  isTextContentMatchFlag : bool;
  isExactMatch : bool
}.

Record ScoredMatch := {
  base : FileMatch;
  score : Q;
  confidence : Q;
  reasons : list jsstring
}.

(** The texts of [errorMessage], one constructor per text:
    [NoMatchesFound] is 'No matches found', [LowConfidenceMatch] is 'Low
    confidence match', [LineExceeds n] is 'Line number n exceeds file
    length' and [HostError] is the message of an exception raised by the
    host (a file that cannot be read or written, a line that is
    undefined). *)
Inductive ErrorMessage :=
| NoMatchesFound
| LowConfidenceMatch
| LineExceeds (n : nat)
| HostError.

Record ProcessResult := {
  success : bool;
  resultConfidence : Q;
  matchedFilePath : option jsstring;
  resultLineNumber : option nat;
  matchContext : option jsstring;
  alternativeMatches : option (list ScoredMatch);
  hasConflicts : bool;
  errorMessage : option ErrorMessage
}.

(** A string is truthy when it is present and not empty. *)
Definition truthy (o : option jsstring) : bool :=
  match o with
  | Some (_ :: _) => true
  | _ => false
  end.

(** ** The file system

    [files] holds the content of every file [fs.readFile] can read, by
    path; reading any other path throws.  [glob] is the answer of the
    [glob] package for a pattern and a working directory ([None] when it
    throws), [isDirectory] that of [statSync], and [writable] tells
    whether [fs.writeFile] succeeds on a path. *)

Record FileSystem := {
  files : gmap (list N) (list N);
  glob : jsstring -> jsstring -> option (list jsstring);
  isDirectory : jsstring -> bool;
  writable : jsstring -> bool
}.

Definition readFile (fs : FileSystem) (p : jsstring) : option jsstring := files fs !! p.

Definition writeFile (fs : FileSystem) (p content : jsstring) : option FileSystem :=
  if writable fs p
  then Some {| files := <[p := content]> (files fs); glob := glob fs;
               isDirectory := isDirectory fs; writable := writable fs |}
  else None.

(** [s.split(c)] for a one-character separator: never an empty array. *)
Fixpoint split (c : N) (s : jsstring) : list jsstring :=
  match s with
  | [] => [[]]
  | x :: s' =>
      if (x =? c)%N then [] :: split c s'
      else match split c s' with
           | l :: ls => (x :: l) :: ls
           | [] => [[x]]
           end
  end.

(** [lines.join(c)] *)
Fixpoint join (c : N) (ls : list jsstring) : jsstring :=
  match ls with
  | [] => []
  | [l] => l
  | l :: ls' => l ++ c :: join c ls'
  end.

(** [xs.sort((a, b) => key(b) - key(a))]: the sort is stable, so an
    element goes in front of the first one whose key is not larger.
    [leb y x] tells that the key of [y] is at most that of [x]. *)
Fixpoint insertDesc {A} (leb : A -> A -> bool) (x : A) (l : list A) : list A :=
  match l with
  | [] => [x]
  | y :: l' => if leb y x then x :: l else y :: insertDesc leb x l'
  end.

Definition sortDesc {A} (leb : A -> A -> bool) (l : list A) : list A :=
  fold_right (insertDesc leb) [] l.

(** ** The source patcher: format-aware replacement on one line *)

Module Patcher.

Definition backslash : N := 92.
Definition isLineTerminator (c : N) : bool := mem c [10; 13; 8232; 8233]%N.

(** The regex of [replaceJsonValue]: a double quote, group 1 made of a
    run without quote or backslash followed by any number of escapes
    (a backslash, any code unit but a line terminator, and such a run
    again), and a double quote. *)
Definition quotedStringPattern : regex :=
  let run := Star true (NoneOf [dq; backslash]) in
  Seqs [ Chr dq;
         Group 1 (Seq run
                    (Star true (Group 2 (Seqs [Chr backslash;
                                                Cls (fun c => negb (isLineTerminator c));
                                                run]))));
         Chr dq ].

Definition replaceJsonValue (line oldText newText : jsstring) : jsstring :=
  let cleanOldText := trim oldText in
  let cleanOldText :=
    if startsWith (32%N :: [dq]) cleanOldText && endsWith [dq] cleanOldText
    then substring 2 (length cleanOldText - 1) cleanOldText
    else if startsWith [dq] cleanOldText && endsWith [dq] cleanOldText
    then substring 1 (length cleanOldText - 1) cleanOldText
    else cleanOldText in
  replaceAllRe quotedStringPattern
    (fun m =>
       let content := group 1 m in
       if eqs content cleanOldText || includes content cleanOldText
       then [dq] ++ replaceAllLit cleanOldText newText content ++ [dq]
       else matched line m)
    line.

(** The regex of [preserveEntityQuotesSimple]: [&quot;] (group 1), the
    shortest run without ampersand (group 2), [&quot;] (group 3). *)
Definition quotePattern : regex :=
  Seqs [ Group 1 (Lit (str "&quot;"));
         Group 2 (Star false (NoneOf [38]%N));
         Group 3 (Lit (str "&quot;")) ].

Definition preserveEntityQuotesSimple (line oldText newText : jsstring) : jsstring :=
  let cleanOldText :=
    if startsWith (str "&quot;") oldText && endsWith (str "&quot;") oldText
    then substring 6 (length oldText - 6) oldText
    else oldText in
  replaceAllRe quotePattern
    (fun m =>
       let content := group 2 m in
       if includes content cleanOldText || eqs content cleanOldText
          || eqs (matched line m) oldText
       then group 1 m ++ newText ++ group 3 m
       else matched line m)
    line.

Definition textRun : regex := Group 1 (Star true (NoneOf [60]%N)).
Definition textContentRegex : regex := Seqs [Chr 62; textRun; Chr 60].
Definition beforeFirstTagRe : regex := Seqs [Bol; textRun; Chr 60].
Definition afterLastTagRe : regex := Seqs [Chr 62; textRun; Eol].

(** What the branch for tags does with one run of text it has found:
    when the run contains [oldText], the first occurrence of the run in
    [result] is replaced by the run with [oldText] rewritten. *)
Definition rewriteRun (oldText newText run result : jsstring) : jsstring :=
  if includes run oldText
  then replaceFirstStr run (replaceAllLit oldText newText run) result
  else result.

Definition replaceTextContent (line oldText newText : jsstring) : jsstring :=
  if includes line (str ":") && (includes line [dq] || includes line [sq])
  then replaceJsonValue line oldText newText
  else if includes line (str "&quot;")
  then preserveEntityQuotesSimple line oldText newText
  else if includes line (str "<") && includes line (str ">") then
    let result :=
      fold_left (fun result m => rewriteRun oldText newText (group 1 m) result)
                (matchAll textContentRegex line) line in
    let result :=
      match exec beforeFirstTagRe line with
      | Some m => rewriteRun oldText newText (group 1 m) result
      | None => result
      end in
    match exec afterLastTagRe line with
    | Some m => rewriteRun oldText newText (group 1 m) result
    | None => result
    end
  else replaceAllLit oldText newText line.

End Patcher.

Import Patcher.

(** ** The engine: scan, filter, validate, rank, patch *)

Module Engine.

Record TextProcessor := {
  projectRoot : jsstring;
  sourceDir : jsstring
}.

(** The outcome of [validateExactContext].  The two early rejections
    carry no score; otherwise the accumulated score is compared with the
    required minimum.  The reason text, which only reaches the log, is
    not kept. *)
Inductive Validation :=
| TextNotInParent
| TextNotInFile
| Checked (validationScore minRequiredScore : Q).

Definition isValid (v : Validation) : bool :=
  match v with
  | Checked validationScore minRequiredScore => Qle_bool minRequiredScore validationScore
  | _ => false
  end.

Record UpdateResult := {
  updated : bool;
  updateError : option ErrorMessage
}.

Section WithRuntime.
Context `{Runtime}.

(** The constructor: the first conventional source directory that
    exists, the project root otherwise. *)
Definition newTextProcessor (fs : FileSystem) (root : jsstring) : TextProcessor :=
  let possibleSourceDirs :=
    [ path_join root (str "src"); path_join root (str "app");
      path_join root (str "pages"); path_join root (str "components"); root ] in
  {| projectRoot := root;
     sourceDir := default root (List.find (isDirectory fs) possibleSourceDirs) |}.

Definition fullPathOf (tp : TextProcessor) (p : jsstring) : jsstring :=
  if path_isAbsolute p then p else path_join (projectRoot tp) p.

Definition getFileContent (tp : TextProcessor) (fs : FileSystem) (p : jsstring) : jsstring :=
  default [] (readFile fs (fullPathOf tp p)).

(** *** The corpus scanner *)

Definition patterns : list jsstring :=
  [ str "**/*.{ts,tsx,js,jsx}"; str "**/*.{vue,svelte}"; str "**/*.{html,htm}";
    str "**/*.md"; str "**/*.mdx"; str "**/*.json"; str "**/*.faq.json" ].

Definition searchDirs (tp : TextProcessor) : list jsstring :=
  sourceDir tp :: (if eqs (sourceDir tp) (projectRoot tp) then [] else [projectRoot tp]).

Definition allFiles (tp : TextProcessor) (fs : FileSystem) : list jsstring :=
  flat_map (fun searchDir =>
              flat_map (fun pattern =>
                          match glob fs pattern searchDir with
                          | Some found => List.map (path_join searchDir) found
                          | None => []
                          end) patterns)
           (searchDirs tp).

(** The record pushed for line [i] (counted from 0) and one variation. *)
Definition candidate (tp : TextProcessor) (cleanedText : jsstring)
    (searchVariations : list jsstring) (file : jsstring) (lines : list jsstring)
    (i : nat) (line variation : jsstring) : FileMatch :=
  let normalizedLine := cleanSearchText line in
  let originalTextInFile := extractOriginalTextFromLine line variation normalizedLine in
  {| filePath := path_relative (projectRoot tp) file;
     lineNumber := i + 1;
     originalLine := line;
     updatedLine := replaceFirstStr originalTextInFile
                      (default [] (head searchVariations)) line;
     matchedText := originalTextInFile;
     matchedVariation := if eqs variation cleanedText then None else Some variation;
     contextBefore := slice (i - 3) i lines;
     contextAfter := slice (i + 1) (Nat.min (length lines) (i + 4)) lines;
     isAttributeMatchFlag := isAttributeMatch normalizedLine variation;
     isTextContentMatchFlag := isTextContentMatch normalizedLine variation;
     isExactMatch := hasExactTextMatch line variation |}.

Definition scanLine (tp : TextProcessor) (cleanedText : jsstring)
    (searchVariations : list jsstring) (file : jsstring) (lines : list jsstring)
    (i : nat) (line : jsstring) : list FileMatch :=
  flat_map (fun variation =>
              let hasExactMatch := hasExactTextMatch line variation in
              let shouldUseMatch := hasExactMatch in
              if shouldUseMatch
              then [candidate tp cleanedText searchVariations file lines i line variation]
              else [])
           searchVariations.

Definition scanFile (tp : TextProcessor) (fs : FileSystem) (cleanedText : jsstring)
    (searchVariations : list jsstring) (file : jsstring) : list FileMatch :=
  match readFile fs file with
  | None => []
  | Some content =>
      let lines := split lf content in
      concat (imap (scanLine tp cleanedText searchVariations file lines) lines)
  end.

Definition findTextInSourceFiles (tp : TextProcessor) (fs : FileSystem)
    (originalText : jsstring) : list FileMatch :=
  let cleanedText := cleanSearchText originalText in
  let searchVariations := extractDynamicPart cleanedText in
  flat_map (scanFile tp fs cleanedText searchVariations) (allFiles tp fs).

(** *** The page filter *)

Definition urlPartsOf (url : jsstring) : list jsstring :=
  List.filter nonEmpty (split 47 url).

Definition b2n (b : bool) (n : nat) : nat := if b then n else 0.

Definition relevanceScore (url : jsstring) (m : FileMatch) : nat :=
  let urlParts := urlPartsOf url in
  let lastPart := default (str "index") (last urlParts) in
  let path := toLowerCase (filePath m) in
  b2n (includes path (lastPart ++ str "/page.")) 100
  + b2n (existsb (fun part => includes path (toLowerCase part)) urlParts) 50
  + b2n (includes path (str "/page.") || includes path (str "page/")) 30
  + b2n (includes path (str "/components/")) 20
  + b2n (includes path (str "/layout.")) 10
  + b2n (includes path (str "nav") || includes path (str "header")
         || includes path (str "footer")) 5.

(** The comparator of the sort: [a] is at most as relevant as [b].  The
    sort works on copies of the candidates that carry the score in a
    field of their own, which nothing reads afterwards. *)
Definition byRelevance (url : jsstring) (a b : FileMatch) : bool :=
  Nat.leb (relevanceScore url a) (relevanceScore url b).

Definition filterByPageContext (matches : list FileMatch) (page : PageContext)
    : list FileMatch :=
  if nonEmpty (pageUrl page)
  then take 10 (sortDesc (byRelevance (pageUrl page)) matches)
  else matches.

(** *** The context validator *)

Definition parentTextOf (context : EditContext) : option jsstring :=
  surroundingContext context ≫= parentText.

(** The usable text of one sibling descriptor: the piece after the first
    colon, up to the next colon or opening bracket, trimmed, when it has
    more than 15 code units. *)
Definition siblingTextPart (sibling : jsstring) : option jsstring :=
  if includes sibling (str ":") then
    let textPart := trim (default [] (head (split 91 (default [] (split 58 sibling !! 1))))) in
    if nonEmpty textPart && Nat.ltb 15 (length textPart) then Some textPart else None
  else None.

Definition is_selectorChar (c : N) : bool := is_word c || (c =? 45)%N.

(** [/#[\w-]+|\.[\w-]+/g] *)
Definition selectorPartRe : regex :=
  Alt (Seq (Chr 35) (Plus (Cls is_selectorChar)))
      (Seq (Chr 46) (Plus (Cls is_selectorChar))).

Definition hasMinimalContext (context : EditContext) : bool :=
  truthy (parentTextOf context)
  && eqs (trim (cleanSearchText (default [] (parentTextOf context))))
         (trim (cleanSearchText (originalText context))).

Definition hasElementId (context : EditContext) : bool :=
  truthy (elementId (elementContext context)).

Definition hasStrongElementContext (context : EditContext) : bool :=
  hasElementId context
  || Nat.leb 3 (length (default [] (elementClasses (elementContext context)))).

Definition minRequiredScore (context : EditContext) (isUniqueText : bool) : Q :=
  if hasElementId context || isUniqueText then 1
  else if hasStrongElementContext context then 1
  else if hasMinimalContext context then 3
  else if Nat.ltb (length (trim (originalText context))) 10 then 2
  else 1.

Definition parentScore (context : EditContext) : Q :=
  if truthy (parentTextOf context) then
    if eqs (trim (cleanSearchText (default [] (parentTextOf context))))
           (trim (cleanSearchText (originalText context)))
    then 1 else 2
  else 0.

Definition siblingScore (context : EditContext) (fileContent : jsstring) : Q :=
  let siblings := default [] (surroundingContext context ≫= siblingsAfter) in
  let checked := omap siblingTextPart siblings in
  let totalSiblings := length checked in
  let siblingMatches :=
    length (List.filter (fun textPart =>
                           includes (cleanSearchText fileContent) (cleanSearchText textPart))
                        checked) in
  if Nat.ltb 0 totalSiblings then
    if Qle_bool (1 # 2) (inject_Z (Z.of_nat siblingMatches) / inject_Z (Z.of_nat totalSiblings))
    then inject_Z (Z.of_nat siblingMatches) * 2
    else - (1)
  else 0.

Definition pageScore (context : EditContext) (m : FileMatch) : Q :=
  let url := pageUrl (pageContext context) in
  if nonEmpty url then
    let fileName := toLowerCase (filePath m) in
    (if eqs url (str "/") || eqs url [] then
       if includes fileName (str "testimonials") || includes fileName (str "obstacles")
          || includes fileName (str "bausteine") || includes fileName (str "hero")
          || negb (includes fileName (str "(light-bg)"))
       then 1 else 0
     else 0)
    + (if includes url (str "/") && negb (eqs url (str "/")) then
         let pagePath :=
           replaceFirstRe (Seq (Chr 47) Eol) (fun _ => [])
             (replaceFirstRe (Seq Bol (Chr 47)) (fun _ => []) url) in
         if includes fileName pagePath then 2 else 0
       else 0)
  else 0.

Definition selectorScore (context : EditContext) (fileContent : jsstring) : Q :=
  let selector := cssSelector (elementContext context) in
  if nonEmpty selector then
    let selectorParts := List.map (matched selector) (matchAll selectorPartRe selector) in
    let selectorMatches :=
      length (List.filter (fun part =>
                             let cleanPart := drop 1 part in
                             Nat.ltb 3 (length cleanPart) && includes fileContent cleanPart)
                          selectorParts) in
    if Nat.ltb 0 selectorMatches
    then inject_Z (Z.of_nat selectorMatches) * (1 # 2)
    else 0
  else 0.

Definition minimalContextScore (context : EditContext) : Q :=
  if hasMinimalContext context then
    if Nat.ltb 20 (length (cssSelector (elementContext context))) then 1 else - (1)
  else 0.

Definition validationScore (tp : TextProcessor) (fs : FileSystem) (m : FileMatch)
    (context : EditContext) (isUniqueText : bool) : Q :=
  let fileContent := getFileContent tp fs (filePath m) in
  parentScore context + siblingScore context fileContent + pageScore context m
  + selectorScore context fileContent + minimalContextScore context
  + (if isUniqueText then 3 else 0)
  + (if hasElementId context then 2 else 0).

Definition validateExactContext (tp : TextProcessor) (fs : FileSystem) (m : FileMatch)
    (context : EditContext) (isUniqueText : bool) : Validation :=
  let fileContent := getFileContent tp fs (filePath m) in
  let originalTextNormalized := cleanSearchText (originalText context) in
  if truthy (parentTextOf context)
     && negb (includes (cleanSearchText (default [] (parentTextOf context)))
                       originalTextNormalized)
  then TextNotInParent
  else if truthy (parentTextOf context)
          && negb (includes (cleanSearchText fileContent) originalTextNormalized)
  then TextNotInFile
  else Checked (validationScore tp fs m context isUniqueText)
               (minRequiredScore context isUniqueText).

(** *** Scoring and ranking *)

Definition qmin (a b : Q) : Q := if Qle_bool a b then a else b.

Definition hasDomContext (context : EditContext) : bool :=
  truthy (elementId (elementContext context))
  || nonEmpty (elementTag (elementContext context)).

Definition matchScore (context : EditContext) (m : FileMatch) : Q :=
  3
  + (if hasDomContext context then
       if endsWith (str ".tsx") (filePath m) || endsWith (str ".jsx") (filePath m) then 2
       else if includes (filePath m) (str ".map.json")
               || includes (filePath m) (str "hero-page-element-id") then - (1)
       else 0
     else 0)
  + (if includes (filePath m) (str "/components/")
        || includes (filePath m) (str "\components\") then 1 else 0)
  + (if isExactMatch m then 3 else - (1))
  + (if isTextContentMatchFlag m && negb (isAttributeMatchFlag m) then 1 else 0).

Definition matchReasons (context : EditContext) (m : FileMatch) : list jsstring :=
  [str "Text match found"; str "Context validation passed"]
  ++ (if hasDomContext context then
        if endsWith (str ".tsx") (filePath m) || endsWith (str ".jsx") (filePath m)
        then [str "Component file with DOM context (high priority)"]
        else if includes (filePath m) (str ".map.json")
                || includes (filePath m) (str "hero-page-element-id")
        then [str "Mapping file (lower priority when DOM context available)"]
        else []
      else [])
  ++ (if includes (filePath m) (str "/components/")
         || includes (filePath m) (str "\components\") then [str "Component file"] else [])
  ++ (if isExactMatch m then [str "Exact text match (high priority)"]
      else [str "Non-exact match (penalty applied)"])
  ++ (if isTextContentMatchFlag m && negb (isAttributeMatchFlag m)
      then [str "Text content match"] else []).

Definition scoreOf (context : EditContext) (m : FileMatch) : ScoredMatch :=
  {| base := m;
     score := matchScore context m;
     confidence := qmin (matchScore context m / 4) 1;
     reasons := matchReasons context m |}.

(** The candidates that pass validation, scored, in the order they came in. *)
Definition validMatches (tp : TextProcessor) (fs : FileSystem) (matches : list FileMatch)
    (context : EditContext) : list ScoredMatch :=
  let isUniqueText := Nat.eqb (length matches) 1 in
  List.map (scoreOf context)
    (List.filter (fun m => isValid (validateExactContext tp fs m context isUniqueText))
                 matches).

Definition byConfidence (a b : ScoredMatch) : bool :=
  Qle_bool (confidence a) (confidence b).

Definition scoreMatchesWithContext (tp : TextProcessor) (fs : FileSystem)
    (matches : list FileMatch) (context : EditContext) : list ScoredMatch :=
  sortDesc byConfidence (validMatches tp fs matches context).

Definition isPureText (m : ScoredMatch) : bool :=
  isTextContentMatchFlag (base m) && negb (isAttributeMatchFlag (base m)).

Definition isContentAttribute (m : ScoredMatch) : bool :=
  if negb (isTextContentMatchFlag (base m)) || negb (isAttributeMatchFlag (base m))
  then false
  else existsb (fun attr => includes (toLowerCase (originalLine (base m))) (toLowerCase attr))
               contentAttributes.

Definition isMixed (m : ScoredMatch) : bool :=
  isTextContentMatchFlag (base m) && isAttributeMatchFlag (base m).

Definition isHighConfidence (m : ScoredMatch) : bool :=
  negb (Qle_bool (confidence m) (1 # 2)).

Definition findBestMatch (scoredMatches : list ScoredMatch) : option ScoredMatch :=
  match scoredMatches with
  | [] => None
  | bestMatch :: _ =>
      match List.filter isPureText scoredMatches with
      | m :: _ => Some m
      | [] =>
          match List.filter isContentAttribute scoredMatches with
          | m :: _ => Some m
          | [] =>
              match List.filter isMixed scoredMatches with
              | m :: _ => Some m
              | [] =>
                  let highConfidenceMatches := List.filter isHighConfidence scoredMatches in
                  if Nat.ltb 1 (length highConfidenceMatches)
                  then head highConfidenceMatches
                  else Some bestMatch
              end
          end
      end
  end.

(** *** Writing the patch *)

Definition updateSourceFile (tp : TextProcessor) (fs : FileSystem) (m : FileMatch)
    (context : EditContext) : FileSystem * UpdateResult :=
  let fullPath := fullPathOf tp (filePath m) in
  match readFile fs fullPath with
  | None => (fs, {| updated := false; updateError := Some HostError |})
  | Some content =>
      let lines := split lf content in
      if Nat.leb (lineNumber m) (length lines) then
        match lines !! (lineNumber m - 1), lineNumber m with
        | Some originalLine, S _ =>
            let updatedLine := replaceTextContent originalLine (matchedText m) (newText context) in
            let updatedLine :=
              if eqs updatedLine originalLine
              then replaceFirstStr (matchedText m) (newText context) originalLine
              else updatedLine in
            let updatedContent := join lf (<[lineNumber m - 1 := updatedLine]> lines) in
            match writeFile fs fullPath updatedContent with
            | Some fs' => (fs', {| updated := true; updateError := None |})
            | None => (fs, {| updated := false; updateError := Some HostError |})
            end
        | _, _ => (fs, {| updated := false; updateError := Some HostError |})
        end
      else (fs, {| updated := false;
                   updateError := Some (LineExceeds (lineNumber m)) |})
  end.

(** *** The whole edit

    Every function above is total and the patcher catches its own
    exceptions, so the outer [catch] of [processTextEdit] is reached by
    no request of the declared type and has no counterpart here. *)

Definition failure (c : Q) (conflicts : bool) (alternatives : option (list ScoredMatch))
    (e : ErrorMessage) : ProcessResult :=
  {| success := false; resultConfidence := c; matchedFilePath := None;
     resultLineNumber := None; matchContext := None;
     alternativeMatches := alternatives; hasConflicts := conflicts;
     errorMessage := Some e |}.

Definition processTextEdit (tp : TextProcessor) (fs : FileSystem) (editContext : EditContext)
    : FileSystem * ProcessResult :=
  let allMatches := findTextInSourceFiles tp fs (originalText editContext) in
  if Nat.eqb (length allMatches) 0 then (fs, failure 0 false None NoMatchesFound)
  else
    let pageMatches := filterByPageContext allMatches (pageContext editContext) in
    let scoredMatches := scoreMatchesWithContext tp fs pageMatches editContext in
    match findBestMatch scoredMatches with
    | None =>
        (fs, failure 0 (Nat.ltb 1 (length scoredMatches)) (Some scoredMatches) NoMatchesFound)
    | Some bestMatch =>
        if negb (Qle_bool (1 # 2) (confidence bestMatch)) then
          (fs, failure (confidence bestMatch) (Nat.ltb 1 (length scoredMatches))
                 (Some scoredMatches) LowConfidenceMatch)
        else
          let '(fs', updateResult) := updateSourceFile tp fs (base bestMatch) editContext in
          if updated updateResult then
            (fs', {| success := true; resultConfidence := confidence bestMatch;
                     matchedFilePath := Some (filePath (base bestMatch));
                     resultLineNumber := Some (lineNumber (base bestMatch));
                     matchContext := Some (originalLine (base bestMatch));
                     alternativeMatches := None; hasConflicts := false;
                     errorMessage := None |})
          else
            (fs', failure (confidence bestMatch) false None
                    (default HostError (updateError updateResult)))
    end.

End WithRuntime.

End Engine.

Import Engine.

(** ** A concrete runtime and a small project, for the examples

    [asciiRuntime] agrees with JavaScript and Node on the inputs of the
    examples below: ASCII strings, and POSIX paths made of a root and
    plain segments. *)

Module Examples.

Definition asciiLower (c : N) : N :=
  if (65 <=? c)%N && (c <=? 90)%N then (c + 32)%N else c.
Definition asciiUpper (c : N) : N :=
  if (97 <=? c)%N && (c <=? 122)%N then (c - 32)%N else c.

#[export] Instance asciiRuntime : Runtime := {|
  toLowerCase := List.map asciiLower;
  canonicalize := asciiUpper;
  path_join := fun a b => a ++ str "/" ++ b;
  path_relative := fun root p =>
    if startsWith (root ++ str "/") p then drop (length root + 1) p else p;
  path_isAbsolute := startsWith (str "/")
|}.

(** A project rooted at [/p] without a conventional source directory,
    holding the given HTML files. *)
Definition project (htmlFiles : list (string * list string)) : FileSystem :=
  {| files := list_to_map
       (List.map (fun f => (str "/p/" ++ str (fst f), join lf (List.map str (snd f))))
                 htmlFiles);
     glob := fun pattern cwd =>
       if eqs cwd (str "/p") && eqs pattern (str "**/*.{html,htm}")
       then Some (List.map (fun f => str (fst f)) htmlFiles)
       else Some [];
     isDirectory := fun p => eqs p (str "/p");
     writable := fun _ => true |}.

Definition request (text new id url : string) : EditContext :=
  {| originalText := str text;
     newText := str new;
     elementContext :=
       {| elementTag := str "div"; elementClasses := None;
          elementId := if eqs (str id) [] then None else Some (str id);
          heroPageElementId := None;
          cssSelector := []; elementPath := [] |};
     surroundingContext := None;
     pageContext := {| pageUrl := str url; pageTitle := None; fullUrl := None |} |}.

Definition processor (fs : FileSystem) : TextProcessor := newTextProcessor fs (str "/p").

(** Two files that both spell the text as a [class] value. *)
Definition twoFiles : FileSystem :=
  project [ ("a.html", ["<div class='Hello'>"]);
            ("nav.html", ["<ul>"; "<li class='Hello'>"]) ]%string.

Definition helloRequest : EditContext := request "Hello" "Bye" "greeting" "/q".

Definition helloProcessor : TextProcessor := processor twoFiles.


(** One file whose eleven lines all spell the text between tags, and a
    request without a page URL. *)
Definition elevenLines : FileSystem :=
  project [ ("list.html", List.repeat "<b>Hello</b>" 11) ]%string.



(** A component that is named like its caption. *)
Definition buttonFile : FileSystem :=
  project [ ("a.html", ["<Button>Button</Button>"]) ]%string.

Definition buttonRequest : EditContext := request "Button" "Submit" "" "/".

(** A candidate for a line of a file, as far as the patcher reads it. *)
Definition matchAt (file : string) (line : nat) (text : string) : FileMatch :=
  {| filePath := str file; lineNumber := line; originalLine := [];
     updatedLine := []; matchedText := str text; matchedVariation := None;
     contextBefore := []; contextAfter := [];
     isAttributeMatchFlag := false; isTextContentMatchFlag := true;
     isExactMatch := true |}.

(** A file with a blank line, and a request whose text is one space. *)
Definition blankLine : FileSystem :=
  project [ ("a.html", ["<p>"; ""; "</p>"]) ]%string.

Definition blankRequest : EditContext := request " " "Bye" "" "".

(** A project with a [src] directory that holds one file: the glob
    answers from [src] with the name of the file and from the root with
    its path under the root. *)
Definition srcProject : FileSystem :=
  {| files := {[ str "/p/src/a.html" := str "<b>Hello</b>" ]};
     glob := fun pattern cwd =>
       if eqs pattern (str "**/*.{html,htm}") then
         if eqs cwd (str "/p/src") then Some [str "a.html"]
         else if eqs cwd (str "/p") then Some [str "src/a.html"]
         else Some []
       else Some [];
     isDirectory := fun p => eqs p (str "/p") || eqs p (str "/p/src");
     writable := fun _ => true |}.

(** The request for [Hello] with a parent text that does not hold it. *)
Definition orphanRequest : EditContext :=
  {| originalText := str "Hello";
     newText := str "Bye";
     elementContext := elementContext helloRequest;
     surroundingContext :=
       Some {| parentText := Some (str "Welcome"); siblingsBefore := None;
               siblingsAfter := None; nearbyUniqueText := None |};
     pageContext := pageContext helloRequest |}.

(** The request for [Hello] with the fields the engine does not read
    filled in. *)
Definition decoratedRequest : EditContext :=
  {| originalText := str "Hello";
     newText := str "Bye";
     elementContext :=
       {| elementTag := str "div"; elementClasses := None;
          elementId := Some (str "greeting");
          heroPageElementId := Some (str "hero-1");
          cssSelector := []; elementPath := str "html > body > div" |};
     surroundingContext := None;
     pageContext :=
       {| pageUrl := str "/q"; pageTitle := Some (str "Welcome");
          fullUrl := Some (str "https://example.org/q") |} |}.



End Examples.

(** * Predicates of the statements *)

Module Shape.

Definition noLead (p : N -> bool) (t : jsstring) : Prop :=
  match t with
  | c :: _ => p c = false
  | [] => True
  end.

Definition noTrail (p : N -> bool) (t : jsstring) : Prop := noLead p (rev t).

(** Every white-space code unit is a plain space and is not followed by
    another one. *)
Fixpoint spaced (t : jsstring) : bool :=
  match t with
  | [] => true
  | c :: t' =>
      (if is_ws c
       then (c =? 32)%N && match t' with d :: _ => negb (is_ws d) | [] => true end
       else true) && spaced t'
  end.

(** The code units [replaceTypography] rewrites. *)
Definition typographic : list N := [160; 8230; 8220; 8221; 8216; 8217; 8222; 8218]%N.
Definition plain (c : N) : bool := negb (mem c typographic).

(** What every normalized text looks like. *)
Record normalForm (t : jsstring) : Prop := {
  nf_plain : forallb plain t = true;
  nf_spaced : spaced t = true;
  nf_lead : noLead is_ws t;
  nf_trail : noTrail is_ws t
}.

(** A normalized text is [settled] when a second pass finds nothing left
    to do: no entity of the table, no straight quote at either end, no
    final period. *)
Definition settled (t : jsstring) : bool :=
  forallb (fun er => negb (includes t (fst er))) entityMap
  && negb (match t with c :: _ => mem c [34; 39]%N | [] => false end)
  && negb (match rev t with c :: _ => mem c [34; 39; 46]%N | [] => false end).







(** The order a descending sort establishes: a later element never has
    a larger key ([leb y x] reads: the key of [y] is at most that of [x]). *)
Definition notBelow {A} (leb : A -> A -> bool) (x y : A) : Prop := leb y x = true.

(** [x] is the first element of [l] among those with the largest key. *)
Definition firstMax {A} (leb : A -> A -> bool) (l : list A) (x : A) : Prop :=
  exists pre post,
    l = pre ++ x :: post
    /\ (forall y, In y pre -> leb x y = false)
    /\ (forall y, In y post -> leb y x = true).

(** Every capture is made of code units that satisfy [P]. *)
Definition capturesOf (P : N -> Prop) (caps : captures) : Prop :=
  forall n w, caps !! n = Some w -> Forall P w.

(** The continuation of a match keeps that property when it is handed
    captures and a rest of input that have it. *)
Definition keeps (P : N -> Prop)
    (k : captures -> nat -> jsstring -> option found) : Prop :=
  forall caps i s res,
    capturesOf P caps -> Forall P s -> k caps i s = Some res ->
    capturesOf P (f_caps res).

(** [a] stands before [b] in the list of candidates as the scan found them. *)
Definition discoveredBefore (all : list FileMatch) (a b : FileMatch) : Prop :=
  exists pre mid post, all = pre ++ a :: mid ++ b :: post.

Section WithRuntime.
Context `{Runtime}.

(** The buckets of the ranker in their order of precedence, the last one
    being all candidates; the first that is not empty. *)
Definition firstNonEmptyBucket (valid : list ScoredMatch) : list ScoredMatch :=
  match List.filter isPureText valid with
  | _ :: _ => List.filter isPureText valid
  | [] =>
      match List.filter isContentAttribute valid with
      | _ :: _ => List.filter isContentAttribute valid
      | [] =>
          match List.filter isMixed valid with
          | _ :: _ => List.filter isMixed valid
          | [] => valid
          end
      end
  end.

(** The candidates [processTextEdit] hands to validation, and those that
    come back scored. *)
Definition pageMatchesOf (tp : TextProcessor) (fs : FileSystem) (ctx : EditContext)
    : list FileMatch :=
  filterByPageContext (findTextInSourceFiles tp fs (originalText ctx)) (pageContext ctx).

Definition scoredMatchesOf (tp : TextProcessor) (fs : FileSystem) (ctx : EditContext)
    : list ScoredMatch :=
  scoreMatchesWithContext tp fs (pageMatchesOf tp fs ctx) ctx.


(** The ranking rule as the specification words its last case: when the
    three buckets are empty, the candidate selected has the highest
    confidence and no candidate of the same confidence was discovered
    before it. *)
Definition tiesByDiscoveryOrder (tp : TextProcessor) (fs : FileSystem)
    (ctx : EditContext) : Prop :=
  let scored := scoredMatchesOf tp fs ctx in
  forall best,
    findBestMatch scored = Some best ->
    List.filter isPureText scored = [] ->
    List.filter isContentAttribute scored = [] ->
    List.filter isMixed scored = [] ->
    forall other,
      In other scored ->
      (confidence other == confidence best)%Q ->
      ~ discoveredBefore (findTextInSourceFiles tp fs (originalText ctx))
          (base other) (base best).

(** The conflict flag as the specification words it. *)
Definition conflictsReported (tp : TextProcessor) (fs : FileSystem)
    (ctx : EditContext) : Prop :=
  2 <= length (scoredMatchesOf tp fs ctx) ->
  hasConflicts (snd (processTextEdit tp fs ctx)) = true.


End WithRuntime.

End Shape.

Import Shape.


(** * Further predicates *)

Module Occurs.

(** Every capture occurs in [line]. *)
Definition capturesIn (line : jsstring) (caps : captures) : Prop :=
  forall n w, caps !! n = Some w -> includes line w = true.

(** The continuation of a match keeps that property when it is handed
    captures that have it and a rest of [line]. *)
Definition keepsIn (line : jsstring)
    (k : captures -> nat -> jsstring -> option found) : Prop :=
  forall caps i s res,
    capturesIn line caps -> s `suffix_of` line -> k caps i s = Some res ->
    capturesIn line (f_caps res).

(** [i] and [s] are an index of the input [s0], which starts at [i0], and
    the input from that index on. *)
Definition reaches (i0 : nat) (s0 : jsstring) (i : nat) (s : jsstring) : Prop :=
  i0 <= i /\ i + length s = i0 + length s0.

(** Every result of the continuation has the property [Q] when it is
    called at an index of the input. *)
Definition keepsAt (Q : found -> Prop) (i0 : nat) (s0 : jsstring)
    (k : captures -> nat -> jsstring -> option found) : Prop :=
  forall caps i s res, reaches i0 s0 i s -> k caps i s = Some res -> Q res.

(** A match lies between [lo] and [hi]. *)
Definition liesIn (lo hi : nat) (m : found) : Prop :=
  lo <= f_start m /\ f_start m <= f_end m /\ f_end m <= hi.

(** What [replaceJsonValue] and [preserveEntityQuotesSimple] look for in
    place of [oldText]: the text trimmed and without its enclosing
    double quotes, and the text without its enclosing [&quot;]. *)
Definition jsonNeedle (oldText : jsstring) : jsstring :=
  let cleanOldText := trim oldText in
  if startsWith (32%N :: [dq]) cleanOldText && endsWith [dq] cleanOldText
  then substring 2 (length cleanOldText - 1) cleanOldText
  else if startsWith [dq] cleanOldText && endsWith [dq] cleanOldText
  then substring 1 (length cleanOldText - 1) cleanOldText
  else cleanOldText.

Definition entityNeedle (oldText : jsstring) : jsstring :=
  if startsWith (str "&quot;") oldText && endsWith (str "&quot;") oldText
  then substring 6 (length oldText - 6) oldText
  else oldText.

End Occurs.

Import Occurs.

(** * The part of a request the engine reads *)

Module Request.

(** The request with every field the engine never reads set to a fixed
    value: [heroPageElementId], [elementPath], [siblingsBefore],
    [nearbyUniqueText], [pageTitle] and [fullUrl]. *)
Definition core (context : EditContext) : EditContext :=
  {| originalText := originalText context;
     newText := newText context;
     elementContext :=
       {| elementTag := elementTag (elementContext context);
          elementClasses := elementClasses (elementContext context);
          elementId := elementId (elementContext context);
          heroPageElementId := None;
          cssSelector := cssSelector (elementContext context);
          elementPath := [] |};
     surroundingContext :=
       match surroundingContext context with
       | Some surrounding =>
           Some {| parentText := parentText surrounding;
                   siblingsBefore := None;
                   siblingsAfter := siblingsAfter surrounding;
                   nearbyUniqueText := None |}
       | None => None
       end;
     pageContext :=
       {| pageUrl := pageUrl (pageContext context); pageTitle := None; fullUrl := None |} |}.

End Request.

Import Request.
(** * Sanity checks of the embedding *)

Example clean_ex1 : cleanSearchText (str "  Hello&nbsp;&amp;  world. ") = str "Hello & world".
Proof. vm_compute. reflexivity. Qed.

Example clean_ex2 : cleanSearchText (str "a..") = str "a.".
Proof. vm_compute. reflexivity. Qed.

Example re_ex1 :
  matched (str "ab  cd") <$> exec (Plus (Cls is_ws)) (str "ab  cd") = Some (str "  ").
Proof. vm_compute. reflexivity. Qed.

Example re_ex2 :
  replaceAllRe (Seqs [Chr 60; Star true (NoneOf [62]%N); Chr 62]) (fun _ => str "T")
    (str "a<b>c<d e>f<") = str "aTcTf<".
Proof. vm_compute. reflexivity. Qed.

Example re_ex3 :
  replaceAllRe Eps (fun _ => str "-") (str "ab") = str "-a-b-".
Proof. vm_compute. reflexivity. Qed.

Example vars_ex1 : extractDynamicPart (str "1. Hello") = [str "1. Hello"; str "Hello"].
Proof. vm_compute. reflexivity. Qed.

Example vars_ex2 : extractDynamicPart (str "'Hello'  x") = [str "'Hello'  x"; str "'Hello' x"; str "Hello'  x"; str "Hello' x"].
Proof. vm_compute. reflexivity. Qed.

Example subst_ex1 : replaceFirstStr (str "b") (str "[$&$$$`$'$1]") (str "abc") = str "a[b$ac$1]c".
Proof. vm_compute. reflexivity. Qed.

Example exact_ex1 : hasExactTextMatch (str "  <h1>Welcome</h1>") (str "Welcome") = true.
Proof. vm_compute. reflexivity. Qed.

Example exact_ex2 : hasExactTextMatch (str "  <h1>Welcome home</h1>") (str "Welcome") = false.
Proof. vm_compute. reflexivity. Qed.

Example extract_ex1 :
  extractOriginalTextFromLine (str "  <h1>Welcome</h1>") (str "Welcome")
    (cleanSearchText (str "  <h1>Welcome</h1>")) = str "Welcome".
Proof. vm_compute. reflexivity. Qed.

Example extract_ex2 :
  extractOriginalTextFromLine (str "<p>Tom &amp; Jerry</p>") (str "Tom & Jerry")
    (cleanSearchText (str "<p>Tom &amp; Jerry</p>")) = str "Tom &amp; Jerry".
Proof. vm_compute. reflexivity. Qed.

Example patch_ex1 : replaceTextContent (str "  <h1>Welcome</h1>") (str "Welcome") (str "Hello") = str "  <h1>Hello</h1>".
Proof. vm_compute. reflexivity. Qed.

Example patch_ex2 :
  replaceTextContent (str "<Button>Button</Button>") (str "Button") (str "Submit")
  = str "<Submit>Button</Button>".
Proof. vm_compute. reflexivity. Qed.

Example patch_ex3 :
  replaceTextContent (str "  title: 'Old Title', other: 'Old Title'") (str "Old Title") (str "New")
  = str "  title: 'Old Title', other: 'Old Title'".
Proof. vm_compute. reflexivity. Qed.

Example patch_ex4 :
  replaceTextContent (str "say &quot;hi&quot; and &quot;ho&quot;") (str "hi") (str "yo")
  = str "say &quot;yo&quot; and &quot;ho&quot;".
Proof. vm_compute. reflexivity. Qed.

Example classify_ex1 :
  let line := str "<img title='Old Title'>" in
  (hasExactTextMatch line (str "Old Title"),
   isAttributeMatch (H := Examples.asciiRuntime) line (str "Old Title"),
   isTextContentMatch (H := Examples.asciiRuntime) line (str "Old Title"))
  = (true, true, true).
Proof. vm_compute. reflexivity. Qed.

Example classify_ex2 :
  let line := str "<div class='Hello'>" in
  (isAttributeMatch (H := Examples.asciiRuntime) line (str "hello"),
   isTextContentMatch (H := Examples.asciiRuntime) line (str "hello"))
  = (true, false).
Proof. vm_compute. reflexivity. Qed.

Example split_ex1 : split lf (str "") = [[]] /\ join lf [str "a"; []; str "b"] = [97; 10; 10; 98]%N.
Proof. split; reflexivity. Qed.
(** * Properties *)

(** ** Lists of code units *)

Section StringFacts.

Lemma dropWhile_noLead p s : noLead p (dropWhile p s).
Proof.
  induction s as [|c s IH]; simpl; [exact I|].
  destruct (p c) eqn:E; [exact IH | exact E].
Qed.

Lemma dropWhile_fixed p t : noLead p t -> dropWhile p t = t.
Proof. destruct t as [|c t]; simpl; [reflexivity|]. intros ->. reflexivity. Qed.

Lemma dropWhile_suffix p s : dropWhile p s `suffix_of` s.
Proof.
  induction s as [|c s IH]; simpl; [reflexivity|].
  destruct (p c); [by apply suffix_cons_r | reflexivity].
Qed.

Lemma dropWhileEnd_noTrail p s : noTrail p (dropWhileEnd p s).
Proof. unfold noTrail, dropWhileEnd. rewrite rev_involutive. apply dropWhile_noLead. Qed.

Lemma dropWhileEnd_fixed p t : noTrail p t -> dropWhileEnd p t = t.
Proof.
  unfold noTrail, dropWhileEnd. intros Ht.
  rewrite (dropWhile_fixed _ _ Ht). apply rev_involutive.
Qed.

Lemma dropWhileEnd_prefix p s : dropWhileEnd p s `prefix_of` s.
Proof.
  unfold dropWhileEnd.
  destruct (dropWhile_suffix p (rev s)) as [k Hk].
  exists (rev k). apply (f_equal (@rev N)) in Hk.
  rewrite rev_involutive, rev_app_distr in Hk. exact Hk.
Qed.

Lemma stripFinalPeriod_prefix s : stripFinalPeriod s `prefix_of` s.
Proof.
  unfold stripFinalPeriod. destruct (rev s) as [|c r] eqn:E; [reflexivity|].
  destruct (c =? 46)%N; [|reflexivity].
  exists [c]. apply (f_equal (@rev N)) in E. rewrite rev_involutive in E.
  simpl in E. exact E.
Qed.

Lemma noLead_prefix p a b : a `prefix_of` b -> noLead p b -> noLead p a.
Proof. intros [k ->]. destruct a; simpl; [intros; exact I | tauto]. Qed.

Lemma noTrail_suffix p a b : a `suffix_of` b -> noTrail p b -> noTrail p a.
Proof.
  intros [k ->]. unfold noTrail. rewrite rev_app_distr.
  apply noLead_prefix. by exists (rev k).
Qed.

Lemma trim_noLead s : noLead is_ws (trim s).
Proof.
  unfold trim, trimEnd, trimStart.
  eapply noLead_prefix; [apply dropWhileEnd_prefix | apply dropWhile_noLead].
Qed.

Lemma trim_noTrail s : noTrail is_ws (trim s).
Proof. apply dropWhileEnd_noTrail. Qed.

Lemma trim_fixed t : noLead is_ws t -> noTrail is_ws t -> trim t = t.
Proof.
  intros Hl Ht. unfold trim, trimStart, trimEnd.
  rewrite (dropWhile_fixed _ _ Hl). by apply dropWhileEnd_fixed.
Qed.


Lemma trim_infix s : exists a b, s = a ++ trim s ++ b.
Proof.
  unfold trim, trimStart, trimEnd.
  destruct (dropWhile_suffix is_ws s) as [a Ha].
  destruct (dropWhileEnd_prefix is_ws (dropWhile is_ws s)) as [b Hb].
  exists a, b. rewrite <- Hb. exact Ha.
Qed.

Lemma startsWith_app p s : startsWith p s = true -> exists rest, s = p ++ rest.
Proof.
  revert s. induction p as [|x p IH]; intros s; cbn [startsWith]; [by exists s|].
  destruct s as [|y s]; [discriminate|].
  intros [Hx Hp]%andb_true_iff. apply N.eqb_eq in Hx. subst y.
  destruct (IH s Hp) as (rest & ->). by exists rest.
Qed.

(** *** Absent patterns *)

Lemma replaceAll_from_absent p r s :
  includes s p = false -> replaceAll_from 0 p r s = s.
Proof.
  induction s as [|c s IH]; [reflexivity|].
  intros Hinc. cbn [includes] in Hinc. apply orb_false_iff in Hinc as [Hs Hinc].
  cbn [replaceAll_from]. rewrite Hs. f_equal. by apply IH.
Qed.

Lemma replaceAll_absent p r s :
  includes s p = false -> replaceAll p r s = s.
Proof.
  destruct p as [|x p]; [destruct s; discriminate|].
  apply replaceAll_from_absent.
Qed.

Lemma replaceChars_absent cs r s :
  forallb (fun c => negb (mem c cs)) s = true -> replaceChars cs r s = s.
Proof.
  induction s as [|c s IH]; simpl; [reflexivity|].
  intros [Hc Hs]%andb_true_iff. apply negb_true_iff in Hc.
  unfold replaceChars in *. simpl. rewrite Hc. simpl. f_equal. by apply IH.
Qed.

Lemma replaceChars_forallb (P : N -> bool) cs r s :
  forallb P r = true ->
  forallb (fun c => mem c cs || P c) s = true ->
  forallb P (replaceChars cs r s) = true.
Proof.
  intros Hr. induction s as [|c s IH]; simpl; [reflexivity|].
  intros [Hc Hs]%andb_true_iff. unfold replaceChars in *. simpl.
  rewrite forallb_app, (IH Hs), andb_true_r.
  destruct (mem c cs); [exact Hr | simpl in *; by rewrite Hc].
Qed.

(** *** White space after [collapseSpaces] *)

Lemma collapse_from_spaced b s :
  spaced (collapse_from b s) = true
  /\ (b = true -> noLead is_ws (collapse_from b s)).
Proof.
  revert b. induction s as [|c s IH]; intros b; simpl; [by split|].
  destruct (is_ws c) eqn:Ec.
  - destruct (IH true) as [Hsp Hl]. destruct b.
    + split; [exact Hsp | intros _; by apply Hl].
    + split; [|discriminate]. simpl.
      specialize (Hl eq_refl).
      destruct (collapse_from true s) as [|d t]; simpl in *; [reflexivity|].
      rewrite Hl in *. simpl. exact Hsp.
  - destruct (IH false) as [Hsp _]. split.
    + simpl. rewrite Ec. exact Hsp.
    + intros _. exact Ec.
Qed.

Lemma collapse_from_fixed t :
  spaced t = true ->
  collapse_from false t = t /\ (noLead is_ws t -> collapse_from true t = t).
Proof.
  induction t as [|c t IH]; simpl; [by split|].
  intros [Hc Hs]%andb_true_iff. destruct (IH Hs) as [IH0 IH1].
  destruct (is_ws c) eqn:Ec.
  - apply andb_true_iff in Hc as [Hc Hn]. apply N.eqb_eq in Hc. subst c. split.
    + f_equal. apply IH1. destruct t; simpl; [exact I | by apply negb_true_iff].
    + intros Hx. congruence.
  - split; intros; by f_equal.
Qed.

Lemma spaced_app a b : spaced (a ++ b) = true -> spaced a = true /\ spaced b = true.
Proof.
  induction a as [|c a IH]; simpl; [by split|].
  intros [Hc Hs]%andb_true_iff. destruct (IH Hs) as [Ha Hb]. split; [|exact Hb].
  rewrite Ha, andb_true_r.
  destruct (is_ws c); [|reflexivity].
  apply andb_true_iff in Hc as [-> Hn]. simpl.
  destruct a; simpl in *; [reflexivity | exact Hn].
Qed.

End StringFacts.

(** ** The normalizer *)

Section NormalizerFacts.

Lemma mem_app c a b : mem c (a ++ b) = mem c a || mem c b.
Proof. unfold mem. apply existsb_app. Qed.

Lemma forallb_impl (P Q : N -> bool) s :
  (forall c, P c = true -> Q c = true) -> forallb P s = true -> forallb Q s = true.
Proof.
  intros HPQ. rewrite !forallb_forall. intros HP c Hc. apply HPQ, HP, Hc.
Qed.

Lemma forallb_prefix (P : N -> bool) a b :
  a `prefix_of` b -> forallb P b = true -> forallb P a = true.
Proof. intros [k ->]. rewrite forallb_app. by intros [? _]%andb_true_iff. Qed.

Lemma forallb_suffix (P : N -> bool) a b :
  a `suffix_of` b -> forallb P b = true -> forallb P a = true.
Proof. intros [k ->]. rewrite forallb_app. by intros [_ ?]%andb_true_iff. Qed.

Lemma spaced_prefix a b : a `prefix_of` b -> spaced b = true -> spaced a = true.
Proof. intros [k ->] Hs. by destruct (spaced_app _ _ Hs). Qed.

Lemma spaced_suffix a b : a `suffix_of` b -> spaced b = true -> spaced a = true.
Proof. intros [k ->] Hs. by destruct (spaced_app _ _ Hs). Qed.

Lemma replaceChars_avoid avoided cs r s :
  forallb (fun c => negb (mem c (avoided ++ cs))) r = true ->
  forallb (fun c => negb (mem c avoided)) s = true ->
  forallb (fun c => negb (mem c (avoided ++ cs))) (replaceChars cs r s) = true.
Proof.
  intros Hr Hs. apply replaceChars_forallb; [exact Hr|].
  revert Hs. apply forallb_impl. intros c Hc. rewrite mem_app.
  apply negb_true_iff in Hc. rewrite Hc. simpl. by destruct (mem c cs).
Qed.

Lemma replaceTypography_plain s : forallb plain (replaceTypography s) = true.
Proof.
  unfold replaceTypography.
  apply (replaceChars_avoid [160; 8230; 8220; 8221; 8216; 8217; 8222]%N [8218]%N);
    [reflexivity|].
  apply (replaceChars_avoid [160; 8230; 8220; 8221; 8216; 8217]%N [8222]%N);
    [reflexivity|].
  apply (replaceChars_avoid [160; 8230; 8220; 8221]%N [8216; 8217]%N); [reflexivity|].
  apply (replaceChars_avoid [160; 8230]%N [8220; 8221]%N); [reflexivity|].
  apply (replaceChars_avoid [160]%N [8230]%N); [reflexivity|].
  apply (replaceChars_avoid [] [160]%N); [reflexivity|].
  induction s; simpl; auto.
Qed.

Lemma collapse_from_forallb (P : N -> bool) b s :
  P 32%N = true -> forallb P s = true -> forallb P (collapse_from b s) = true.
Proof.
  intros H32. revert b. induction s as [|c s IH]; intros b; simpl; [reflexivity|].
  intros [Hc Hs]%andb_true_iff.
  destruct (is_ws c); [destruct b|]; simpl; rewrite ?H32, ?Hc, IH; auto.
Qed.

Lemma trim_prefix_suffix s : exists u, trim s `prefix_of` u /\ u `suffix_of` s.
Proof.
  exists (trimStart s). split; [apply dropWhileEnd_prefix | apply dropWhile_suffix].
Qed.

Lemma cleanSearchText_normalForm s : normalForm (cleanSearchText s).
Proof.
  unfold cleanSearchText.
  set (c := collapseSpaces _).
  assert (Hp : forallb plain c = true).
  { apply collapse_from_forallb; [reflexivity | apply replaceTypography_plain]. }
  assert (Hs : spaced c = true) by apply collapse_from_spaced.
  set (u := stripFinalPeriod _).
  assert (Hu : forallb plain u = true /\ spaced u = true).
  { split.
    - eapply forallb_prefix; [apply stripFinalPeriod_prefix|].
      eapply forallb_prefix; [apply dropWhileEnd_prefix|].
      eapply forallb_suffix; [apply dropWhile_suffix | exact Hp].
    - eapply spaced_prefix; [apply stripFinalPeriod_prefix|].
      eapply spaced_prefix; [apply dropWhileEnd_prefix|].
      eapply spaced_suffix; [apply dropWhile_suffix | exact Hs]. }
  destruct Hu as [Hup Hus].
  destruct (trim_prefix_suffix u) as (v & Hv1 & Hv2).
  split.
  - eapply forallb_prefix; [exact Hv1|]. eapply forallb_suffix; eauto.
  - eapply spaced_prefix; [exact Hv1|]. eapply spaced_suffix; eauto.
  - apply trim_noLead.
  - apply trim_noTrail.
Qed.

Lemma plain_head (t : jsstring) :
  forallb plain t = true -> noLead (fun c => negb (plain c)) t.
Proof.
  destruct t as [|c t]; simpl; [auto|].
  intros [Hc _]%andb_true_iff. by rewrite Hc.
Qed.

Lemma forallb_rev (P : N -> bool) t : forallb P t = true -> forallb P (rev t) = true.
Proof.
  rewrite !forallb_forall. intros HP c Hc. apply HP. by apply in_rev.
Qed.

Lemma plain_not_quoteLike c :
  plain c = true -> mem c [34; 39]%N = false -> isQuoteLike c = false.
Proof.
  unfold plain, isQuoteLike, typographic, mem. simpl.
  intros Hp Hq. apply negb_true_iff in Hp.
  repeat (apply orb_false_iff in Hp as [? Hp]).
  repeat (apply orb_false_iff in Hq as [? Hq]).
  repeat (apply orb_false_iff; split); assumption.
Qed.

Lemma plain_not_in c cs :
  plain c = true -> forallb (fun x => mem x typographic) cs = true -> mem c cs = false.
Proof.
  intros Hp. induction cs as [|x cs IH]; [reflexivity|].
  cbn [forallb]. intros [Hx Hcs]%andb_true_iff.
  unfold mem in *. cbn [existsb]. rewrite (IH Hcs), orb_false_r.
  apply N.eqb_neq. intros ->. unfold plain, mem in Hp. by rewrite Hx in Hp.
Qed.

Lemma normalForm_fixed t :
  normalForm t -> settled t = true -> cleanSearchText t = t.
Proof.
  intros [Hp Hs Hl Ht] Hset.
  apply andb_true_iff in Hset as [Hset Hend].
  apply andb_true_iff in Hset as [Hent Hstart].
  unfold cleanSearchText.
  rewrite (trim_fixed t Hl Ht).
  assert (He : replaceEntities t = t).
  { unfold replaceEntities, entityMap in *. cbn [forallb fst] in Hent. cbn [fold_left fst snd].
    repeat (apply andb_true_iff in Hent as [?%negb_true_iff Hent]).
    repeat (rewrite (replaceAll_absent _ _ t) by assumption). reflexivity. }
  rewrite He.
  assert (Hty : replaceTypography t = t).
  { unfold replaceTypography.
    repeat (rewrite (replaceChars_absent _ _ t);
            [|revert Hp; apply forallb_impl; intros c Hc; apply negb_true_iff;
              by apply plain_not_in]).
    reflexivity. }
  rewrite Hty.
  unfold collapseSpaces. rewrite (proj1 (collapse_from_fixed t Hs)).
  rewrite dropWhile_fixed.
  2:{ destruct t as [|c t]; simpl; [exact I|].
      simpl in Hp. apply andb_true_iff in Hp as [Hc _].
      apply plain_not_quoteLike; [exact Hc|]. by apply negb_true_iff in Hstart. }
  assert (Hlast : match rev t with c :: _ => plain c = true /\ mem c [34; 39; 46]%N = false
                                 | [] => True end).
  { pose proof (forallb_rev _ _ Hp) as Hr.
    destruct (rev t) as [|c r]; [exact I|]. simpl in Hr.
    apply andb_true_iff in Hr as [Hc _]. split; [exact Hc|]. by apply negb_true_iff in Hend. }
  rewrite dropWhileEnd_fixed.
  2:{ unfold noTrail. destruct (rev t) as [|c r]; simpl; [exact I|].
      destruct Hlast as [Hc Hm]. apply plain_not_quoteLike; [exact Hc|].
      unfold mem in *. simpl in *. repeat (apply orb_false_iff in Hm as [? Hm]).
      repeat (apply orb_false_iff; split); auto. }
  assert (Hper : stripFinalPeriod t = t).
  { unfold stripFinalPeriod. destruct (rev t) as [|c r]; [reflexivity|].
    destruct Hlast as [_ Hm]. unfold mem in Hm. simpl in Hm.
    destruct (c =? 46)%N; [|reflexivity].
    rewrite !orb_true_r in Hm. discriminate. }
  rewrite Hper. by apply trim_fixed.
Qed.

(** *** A pass that changes nothing finds nothing to do *)

Lemma replaceAll_from_forallb (P : N -> bool) skip p r s :
  forallb P r = true -> forallb P s = true ->
  forallb P (replaceAll_from skip p r s) = true.
Proof.
  intros Hr. revert skip. induction s as [|c s IH]; intros skip; cbn [replaceAll_from];
    [done|].
  cbn [forallb]. intros [Hc Hs]%andb_true_iff.
  destruct skip; [|by apply IH].
  destruct (startsWith p (c :: s)).
  - rewrite forallb_app, Hr. by apply IH.
  - cbn [forallb]. rewrite Hc. by apply IH.
Qed.

Lemma replaceAll_plain p r s :
  forallb plain r = true -> forallb plain s = true ->
  forallb plain (replaceAll p r s) = true.
Proof.
  intros Hr Hs. unfold replaceAll. destruct p; [|by apply replaceAll_from_forallb].
  rewrite forallb_app, Hr. cbn [andb].
  induction s as [|c s IH]; [done|].
  cbn [forallb] in Hs. apply andb_true_iff in Hs as [Hc Hs].
  cbn [flat_map app forallb]. rewrite Hc, forallb_app, Hr. by apply IH.
Qed.

Lemma replaceAll_from_length skip p r s :
  length r <= length p -> skip <= length s ->
  length (replaceAll_from skip p r s) + skip <= length s.
Proof.
  intros Hr. revert skip. induction s as [|c s IH]; intros skip Hskip; cbn [replaceAll_from].
  - cbn in *. lia.
  - destruct skip as [|k].
    + destruct (startsWith p (c :: s)) eqn:E.
      * destruct (startsWith_app _ _ E) as (rest & Hrest).
        apply (f_equal length) in Hrest. rewrite length_app in Hrest. cbn in Hrest.
        rewrite length_app. cbn [length].
        assert (Hp : length p - 1 <= length s) by lia.
        specialize (IH _ Hp). lia.
      * cbn [length]. specialize (IH 0 ltac:(lia)). lia.
    + cbn [length] in *. specialize (IH k ltac:(lia)). lia.
Qed.

Lemma replaceAll_from_shorter p r s :
  length r < length p -> includes s p = true ->
  length (replaceAll_from 0 p r s) < length s.
Proof.
  intros Hr. induction s as [|c s IH]; cbn [includes replaceAll_from].
  - rewrite orb_false_r. destruct p; [cbn in Hr; lia | discriminate].
  - destruct (startsWith p (c :: s)) eqn:E.
    + intros _. destruct (startsWith_app _ _ E) as (rest & Hrest).
      apply (f_equal length) in Hrest. rewrite length_app in Hrest. cbn in Hrest.
      rewrite length_app. cbn [length].
      pose proof (replaceAll_from_length (length p - 1) p r s ltac:(lia) ltac:(lia)). lia.
    + cbn [orb length]. intros Hinc. specialize (IH Hinc). lia.
Qed.

(** Replacing an entity by its shorter character either finds none or
    shortens the text. *)
Lemma replaceAll_length p r s :
  length r < length p ->
  length (replaceAll p r s) <= length s
  /\ (length (replaceAll p r s) = length s -> includes s p = false).
Proof.
  intros Hr. destruct p as [|x p]; [cbn in Hr; lia|].
  unfold replaceAll. split.
  - pose proof (replaceAll_from_length 0 (x :: p) r s ltac:(lia) ltac:(lia)). lia.
  - intros Hlen. destruct (includes s (x :: p)) eqn:E; [|reflexivity].
    pose proof (replaceAll_from_shorter (x :: p) r s Hr E). lia.
Qed.

Lemma replaceEntities_length t :
  length (replaceEntities t) <= length t
  /\ (length (replaceEntities t) = length t ->
      forallb (fun er => negb (includes t (fst er))) entityMap = true).
Proof.
  unfold replaceEntities.
  assert (Hshort : Forall (fun er => length (snd er) < length (fst er)) entityMap).
  { unfold entityMap. repeat constructor; cbn; lia. }
  revert t. induction Hshort as [|[p r] es Hpr _ IH]; intros t; cbn [fold_left forallb];
    [by split|].
  cbn [fst snd] in *.
  destruct (replaceAll_length p r t Hpr) as [Hle Heq].
  destruct (IH (replaceAll p r t)) as [Hle' Heq'].
  split; [by etransitivity|]. intros Hlen.
  assert (Hsame : length (replaceAll p r t) = length t).
  { apply Nat.le_antisymm; [exact Hle | rewrite <- Hlen; exact Hle']. }
  specialize (Heq Hsame). rewrite Heq. cbn [negb andb].
  rewrite (replaceAll_absent p r t Heq) in Heq'. apply Heq'.
  by rewrite (replaceAll_absent p r t Heq) in Hlen.
Qed.

Lemma collapse_from_length b s : length (collapse_from b s) <= length s.
Proof.
  revert b. induction s as [|c s IH]; intros b; cbn [collapse_from]; [done|].
  destruct (is_ws c); [destruct b|]; cbn [length];
    [specialize (IH true)|specialize (IH true)|specialize (IH false)]; lia.
Qed.

Lemma noLead_of_fixed p t : dropWhile p t = t -> noLead p t.
Proof. intros E. rewrite <- E. apply dropWhile_noLead. Qed.

Lemma noTrail_of_fixed p t : dropWhileEnd p t = t -> noTrail p t.
Proof. intros E. rewrite <- E. apply dropWhileEnd_noTrail. Qed.

Lemma stripFinalPeriod_fixed t :
  stripFinalPeriod t = t -> match rev t with c :: _ => (c =? 46)%N = false | [] => True end.
Proof.
  unfold stripFinalPeriod. destruct (rev t) as [|c r] eqn:E; [done|].
  destruct (c =? 46)%N; [|done]. intros Hr.
  apply (f_equal (@rev N)) in Hr. rewrite rev_involutive, E in Hr.
  apply (f_equal length) in Hr. cbn in Hr. lia.
Qed.

Lemma normalForm_settled t :
  normalForm t -> cleanSearchText t = t -> settled t = true.
Proof.
  intros [Hp Hs Hl Ht] Hfix. unfold cleanSearchText in Hfix.
  rewrite (trim_fixed t Hl Ht) in Hfix.
  set (e := replaceEntities t) in *.
  set (y := replaceTypography e) in *.
  set (c := collapseSpaces y) in *.
  set (d1 := dropWhile isQuoteLike c) in *.
  set (d2 := dropWhileEnd isQuoteLike d1) in *.
  set (d3 := stripFinalPeriod d2) in *.
  (* every step from the entities on keeps or shortens the text *)
  destruct (replaceEntities_length t) as [He Hent]. fold e in He, Hent.
  assert (Hplain_e : forallb plain e = true).
  { unfold e, replaceEntities, entityMap. cbn [fold_left fst snd].
    repeat (apply replaceAll_plain; [reflexivity|]). exact Hp. }
  assert (Hy : y = e).
  { unfold y, replaceTypography.
    repeat (rewrite (replaceChars_absent _ _ e);
            [|revert Hplain_e; apply forallb_impl; intros x Hx; apply negb_true_iff;
              by apply plain_not_in]).
    reflexivity. }
  pose proof (collapse_from_length false y) as Hc. fold (collapseSpaces y) in Hc. fold c in Hc.
  pose proof (suffix_length _ _ (dropWhile_suffix isQuoteLike c)) as Hd1. fold d1 in Hd1.
  pose proof (prefix_length _ _ (dropWhileEnd_prefix isQuoteLike d1)) as Hd2. fold d2 in Hd2.
  pose proof (prefix_length _ _ (stripFinalPeriod_prefix d2)) as Hd3. fold d3 in Hd3.
  destruct (trim_prefix_suffix d3) as (u & Hu1 & Hu2).
  pose proof (prefix_length _ _ Hu1) as Hd4. pose proof (suffix_length _ _ Hu2) as Hd5.
  rewrite Hfix in Hd4. rewrite Hy in Hc.
  (* so every step keeps it *)
  assert (Ee : e = t).
  { specialize (Hent ltac:(lia)). unfold e, replaceEntities, entityMap in *.
    cbn [forallb fst] in Hent. cbn [fold_left fst snd].
    repeat (apply andb_true_iff in Hent as [?%negb_true_iff Hent]).
    repeat (rewrite (replaceAll_absent _ _ t) by assumption). reflexivity. }
  assert (Ec : c = t).
  { unfold c. rewrite Hy, Ee. unfold collapseSpaces. apply (collapse_from_fixed t Hs). }
  assert (Ed1 : d1 = t).
  { transitivity c; [|exact Ec].
    apply suffix_length_eq; [apply dropWhile_suffix|]. fold d1. lia. }
  assert (Ed2 : d2 = t).
  { transitivity d1; [|exact Ed1].
    apply prefix_length_eq; [apply dropWhileEnd_prefix|]. fold d2. lia. }
  assert (Ed3 : d3 = t).
  { transitivity d2; [|exact Ed2].
    apply prefix_length_eq; [apply stripFinalPeriod_prefix|]. fold d3. lia. }
  unfold settled. rewrite (Hent ltac:(lia)). cbn [andb].
  assert (Hhead : noLead isQuoteLike t).
  { apply noLead_of_fixed. unfold d1 in Ed1. by rewrite Ec in Ed1. }
  assert (Hlast : noTrail isQuoteLike t).
  { apply noTrail_of_fixed. unfold d2 in Ed2. by rewrite Ed1 in Ed2. }
  assert (Hper : match rev t with x :: _ => (x =? 46)%N = false | [] => True end).
  { apply stripFinalPeriod_fixed. unfold d3 in Ed3. by rewrite Ed2 in Ed3. }
  apply andb_true_iff. split; apply negb_true_iff.
  - destruct t as [|x t']; [reflexivity|]. cbn in Hhead.
    unfold isQuoteLike, mem in *. cbn in *.
    repeat (apply orb_false_iff in Hhead as [? Hhead]).
    repeat (apply orb_false_iff; split); auto.
  - unfold noTrail in Hlast. destruct (rev t) as [|x r]; [reflexivity|]. cbn in Hlast.
    unfold isQuoteLike, mem in *. cbn in *.
    repeat (apply orb_false_iff in Hlast as [? Hlast]).
    repeat (apply orb_false_iff; split); auto.
Qed.

End NormalizerFacts.

(** C3, as amended.  The normalizer is idempotent exactly on the inputs
    whose normalized form is settled: normalizing [cleanSearchText s]
    again changes nothing if, and only if, it holds no entity of the
    table, neither starts nor ends with a straight quote and does not
    end with a period. *)
Theorem cleanSearchText_idempotent_iff_settled (s : jsstring) :
  cleanSearchText (cleanSearchText s) = cleanSearchText s
  <-> settled (cleanSearchText s) = true.
Proof.
  split.
  - apply normalForm_settled, cleanSearchText_normalForm.
  - apply normalForm_fixed, cleanSearchText_normalForm.
Qed.

Lemma cleanSearchText_idempotent_iff_settled_witness :
  settled (cleanSearchText (str "  &ldquo;Tom &amp;  Jerry.&rdquo; ")) = true
  /\ cleanSearchText (cleanSearchText (str "  &ldquo;Tom &amp;  Jerry.&rdquo; "))
     = cleanSearchText (str "  &ldquo;Tom &amp;  Jerry.&rdquo; ").
Proof.
  split; [vm_compute; reflexivity|].
  apply (proj2 (cleanSearchText_idempotent_iff_settled
                  (str "  &ldquo;Tom &amp;  Jerry.&rdquo; "))).
  vm_compute. reflexivity.
Defined.

(** C3, as stated, fails: one pass strips one final period, so a text
    ending in two periods loses another one in a second pass. *)
Lemma cleanSearchText_not_idempotent :
  cleanSearchText (cleanSearchText (str "a..")) <> cleanSearchText (str "a..").
Proof. vm_compute. discriminate. Qed.

(** ** Sorting and selection *)

Section SortFacts.
Context {A : Type} (leb : A -> A -> bool).

Lemma insertDesc_perm x l : Permutation (insertDesc leb x l) (x :: l).
Proof.
  induction l as [|y l IH]; simpl; [reflexivity|].
  destruct (leb y x); [reflexivity|].
  rewrite IH. apply perm_swap.
Qed.

Lemma sortDesc_perm l : Permutation (sortDesc leb l) l.
Proof.
  induction l as [|x l IH]; simpl; [reflexivity|].
  rewrite insertDesc_perm. by constructor.
Qed.

Lemma In_sortDesc x l : In x (sortDesc leb l) <-> In x l.
Proof.
  split; apply Permutation_in; [|symmetry]; apply sortDesc_perm.
Qed.

Lemma length_sortDesc l : length (sortDesc leb l) = length l.
Proof. apply Permutation_length, sortDesc_perm. Qed.

Local Abbreviation notBelow := (notBelow leb).
Local Abbreviation firstMax := (firstMax leb).

Hypothesis leb_total : forall x y, leb x y = true \/ leb y x = true.
Hypothesis leb_trans : forall x y z, leb x y = true -> leb y z = true -> leb x z = true.

Lemma insertDesc_sorted x l :
  StronglySorted notBelow l -> StronglySorted notBelow (insertDesc leb x l).
Proof.
  induction l as [|y l IH]; simpl; intros Hs.
  - repeat constructor.
  - apply StronglySorted_inv in Hs as [Hl Hy].
    destruct (leb y x) eqn:E.
    + constructor; [by constructor|]. constructor; [exact E|].
      revert Hy. apply List.Forall_impl. intros z Hz. unfold notBelow in *. eauto.
    + constructor; [by apply IH|].
      rewrite (insertDesc_perm x l). constructor; [|exact Hy].
      unfold notBelow. destruct (leb_total x y); congruence.
Qed.

Lemma sortDesc_sorted l : StronglySorted notBelow (sortDesc leb l).
Proof.
  induction l as [|x l IH]; simpl; [constructor | by apply insertDesc_sorted].
Qed.


Lemma insertDesc_front x l :
  (forall z, In z l -> leb z x = true) -> insertDesc leb x l = x :: l.
Proof.
  destruct l as [|y l]; simpl; [done|]. intros Hl. by rewrite Hl by by left.
Qed.

Lemma filter_insertDesc f x l :
  StronglySorted notBelow l ->
  List.filter f (insertDesc leb x l)
  = if f x then insertDesc leb x (List.filter f l) else List.filter f l.
Proof.
  induction l as [|y l IH]; simpl; intros Hs; [by destruct (f x)|].
  apply StronglySorted_inv in Hs as [Hl Hy].
  destruct (leb y x) eqn:E; simpl.
  - destruct (f x) eqn:Ex; [|reflexivity].
    destruct (f y) eqn:Ey; simpl; [by rewrite E|].
    symmetry. apply insertDesc_front. intros z [Hz _]%filter_In.
    rewrite List.Forall_forall in Hy. unfold notBelow in Hy. eauto.
  - rewrite (IH Hl). destruct (f x), (f y); simpl; by rewrite ?E.
Qed.

Lemma sortDesc_level l :
  (forall x y, In x l -> In y l -> leb x y = true) -> sortDesc leb l = l.
Proof.
  induction l as [|x l IH]; intros Hl; cbn [sortDesc fold_right]; [reflexivity|].
  fold (sortDesc leb l). rewrite IH.
  - apply insertDesc_front. intros z Hz. apply Hl; [by right | by left].
  - intros a b Ha Hb. apply Hl; by right.
Qed.

(** Filtering a sorted list is sorting the filtered list: the sort is stable. *)
Lemma filter_sortDesc f l :
  List.filter f (sortDesc leb l) = sortDesc leb (List.filter f l).
Proof.
  induction l as [|x l IH]; simpl; [reflexivity|].
  rewrite filter_insertDesc by apply sortDesc_sorted.
  rewrite IH. by destruct (f x).
Qed.

Lemma head_sortDesc l x : head (sortDesc leb l) = Some x -> firstMax l x.
Proof.
  revert x. induction l as [|a l IH]; simpl; intros x; [discriminate|].
  destruct (sortDesc leb l) as [|h t] eqn:Es; simpl.
  - intros [= <-]. apply (f_equal length) in Es. rewrite length_sortDesc in Es.
    destruct l; [|discriminate]. exists [], []. by repeat split.
  - destruct (IH h eq_refl) as (pre & post & -> & Hpre & Hpost).
    destruct (leb h a) eqn:E; simpl; intros [= <-].
    + exists [], (pre ++ h :: post). repeat split; [done|].
      intros y [Hy|[<-|Hy]]%in_app_or; [|exact E|by eauto].
      destruct (leb_total y h) as [Hyh|Hhy]; [by eauto|].
      by rewrite (Hpre y Hy) in Hhy.
    + exists (a :: pre), post. repeat split; [|exact Hpost].
      intros y [<-|Hy]; [exact E | by apply Hpre].
Qed.

End SortFacts.

Lemma head_In {A} (l : list A) x : head l = Some x -> In x l.
Proof. destruct l; simpl; [discriminate|]. intros [= ->]. by left. Qed.

Lemma filter_head_In {A} (f : A -> bool) l x t :
  List.filter f l = x :: t -> In x l /\ f x = true.
Proof.
  intros E. apply filter_In. rewrite E. by left.
Qed.

Section RankFacts.
Context `{Runtime}.

Lemma findBestMatch_In l m : findBestMatch l = Some m -> In m l.
Proof.
  unfold findBestMatch. destruct l as [|b l]; [discriminate|].
  destruct (List.filter isPureText (b :: l)) as [|x t] eqn:E1.
  2:{ intros [= <-]. by destruct (filter_head_In _ _ _ _ E1). }
  destruct (List.filter isContentAttribute (b :: l)) as [|x t] eqn:E2.
  2:{ intros [= <-]. by destruct (filter_head_In _ _ _ _ E2). }
  destruct (List.filter isMixed (b :: l)) as [|x t] eqn:E3.
  2:{ intros [= <-]. by destruct (filter_head_In _ _ _ _ E3). }
  destruct (Nat.ltb _ _).
  - destruct (List.filter isHighConfidence (b :: l)) as [|x t] eqn:E4; [discriminate|].
    intros [= <-]. by destruct (filter_head_In _ _ _ _ E4).
  - intros [= <-]. by left.
Qed.

Lemma findBestMatch_None l : findBestMatch l = None -> l = [].
Proof.
  unfold findBestMatch. destruct l as [|b l]; [reflexivity|].
  destruct (List.filter isPureText (b :: l)); [|discriminate].
  destruct (List.filter isContentAttribute (b :: l)); [|discriminate].
  destruct (List.filter isMixed (b :: l)); [|discriminate].
  destruct (Nat.ltb _ _) eqn:E; [|discriminate].
  destruct (List.filter isHighConfidence (b :: l)); [|discriminate].
  simpl in E. discriminate.
Qed.

Lemma In_validMatches tp fs ms ctx sm :
  In sm (validMatches tp fs ms ctx) <->
  exists m, In m ms /\ sm = scoreOf ctx m
            /\ isValid (validateExactContext tp fs m ctx (Nat.eqb (length ms) 1)) = true.
Proof.
  unfold validMatches. rewrite in_map_iff. split.
  - intros (m & <- & Hm). apply filter_In in Hm as [Hm Hv]. by exists m.
  - intros (m & Hm & -> & Hv). exists m. split; [reflexivity|]. by apply filter_In.
Qed.

Lemma In_scoreMatchesWithContext tp fs ms ctx sm :
  In sm (scoreMatchesWithContext tp fs ms ctx) <->
  exists m, In m ms /\ sm = scoreOf ctx m
            /\ isValid (validateExactContext tp fs m ctx (Nat.eqb (length ms) 1)) = true.
Proof.
  unfold scoreMatchesWithContext. rewrite In_sortDesc. apply In_validMatches.
Qed.

(** The score of a candidate takes one of finitely many values; the
    confidence is computed in each case. *)
Ltac score_cases ctx m :=
  unfold scoreOf, matchScore; cbn [confidence score];
  destruct (hasDomContext ctx);
  destruct (endsWith (str ".tsx") (filePath m) || endsWith (str ".jsx") (filePath m));
  destruct (includes (filePath m) (str ".map.json")
            || includes (filePath m) (str "hero-page-element-id"));
  destruct (includes (filePath m) (str "/components/")
            || includes (filePath m) (str "\components\"));
  destruct (isExactMatch m);
  destruct (isTextContentMatchFlag m && negb (isAttributeMatchFlag m)).

Lemma confidence_range ctx m :
  (0 <= confidence (scoreOf ctx m) <= 1)%Q.
Proof.
  score_cases ctx m; split; apply Qle_bool_imp_le; reflexivity.
Qed.

Lemma confidence_formula ctx m :
  confidence (scoreOf ctx m) = qmin (score (scoreOf ctx m) / 4) 1.
Proof. reflexivity. Qed.

Lemma score_at_least_one ctx m : (1 <= score (scoreOf ctx m))%Q.
Proof. score_cases ctx m; apply Qle_bool_imp_le; reflexivity. Qed.

(** An exact match scores at least 5, so its confidence is capped. *)
Lemma confidence_exact ctx m :
  isExactMatch m = true -> confidence (scoreOf ctx m) = 1%Q.
Proof.
  intros E. unfold scoreOf, matchScore. cbn [confidence]. rewrite E.
  destruct (hasDomContext ctx);
  destruct (endsWith (str ".tsx") (filePath m) || endsWith (str ".jsx") (filePath m));
  destruct (includes (filePath m) (str ".map.json")
            || includes (filePath m) (str "hero-page-element-id"));
  destruct (includes (filePath m) (str "/components/")
            || includes (filePath m) (str "\components\"));
  destruct (isTextContentMatchFlag m && negb (isAttributeMatchFlag m)); reflexivity.
Qed.

End RankFacts.

(** ** Lines of a file *)

Section LineFacts.
Variable c : N.

Lemma split_nonempty s : split c s <> [].
Proof.
  destruct s as [|x s]; simpl; [discriminate|].
  destruct (x =? c)%N; [discriminate|]. destruct (split c s); discriminate.
Qed.





Lemma join_split s : join c (split c s) = s.
Proof.
  induction s as [|x s IH]; simpl; [reflexivity|].
  pose proof (split_nonempty s) as Hne.
  destruct (x =? c)%N eqn:E.
  - apply N.eqb_eq in E. subst x.
    destruct (split c s) as [|l ls]; [done|]. simpl in *. by rewrite IH.
  - destruct (split c s) as [|l ls]; [done|].
    destruct ls; simpl in *; by rewrite <- IH.
Qed.

End LineFacts.

(** ** What a replacement is made of

    Whatever a regex captures and whatever a replacement puts together
    is made of code units of the input and of the replacement text: a
    property of code units that holds of those holds of the result. *)

Section MadeOf.
Variable P : N -> Prop.

Local Abbreviation all_P := (Forall P).
Local Abbreviation capturesOf := (capturesOf P).
Local Abbreviation keeps := (keeps P).

Lemma capturesOf_empty : capturesOf ∅.
Proof. intros n w Hw. by rewrite lookup_empty in Hw. Qed.

Lemma capturesOf_insert caps n w :
  capturesOf caps -> all_P w -> capturesOf (<[n := w]> caps).
Proof.
  intros Hc Hw n' w' Hl. destruct (decide (n = n')) as [->|Hne].
  - rewrite lookup_insert_eq in Hl. by injection Hl as <-.
  - rewrite lookup_insert_ne in Hl by done. by eapply Hc.
Qed.

Lemma all_P_take n (s : jsstring) : all_P s -> all_P (take n s).
Proof. apply Forall_take. Qed.

Lemma all_P_drop n (s : jsstring) : all_P s -> all_P (drop n s).
Proof. apply Forall_drop. Qed.

Lemma all_P_substring a b (s : jsstring) : all_P s -> all_P (substring a b s).
Proof. intros Hs. unfold substring. by apply all_P_take, all_P_drop. Qed.

Lemma starLoop_keeps step greedy k fuel :
  (forall k', keeps k' -> keeps (step k')) -> keeps k ->
  keeps (starLoop step greedy k fuel).
Proof.
  intros Hstep Hk. induction fuel as [|fuel IH]; intros caps i s res Hcaps Hs;
    cbn [starLoop]; [by apply Hk|].
  set (k' := fun caps' i' s' => if Nat.eqb i' i then None else _).
  assert (Hk' : keeps k').
  { intros caps' i' s' res' Hc' Hs'. unfold k'.
    destruct (Nat.eqb i' i); [discriminate | by apply IH]. }
  destruct greedy.
  - destruct (step k' caps i s) as [m|] eqn:E.
    + intros [= <-]. by eapply (Hstep k' Hk').
    + by apply Hk.
  - destruct (k caps i s) as [m|] eqn:E.
    + intros [= <-]. by eapply Hk.
    + by apply (Hstep k' Hk').
Qed.

Lemma rmatch_keeps r : forall k, keeps k -> keeps (rmatch r k).
Proof.
  induction r as [|p|a IHa b IHb|a IHa b IHb|g a IHa|n a IHa|n| |];
    intros k Hk caps i s res Hcaps Hs; cbn [rmatch].
  - by apply Hk.
  - destruct s as [|c s]; [discriminate|]. destruct (p c); [|discriminate].
    apply Hk; [exact Hcaps|]. by apply Forall_cons in Hs as [_ ?].
  - apply (IHa (fun caps' i' s' => rmatch b k caps' i' s')); [|exact Hcaps|exact Hs].
    intros caps' i' s' res' Hc' Hs'. by apply IHb.
  - destruct (rmatch a k caps i s) as [m|] eqn:E.
    + intros [= <-]. by eapply IHa.
    + by apply IHb.
  - by apply starLoop_keeps.
  - apply (IHa (fun caps' i' s' => k (<[n := take (i' - i) s]> caps') i' s'));
      [|exact Hcaps|exact Hs].
    intros caps' i' s' res' Hc' Hs'. apply Hk; [|exact Hs'].
    apply capturesOf_insert; [exact Hc' | by apply all_P_take].
  - destruct (startsWith _ s); [|discriminate].
    apply Hk; [exact Hcaps | by apply all_P_drop].
  - destruct (Nat.eqb i 0); [by apply Hk | discriminate].
  - destruct s; [by apply Hk | discriminate].
Qed.

Lemma matchAt_captures r i s m :
  all_P s -> matchAt r i s = Some m -> capturesOf (f_caps m).
Proof.
  intros Hs. unfold matchAt.
  apply (rmatch_keeps r); [|apply capturesOf_empty|exact Hs].
  intros caps j s' res Hc _ [= <-]. exact Hc.
Qed.

Lemma search_captures r i s m :
  all_P s -> search r i s = Some m -> capturesOf (f_caps m).
Proof.
  revert i. induction s as [|c s IH]; intros i Hs; cbn [search].
  - destruct (matchAt r i []) eqn:E; [|discriminate].
    intros [= <-]. by eapply matchAt_captures.
  - destruct (matchAt r i (c :: s)) eqn:E.
    + intros [= <-]. by eapply matchAt_captures.
    + apply IH. by apply Forall_cons in Hs as [_ ?].
Qed.

Lemma matchAll_from_captures fuel r i s :
  all_P s -> Forall (fun m => capturesOf (f_caps m)) (matchAll_from fuel r i s).
Proof.
  revert i s. induction fuel as [|fuel IH]; intros i s Hs; cbn [matchAll_from];
    [constructor|].
  destruct (search r i s) as [m|] eqn:E; [|constructor].
  constructor; [by eapply search_captures|].
  destruct (Nat.ltb _ _); [constructor|]. by apply IH, all_P_drop.
Qed.

Lemma matchAll_captures r s m :
  all_P s -> In m (matchAll r s) -> capturesOf (f_caps m).
Proof.
  intros Hs Hm. pose proof (matchAll_from_captures (S (length s)) r 0 s Hs) as Hall.
  rewrite List.Forall_forall in Hall. by apply Hall.
Qed.

Lemma group_made n m : capturesOf (f_caps m) -> all_P (group n m).
Proof.
  intros Hc. unfold group. destruct (f_caps m !! n) as [w|] eqn:E; cbn; [by eapply Hc|].
  constructor.
Qed.

Lemma stitch_made s pos ms f :
  all_P s -> (forall m, In m ms -> all_P (f m)) -> all_P (stitch s pos ms f).
Proof.
  intros Hs. revert pos. induction ms as [|m ms IH]; intros pos Hf; cbn [stitch].
  - by apply all_P_drop.
  - apply Forall_app. split; [by apply all_P_substring|].
    apply Forall_app. split; [apply Hf; by left|].
    apply IH. intros m' Hm'. apply Hf. by right.
Qed.

Lemma replaceAllRe_made r f s :
  all_P s -> (forall m, In m (matchAll r s) -> all_P (f m)) -> all_P (replaceAllRe r f s).
Proof. intros Hs Hf. unfold replaceAllRe. by apply stitch_made. Qed.

Lemma getSubstitution_made matched before after template :
  all_P matched -> all_P before -> all_P after -> all_P template ->
  all_P (getSubstitution matched before after template).
Proof.
  intros Hm Hb Ha.
  assert (Hind : forall n template, length template <= n -> all_P template ->
                   all_P (getSubstitution matched before after template)).
  { clear template. induction n as [|n IH]; intros [|c t] Hlen Ht; cbn [getSubstitution];
      try constructor; [cbn in Hlen; lia|].
    apply Forall_cons in Ht as [Hc Ht]. cbn in Hlen.
    assert (Hrec : all_P (getSubstitution matched before after t)) by (apply IH; [lia|done]).
    destruct (c =? 36)%N eqn:Ec; [|by constructor].
    apply N.eqb_eq in Ec. subst c.
    destruct t as [|d t']; [by repeat constructor|].
    apply Forall_cons in Ht as [Hd Ht']. cbn in Hlen.
    assert (Hrec' : all_P (getSubstitution matched before after t'))
      by (apply IH; [lia|done]).
    destruct (d =? 36)%N; [by constructor|].
    destruct (d =? 38)%N; [by apply Forall_app|].
    destruct (d =? 96)%N; [by apply Forall_app|].
    destruct (d =? 39)%N; [by apply Forall_app|].
    by constructor. }
  intros Ht. by apply (Hind (length template)).
Qed.

Lemma replaceAllLit_made p template s :
  all_P s -> all_P template -> all_P (replaceAllLit p template s).
Proof.
  intros Hs Ht. unfold replaceAllLit. apply replaceAllRe_made; [exact Hs|].
  intros m _. apply getSubstitution_made; [|by apply all_P_take|by apply all_P_drop|exact Ht].
  by apply all_P_substring.
Qed.

Lemma indexOf_found s p i : indexOf s p = Some i -> drop i s = p ++ drop (i + length p) s.
Proof.
  revert i. induction s as [|c s IH]; intros i; cbn [indexOf].
  - destruct (startsWith p []) eqn:E; [|discriminate]. intros [= <-].
    destruct p; [reflexivity | discriminate].
  - destruct (startsWith p (c :: s)) eqn:E.
    + intros [= <-]. destruct (startsWith_app _ _ E) as (rest & Hrest).
      rewrite Hrest. cbn [drop Nat.add]. by rewrite drop_app_length.
    + destruct (indexOf s p) as [j|] eqn:Ej; [|discriminate].
      intros [= <-]. cbn. by apply IH.
Qed.

Lemma replaceFirstStr_made p template s :
  all_P s -> all_P template -> all_P (replaceFirstStr p template s).
Proof.
  intros Hs Ht. unfold replaceFirstStr.
  destruct (indexOf s p) as [i|] eqn:E; [|exact Hs].
  apply Forall_app. split; [by apply all_P_take|].
  apply Forall_app. split; [|by apply all_P_drop].
  apply getSubstitution_made; [|by apply all_P_take|by apply all_P_drop|exact Ht].
  apply indexOf_found in E.
  assert (Hd : all_P (drop i s)) by by apply all_P_drop.
  rewrite E in Hd. by apply Forall_app in Hd as [? _].
Qed.

Hypothesis P_dq : P dq.

Lemma replaceJsonValue_made line oldText newText :
  all_P line -> all_P newText -> all_P (replaceJsonValue line oldText newText).
Proof.
  intros Hl Hn. unfold replaceJsonValue. apply replaceAllRe_made; [exact Hl|].
  intros m Hm. destruct (_ || _); [|by apply all_P_substring].
  apply Forall_app. split; [by repeat constructor|].
  apply Forall_app. split; [|by repeat constructor].
  apply replaceAllLit_made; [|exact Hn].
  apply group_made. exact (matchAll_captures _ _ _ Hl Hm).
Qed.

Lemma preserveEntityQuotesSimple_made line oldText newText :
  all_P line -> all_P newText -> all_P (preserveEntityQuotesSimple line oldText newText).
Proof.
  intros Hl Hn. unfold preserveEntityQuotesSimple. apply replaceAllRe_made; [exact Hl|].
  intros m Hm. pose proof (matchAll_captures _ _ _ Hl Hm) as Hc.
  destruct (_ || _); [|by apply all_P_substring].
  apply Forall_app. split; [by apply group_made|].
  apply Forall_app. split; [exact Hn | by apply group_made].
Qed.

Lemma rewriteRun_made oldText newText run result :
  all_P run -> all_P newText -> all_P result ->
  all_P (rewriteRun oldText newText run result).
Proof.
  intros Hr Hn Hres. unfold rewriteRun. destruct (includes run oldText); [|exact Hres].
  apply replaceFirstStr_made; [exact Hres|]. by apply replaceAllLit_made.
Qed.

Lemma exec_captures r s m : all_P s -> exec r s = Some m -> capturesOf (f_caps m).
Proof. apply search_captures. Qed.

(** The line the patcher returns is made of the line it was given, the
    new text and double quotes. *)
Lemma replaceTextContent_made line oldText newText :
  all_P line -> all_P newText -> all_P (replaceTextContent line oldText newText).
Proof.
  intros Hl Hn. unfold replaceTextContent.
  destruct (_ && _); [by apply replaceJsonValue_made|].
  destruct (includes line (str "&quot;")); [by apply preserveEntityQuotesSimple_made|].
  destruct (_ && _); [|by apply replaceAllLit_made].
  set (ms := matchAll textContentRegex line).
  assert (Hfold : forall ms' result,
            (forall m, In m ms' -> In m ms) -> all_P result ->
            all_P (fold_left (fun result m => rewriteRun oldText newText (group 1 m) result)
                     ms' result)).
  { induction ms' as [|m ms' IH]; intros result Hsub Hres; cbn [fold_left]; [exact Hres|].
    apply IH; [intros m' Hm'; apply Hsub; by right|].
    apply rewriteRun_made; [|exact Hn|exact Hres].
    apply group_made. apply (matchAll_captures textContentRegex line m Hl).
    apply Hsub. by left. }
  specialize (Hfold ms line (fun m Hm => Hm) Hl).
  set (r1 := fold_left _ ms line) in *.
  assert (Hr2 : all_P (match exec beforeFirstTagRe line with
                       | Some m => rewriteRun oldText newText (group 1 m) r1
                       | None => r1
                       end)).
  { destruct (exec beforeFirstTagRe line) as [m|] eqn:E; [|exact Hfold].
    apply rewriteRun_made; [|exact Hn|exact Hfold].
    apply group_made. exact (exec_captures _ _ _ Hl E). }
  destruct (exec afterLastTagRe line) as [m|] eqn:E; [|exact Hr2].
  apply rewriteRun_made; [|exact Hn|exact Hr2].
  apply group_made. exact (exec_captures _ _ _ Hl E).
Qed.

End MadeOf.

(** * The claims *)

(** ** Confidence *)

(** C1.  Whatever the request, the confidence of the result of
    [processTextEdit] lies in [0, 1], and a successful result has a
    confidence of at least 0.5; the confidence of every validated
    candidate is its score divided by 4 and capped at 1, and lies in
    [0, 1] as well. *)
Theorem processTextEdit_confidence `{Runtime} (tp : TextProcessor) (fs : FileSystem)
    (ctx : EditContext) :
  let r := snd (processTextEdit tp fs ctx) in
  (0 <= resultConfidence r <= 1)%Q
  /\ (success r = true -> (1 # 2 <= resultConfidence r)%Q)
  /\ forall ms sm, In sm (scoreMatchesWithContext tp fs ms ctx) ->
       confidence sm = qmin (score sm / 4) 1 /\ (0 <= confidence sm <= 1)%Q.
Proof.
  assert (Hall : forall ms sm, In sm (scoreMatchesWithContext tp fs ms ctx) ->
            confidence sm = qmin (score sm / 4) 1 /\ (0 <= confidence sm <= 1)%Q).
  { intros ms sm (m & _ & -> & _)%In_scoreMatchesWithContext.
    split; [reflexivity | apply confidence_range]. }
  cbn zeta. split; [|split; [|exact Hall]].
  - unfold processTextEdit.
    destruct (Nat.eqb _ 0); [split; apply Qle_bool_imp_le; reflexivity|].
    destruct (findBestMatch _) as [best|] eqn:Eb;
      [|split; apply Qle_bool_imp_le; reflexivity].
    apply findBestMatch_In in Eb. apply Hall in Eb as [_ Hr].
    destruct (negb _); [exact Hr|].
    destruct (updateSourceFile _ _ _ _) as [fs' u].
    destruct (updated u); exact Hr.
  - unfold processTextEdit.
    destruct (Nat.eqb _ 0); [discriminate|].
    destruct (findBestMatch _) as [best|] eqn:Eb; [|discriminate].
    destruct (negb _) eqn:Elow; [discriminate|].
    destruct (updateSourceFile _ _ _ _) as [fs' u].
    destruct (updated u); [|discriminate].
    intros _. cbn. apply negb_false_iff in Elow. by apply Qle_bool_imp_le.
Qed.

(** ** The patch *)


Lemma updateSourceFile_failure_untouched `{Runtime} (tp : TextProcessor)
    (fs : FileSystem) (m : FileMatch) (ctx : EditContext) :
  updated (snd (updateSourceFile tp fs m ctx)) = false ->
  fst (updateSourceFile tp fs m ctx) = fs.
Proof.
  unfold updateSourceFile.
  destruct (readFile fs _); [|done].
  destruct (Nat.leb _ _); [|done].
  destruct (_ !! _); [|done]. destruct (lineNumber m); [done|].
  destruct (writeFile _ _ _); [discriminate | done].
Qed.

(** An edit that fails leaves every file as it was. *)
Lemma processTextEdit_failure_untouched `{Runtime} (tp : TextProcessor)
    (fs : FileSystem) (ctx : EditContext) :
  success (snd (processTextEdit tp fs ctx)) = false ->
  fst (processTextEdit tp fs ctx) = fs.
Proof.
  unfold processTextEdit.
  destruct (Nat.eqb _ 0); [done|].
  destruct (findBestMatch _) as [best|]; [|done].
  destruct (negb _); [done|].
  pose proof (updateSourceFile_failure_untouched tp fs (base best) ctx) as Hu.
  destruct (updateSourceFile _ _ _ _) as [fs' u]. cbn in *.
  destruct (updated u); [discriminate | intros _; by apply Hu].
Qed.


(** C8.  When the matched line number exceeds the number of lines of the
    target file, [updateSourceFile] fails with the message that the
    line number exceeds the file length, and the file system it returns
    is the one it was given: nothing is written. *)
Theorem updateSourceFile_stale `{Runtime} (tp : TextProcessor) (fs : FileSystem)
    (m : FileMatch) (ctx : EditContext) (content : jsstring) :
  readFile fs (fullPathOf tp (filePath m)) = Some content ->
  length (split lf content) < lineNumber m ->
  updateSourceFile tp fs m ctx
  = (fs, {| updated := false; updateError := Some (LineExceeds (lineNumber m)) |}).
Proof.
  intros Hread Hlen. unfold updateSourceFile. rewrite Hread.
  destruct (Nat.leb _ _) eqn:E; [|reflexivity].
  apply Nat.leb_le in E. lia.
Qed.

(** ** The scan *)

Section ScanFacts.
Context `{Runtime}.

Lemma In_scanLine tp cleaned vars file lines i line cand :
  In cand (scanLine tp cleaned vars file lines i line) <->
  exists variation,
    In variation vars /\ hasExactTextMatch line variation = true
    /\ cand = candidate tp cleaned vars file lines i line variation.
Proof.
  unfold scanLine. rewrite in_flat_map. split.
  - intros (v & Hv & Hin). exists v. cbn zeta in Hin.
    destruct (hasExactTextMatch line v); [|by destruct Hin].
    destruct Hin as [<-|[]]. by repeat split.
  - intros (v & Hv & He & ->). exists v. split; [exact Hv|].
    cbn zeta. rewrite He. by left.
Qed.

Lemma In_scanFile tp fs cleaned vars file cand :
  In cand (scanFile tp fs cleaned vars file) <->
  exists content i line variation,
    readFile fs file = Some content
    /\ split lf content !! i = Some line
    /\ In variation vars /\ hasExactTextMatch line variation = true
    /\ cand = candidate tp cleaned vars file (split lf content) i line variation.
Proof.
  unfold scanFile. destruct (readFile fs file) as [content|].
  - rewrite in_concat. split.
    + intros (l & Hl & Hin). apply list_elem_of_In, elem_of_lookup_imap in Hl.
      destruct Hl as (i & line & -> & Hline).
      apply In_scanLine in Hin as (v & Hv & He & ->).
      by exists content, i, line, v.
    + intros (content' & i & line & v & [= <-] & Hline & Hv & He & ->).
      exists (scanLine tp cleaned vars file (split lf content) i line). split.
      * apply list_elem_of_In, elem_of_lookup_imap. by exists i, line.
      * apply In_scanLine. by exists v.
  - split; [intros [] | by intros (? & ? & ? & ? & [=] & _)].
Qed.

End ScanFacts.

(** C4.  A candidate is emitted for a line of a scanned file and a
    variation exactly when [hasExactTextMatch] holds of that line and
    variation; a line of which it holds for no variation yields no
    candidate, whether or not its normalized form contains a variation. *)
Theorem findTextInSourceFiles_exact `{Runtime} (tp : TextProcessor) (fs : FileSystem)
    (text : jsstring) :
  let cleaned := cleanSearchText text in
  let vars := extractDynamicPart cleaned in
  (forall cand,
     In cand (findTextInSourceFiles tp fs text) <->
     exists file content i line variation,
       In file (allFiles tp fs)
       /\ readFile fs file = Some content
       /\ split lf content !! i = Some line
       /\ In variation vars
       /\ hasExactTextMatch line variation = true
       /\ cand = candidate tp cleaned vars file (split lf content) i line variation)
  /\ (forall file lines i line,
        (forall variation, In variation vars -> hasExactTextMatch line variation = false) ->
        scanLine tp cleaned vars file lines i line = []).
Proof.
  cbn zeta. split.
  - intros cand. unfold findTextInSourceFiles. rewrite in_flat_map. split.
    + intros (file & Hfile & Hin).
      apply In_scanFile in Hin as (content & i & line & v & Hin).
      by exists file, content, i, line, v.
    + intros (file & content & i & line & v & Hfile & Hrest).
      exists file. split; [exact Hfile|]. apply In_scanFile.
      by exists content, i, line, v.
  - intros file lines i line Hnone.
    destruct (scanLine _ _ _ _ _ _ _) as [|cand rest] eqn:E; [reflexivity|].
    assert (Hin : In cand (scanLine tp (cleanSearchText text)
                             (extractDynamicPart (cleanSearchText text)) file lines i line))
      by (rewrite E; by left).
    apply In_scanLine in Hin as (v & Hv & He & _).
    rewrite (Hnone v Hv) in He. discriminate.
Qed.

(** ** Validation *)

Lemma eqs_eq (a b : jsstring) : eqs a b = true <-> a = b.
Proof.
  revert b. induction a as [|x a IH]; intros [|y b]; simpl; try done.
  rewrite andb_true_iff, N.eqb_eq, IH. split; [intros [-> ->] | intros [= -> ->]]; done.
Qed.


Section ValidateFacts.
Context `{Runtime}.



End ValidateFacts.

(** ** Ranking *)

Lemma byConfidence_total a b : byConfidence a b = true \/ byConfidence b a = true.
Proof.
  unfold byConfidence. rewrite !Qle_bool_iff.
  destruct (Qlt_le_dec (confidence b) (confidence a)) as [Hlt|Hle];
    [right; by apply Qlt_le_weak | by left].
Qed.

Lemma byConfidence_trans a b c :
  byConfidence a b = true -> byConfidence b c = true -> byConfidence a c = true.
Proof. unfold byConfidence. rewrite !Qle_bool_iff. apply Qle_trans. Qed.

Section RankOrder.
Context `{Runtime}.

Lemma filter_scored f tp fs ms ctx :
  List.filter f (scoreMatchesWithContext tp fs ms ctx)
  = sortDesc byConfidence (List.filter f (validMatches tp fs ms ctx)).
Proof.
  unfold scoreMatchesWithContext.
  apply filter_sortDesc; [apply byConfidence_total | apply byConfidence_trans].
Qed.

Lemma sortDesc_nil {A} (leb : A -> A -> bool) l : sortDesc leb l = [] -> l = [].
Proof.
  intros E. apply (f_equal length) in E. rewrite length_sortDesc in E. by destruct l.
Qed.

Lemma sortDesc_head_of_cons {A} (leb : A -> A -> bool) x l :
  exists h t, sortDesc leb (x :: l) = h :: t.
Proof.
  destruct (sortDesc leb (x :: l)) as [|h t] eqn:E; [|by exists h, t].
  by apply sortDesc_nil in E.
Qed.

(** In a list sorted by confidence the first element of high confidence,
    if there is one, is the head. *)
Lemma highConfidence_head b rest :
  StronglySorted (notBelow byConfidence) (b :: rest) ->
  head (List.filter isHighConfidence (b :: rest)) = Some b
  \/ List.filter isHighConfidence (b :: rest) = [].
Proof.
  intros Hs. apply StronglySorted_inv in Hs as [_ Hb].
  cbn [List.filter]. destruct (isHighConfidence b) eqn:Eb; [by left|]. right.
  destruct (List.filter isHighConfidence rest) as [|h t] eqn:E; [reflexivity|].
  destruct (filter_head_In _ _ _ _ E) as [Hin Hh].
  rewrite List.Forall_forall in Hb. specialize (Hb h Hin).
  unfold notBelow, byConfidence, isHighConfidence in *.
  apply negb_false_iff in Eb. apply negb_true_iff in Hh.
  apply Qle_bool_iff in Hb, Eb.
  assert (Hle : (confidence h <= 1 # 2)%Q) by (eapply Qle_trans; eauto).
  apply Qle_bool_iff in Hle. congruence.
Qed.

Lemma findBestMatch_sorted tp fs ms ctx :
  validMatches tp fs ms ctx <> [] ->
  exists best,
    findBestMatch (scoreMatchesWithContext tp fs ms ctx) = Some best
    /\ firstMax byConfidence (firstNonEmptyBucket (validMatches tp fs ms ctx)) best.
Proof.
  intros Hne.
  pose proof (fun l => head_sortDesc byConfidence byConfidence_total byConfidence_trans l)
    as Hhead.
  unfold findBestMatch, firstNonEmptyBucket.
  rewrite !filter_scored.
  set (valid := validMatches tp fs ms ctx) in *.
  destruct (scoreMatchesWithContext tp fs ms ctx) as [|b rest] eqn:Es.
  { apply sortDesc_nil in Es. done. }
  destruct (List.filter isPureText valid) as [|x l] eqn:E1.
  2:{ destruct (sortDesc_head_of_cons byConfidence x l) as (h & t & Eh).
      rewrite Eh. exists h. split; [reflexivity|]. apply Hhead. by rewrite Eh. }
  assert (Hnil : sortDesc byConfidence [] = @nil ScoredMatch) by reflexivity.
  rewrite Hnil. cbv iota.
  destruct (List.filter isContentAttribute valid) as [|x l] eqn:E2.
  2:{ destruct (sortDesc_head_of_cons byConfidence x l) as (h & t & Eh).
      rewrite Eh. exists h. split; [reflexivity|].
      apply Hhead. by rewrite Eh. }
  rewrite Hnil. cbv iota.
  destruct (List.filter isMixed valid) as [|x l] eqn:E3.
  2:{ destruct (sortDesc_head_of_cons byConfidence x l) as (h & t & Eh).
      rewrite Eh. exists h. split; [reflexivity|].
      apply Hhead. by rewrite Eh. }
  rewrite Hnil. cbv iota.
  assert (Hb : firstMax byConfidence valid b).
  { apply Hhead. unfold scoreMatchesWithContext in Es. fold valid in Es. by rewrite Es. }
  exists b. split; [|exact Hb].
  assert (Hsorted : StronglySorted (notBelow byConfidence) (b :: rest)).
  { rewrite <- Es. apply sortDesc_sorted; [apply byConfidence_total | apply byConfidence_trans]. }
  unfold valid.
  destruct (highConfidence_head b rest Hsorted) as [Hh|Hnone].
  - rewrite <- (filter_scored isHighConfidence), Es, Hh. by destruct (Nat.ltb _ _).
  - rewrite <- (filter_scored isHighConfidence), Es, Hnone. reflexivity.
Qed.

End RankOrder.

(** C6, as amended.  From a non-empty list of validated candidates
    [findBestMatch] selects, in the first non-empty bucket in the order
    (a) pure text content, (b) content-bearing attribute, (c) both
    attribute- and text-bound, (d) all candidates, the candidate of
    highest confidence, and among candidates of equal confidence the
    one that stands first in the list handed to validation.  That list
    is in discovery order only when the request has no page URL;
    otherwise the page filter has sorted it by page relevance first. *)
Theorem findBestMatch_precedence `{Runtime} (tp : TextProcessor) (fs : FileSystem)
    (ms : list FileMatch) (ctx : EditContext) :
  validMatches tp fs ms ctx <> [] ->
  (exists best,
     findBestMatch (scoreMatchesWithContext tp fs ms ctx) = Some best
     /\ firstMax byConfidence (firstNonEmptyBucket (validMatches tp fs ms ctx)) best)
  /\ (pageUrl (pageContext ctx) = [] ->
      pageMatchesOf tp fs ctx = findTextInSourceFiles tp fs (originalText ctx)).
Proof.
  intros Hne. split; [by apply findBestMatch_sorted|].
  intros Hurl. unfold pageMatchesOf, filterByPageContext. by rewrite Hurl.
Qed.

(** ** The page filter and the result *)

Lemma nonEmpty_false (s : jsstring) : nonEmpty s = false <-> s = [].
Proof. destruct s; simpl; split; done. Qed.

Section PipelineFacts.
Context `{Runtime}.



Lemma filterByPageContext_In all page m :
  In m (filterByPageContext all page) -> In m all.
Proof.
  unfold filterByPageContext. destruct (nonEmpty _); [|done].
  intros Hm. eapply In_sortDesc. rewrite <- (take_drop 10). apply in_or_app. left. exact Hm.
Qed.

Lemma filterByPageContext_length ms page :
  length (filterByPageContext ms page)
  = if nonEmpty (pageUrl page) then Nat.min 10 (length ms) else length ms.
Proof.
  unfold filterByPageContext. destruct (nonEmpty _); [|reflexivity].
  by rewrite length_take, length_sortDesc.
Qed.

Lemma scanned_exact tp fs text m :
  In m (findTextInSourceFiles tp fs text) -> isExactMatch m = true.
Proof.
  unfold findTextInSourceFiles. rewrite in_flat_map. intros (file & _ & Hin).
  apply In_scanFile in Hin as (content & i & line & v & _ & _ & _ & He & ->).
  exact He.
Qed.

Lemma scoredMatchesOf_confident tp fs ctx sm :
  In sm (scoredMatchesOf tp fs ctx) -> confidence sm = 1%Q.
Proof.
  intros (m & Hm & -> & _)%In_scoreMatchesWithContext.
  apply confidence_exact. eapply scanned_exact, filterByPageContext_In, Hm.
Qed.

(** Every candidate the scan emits is an exact match and so has
    confidence 1: the failure for low confidence is never reached, and
    no result reports a conflict. *)
Lemma processTextEdit_never_conflicts tp fs ctx :
  hasConflicts (snd (processTextEdit tp fs ctx)) = false.
Proof.
  unfold processTextEdit. destruct (Nat.eqb _ 0); [reflexivity|].
  fold (pageMatchesOf tp fs ctx). fold (scoredMatchesOf tp fs ctx).
  destruct (findBestMatch _) as [best|] eqn:Eb.
  - apply findBestMatch_In, scoredMatchesOf_confident in Eb. rewrite Eb. cbn.
    destruct (updateSourceFile _ _ _ _) as [fs' u]. by destruct (updated u).
  - apply findBestMatch_None in Eb. by rewrite Eb.
Qed.

End PipelineFacts.



(** * The claims at concrete inputs *)

Section Instances.
Import Examples.

Local Abbreviation tp := helloProcessor.

(** C1 at a request that succeeds. *)
Lemma processTextEdit_confidence_witness :
  success (snd (processTextEdit tp twoFiles helloRequest)) = true
  /\ (1 # 2 <= resultConfidence (snd (processTextEdit tp twoFiles helloRequest)))%Q.
Proof.
  split; [vm_compute; reflexivity|].
  apply (proj1 (proj2 (processTextEdit_confidence tp twoFiles helloRequest))).
  vm_compute. reflexivity.
Defined.


(** C8 at a line number beyond the two lines of [nav.html]. *)
Lemma updateSourceFile_stale_witness :
  updateSourceFile tp twoFiles (matchAt "nav.html" 5 "Hello") helloRequest
  = (twoFiles, {| updated := false; updateError := Some (LineExceeds 5) |}).
Proof.
  apply (updateSourceFile_stale tp twoFiles (matchAt "nav.html" 5 "Hello") helloRequest
           (join lf [str "<ul>"; str "<li class='Hello'>"])).
  - vm_compute. reflexivity.
  - vm_compute. lia.
Defined.

(** C6, as amended, at the two candidates of [twoFiles]. *)
Lemma findBestMatch_precedence_witness :
  let ms := pageMatchesOf tp twoFiles helloRequest in
  validMatches tp twoFiles ms helloRequest <> []
  /\ exists best,
       findBestMatch (scoreMatchesWithContext tp twoFiles ms helloRequest) = Some best
       /\ firstMax byConfidence
            (firstNonEmptyBucket (validMatches tp twoFiles ms helloRequest)) best.
Proof.
  intros ms. split; [vm_compute; discriminate|].
  apply (findBestMatch_precedence tp twoFiles ms helloRequest).
  vm_compute. discriminate.
Defined.

(** C6, as stated, fails: both files hold the text as an attribute value
    only, both candidates are validated with confidence 1, and the one
    selected is that of [nav.html], which the page filter ranks first,
    although the candidate of [a.html] was discovered before it. *)
Lemma ties_not_by_discovery_order :
  ~ tiesByDiscoveryOrder tp twoFiles helloRequest.
Proof.
  intros Hc. unfold tiesByDiscoveryOrder in Hc. cbn zeta in Hc.
  let v := eval vm_compute in (scoredMatchesOf tp twoFiles helloRequest) in
  match v with
  | [?best; ?other] => refine (Hc best _ _ _ _ other _ _ _)
  end.
  - vm_compute. reflexivity.
  - vm_compute. reflexivity.
  - vm_compute. reflexivity.
  - vm_compute. reflexivity.
  - vm_compute. right. left. reflexivity.
  - vm_compute. reflexivity.
  - exists [], [], []. vm_compute. reflexivity.
Qed.

(** C7, as stated, fails: two candidates pass validation, the edit
    succeeds, and the result reports no conflict. *)
Lemma conflict_not_reported_on_success :
  ~ conflictsReported tp twoFiles helloRequest.
Proof.
  unfold conflictsReported. intros Hc.
  assert (Hfalse : hasConflicts (snd (processTextEdit tp twoFiles helloRequest)) = false)
    by (vm_compute; reflexivity).
  rewrite Hc in Hfalse; [discriminate|]. vm_compute. lia.
Qed.


(** C4 at a line that contains the text but not within a boundary. *)
Lemma findTextInSourceFiles_exact_witness :
  includes (cleanSearchText (str "<h1>Hello world</h1>")) (str "Hello") = true
  /\ scanLine tp (cleanSearchText (str "Hello"))
       (extractDynamicPart (cleanSearchText (str "Hello")))
       (str "/p/a.html") [str "<h1>Hello world</h1>"] 0 (str "<h1>Hello world</h1>") = [].
Proof.
  split; [vm_compute; reflexivity|].
  apply (proj2 (findTextInSourceFiles_exact tp twoFiles (str "Hello"))).
  intros variation Hv. vm_compute in Hv. destruct Hv as [<-|[]].
  vm_compute. reflexivity.
Defined.




(** C9 at the failing input: the caption of the component is to change
    and the name of its opening tag changes instead, in the line the
    patcher returns and in the file the edit writes. *)
Theorem replaceTextContent_rewrites_tag_name :
  replaceTextContent (str "<Button>Button</Button>") (str "Button") (str "Submit")
  = str "<Submit>Button</Button>"
  /\ readFile (fst (processTextEdit (processor buttonFile) buttonFile buttonRequest))
       (str "/p/a.html")
     = Some (str "<Submit>Button</Button>").
Proof. split; vm_compute; reflexivity. Qed.

End Instances.

(** * Further properties of the engine *)

(** ** Occurrences *)

Lemma startsWith_prefix p s : startsWith p s = true <-> exists rest, s = p ++ rest.
Proof.
  split; [apply startsWith_app|]. intros (rest & ->).
  induction p as [|x p IH]; cbn [startsWith app]; [reflexivity|].
  by rewrite N.eqb_refl, IH.
Qed.

(** [s.includes(p)] holds exactly when [p] occurs in [s]. *)
Lemma includes_infix s p : includes s p = true <-> exists a b, s = a ++ p ++ b.
Proof.
  split.
  - induction s as [|c s IH]; cbn [includes].
    + rewrite orb_false_r. intros (rest & Hrest)%startsWith_prefix. by exists [], rest.
    + intros [(rest & Hrest)%startsWith_prefix | Hs]%orb_true_iff; [by exists [], rest|].
      destruct (IH Hs) as (a & b & ->). by exists (c :: a), b.
  - intros (a & b & ->). induction a as [|c a IH]; cbn [app].
    + destruct (p ++ b) eqn:E; cbn [includes]; apply orb_true_iff; left;
        apply startsWith_prefix; exists b; by rewrite E.
    + cbn [includes]. by rewrite IH, orb_true_r.
Qed.

Lemma includes_refl s : includes s s = true.
Proof. apply includes_infix. exists [], []. by rewrite app_nil_r. Qed.

Lemma includes_trans s p q :
  includes s p = true -> includes p q = true -> includes s q = true.
Proof.
  rewrite !includes_infix. intros (a & b & ->) (a' & b' & ->).
  exists (a ++ a'), (b' ++ b). by rewrite <- !app_assoc.
Qed.

Lemma includes_app_l s a p : includes s (a ++ p) = true -> includes s p = true.
Proof.
  intros H. eapply includes_trans; [exact H|]. apply includes_infix.
  exists a, []. by rewrite app_nil_r.
Qed.

Lemma includes_app_r s p b : includes s (p ++ b) = true -> includes s p = true.
Proof.
  intros H. eapply includes_trans; [exact H|]. apply includes_infix. by exists [], b.
Qed.

Lemma includes_wrapped s a p b : includes s (a ++ p ++ b) = true -> includes s p = true.
Proof. intros H. eapply includes_app_r, includes_app_l, H. Qed.

Lemma includes_take n s : includes s (take n s) = true.
Proof. apply includes_infix. exists [], (drop n s). cbn. by rewrite take_drop. Qed.

Lemma includes_drop n s : includes s (drop n s) = true.
Proof. apply includes_infix. exists (take n s), []. by rewrite app_nil_r, take_drop. Qed.

Lemma includes_substring a b s : includes s (substring a b s) = true.
Proof.
  unfold substring. eapply includes_trans; [apply (includes_drop a)|apply includes_take].
Qed.

Lemma includes_prefix a s : a `prefix_of` s -> includes s a = true.
Proof. intros [k ->]. apply includes_infix. by exists [], k. Qed.

Lemma includes_suffix a s : a `suffix_of` s -> includes s a = true.
Proof. intros [k ->]. apply includes_infix. exists k, []. by rewrite app_nil_r. Qed.

Lemma includes_trim s : includes s (trim s) = true.
Proof.
  destruct (trim_prefix_suffix s) as (u & Hp & Hs).
  eapply includes_trans; [apply includes_suffix, Hs | apply includes_prefix, Hp].
Qed.

(** ** The variation generator *)

Lemma existsb_eqs x seen : existsb (eqs x) seen = true <-> In x seen.
Proof.
  rewrite existsb_exists. split.
  - intros (y & Hy & ->%eqs_eq). exact Hy.
  - intros Hx. exists x. split; [exact Hx | by apply eqs_eq].
Qed.

Lemma In_dedupe_from seen xs v :
  In v (dedupe_from seen xs) <-> In v xs /\ ~ In v seen.
Proof.
  revert seen. induction xs as [|x xs IH]; intros seen; cbn [dedupe_from].
  - cbn. tauto.
  - destruct (existsb (eqs x) seen) eqn:E.
    + apply existsb_eqs in E. rewrite IH. cbn [In]. split; [tauto|].
      intros [[<- | Hv] Hn]; [contradiction | tauto].
    + assert (Hx : ~ In x seen) by (rewrite <- existsb_eqs, E; discriminate).
      cbn [In]. rewrite IH. cbn [In]. split.
      * intros [<- | [Hv Hn]]; [tauto|]. split; [tauto|].
        intros Hs. apply Hn. by right.
      * intros [[<- | Hv] Hn]; [by left|].
        destruct (decide (x = v)) as [<- | Hne]; [by left|].
        right. split; [exact Hv|]. by intros [-> | Hs].
Qed.

Lemma NoDup_dedupe_from seen xs : List.NoDup (dedupe_from seen xs).
Proof.
  revert seen. induction xs as [|x xs IH]; intros seen; cbn [dedupe_from]; [constructor|].
  destruct (existsb (eqs x) seen); [apply IH|].
  constructor; [|apply IH]. rewrite In_dedupe_from. cbn [In]. tauto.
Qed.

Lemma In_dedupe xs v : In v (dedupe xs) <-> In v xs.
Proof. unfold dedupe. rewrite In_dedupe_from. cbn. tauto. Qed.

Lemma replaceChars_nil cs r s : r <> [] -> replaceChars cs r s = [] -> s = [].
Proof.
  intros Hr. destruct s as [|c s]; [done|]. unfold replaceChars. cbn [flat_map].
  destruct (mem c cs); [|discriminate]. by intros [Hr' _]%app_eq_nil.
Qed.

Lemma collapse_from_nil s : collapse_from false s = [] -> s = [].
Proof. destruct s as [|c s]; [done|]. cbn [collapse_from]. by destruct (is_ws c). Qed.

(** [normalizeQuotes] empties no text. *)
Lemma normalizeQuotes_nil s : normalizeQuotes s = [] -> s = [].
Proof.
  unfold normalizeQuotes, collapseSpaces. intros E%collapse_from_nil.
  repeat (apply replaceChars_nil in E; [|discriminate]). exact E.
Qed.

Lemma strippedBy_nonEmpty text re v : In v (strippedBy text re) -> v <> [].
Proof.
  unfold strippedBy. destruct (nonEmpty _) eqn:En; cbn [andb]; [|done].
  destruct (negb (eqs _ text)); [|done].
  assert (Hw : trim (replaceFirstRe re (fun _ => []) text) <> []).
  { intros E. apply nonEmpty_false in E. congruence. }
  intros [<- | Hv]; [exact Hw|].
  destruct (negb (eqs _ _)); [|done]. destruct Hv as [<- | []].
  intros E%normalizeQuotes_nil. contradiction.
Qed.

(** X1.  The variations of a text start with the text itself, list no
    string twice, and apart from the text itself none of them is empty:
    the scanner never looks for the empty string unless the normalized
    request text is empty. *)
Theorem extractDynamicPart_variations (text : jsstring) :
  head (extractDynamicPart text) = Some text
  /\ List.NoDup (extractDynamicPart text)
  /\ forall v, In v (extractDynamicPart text) -> v = text \/ v <> [].
Proof.
  unfold extractDynamicPart. split; [reflexivity|]. split; [apply NoDup_dedupe_from|].
  intros v. rewrite In_dedupe, !in_app_iff, !in_flat_map.
  intros [Hv | [Hv | [Hv | [(re & _ & Hv) | (re & _ & Hv)]]]].
  - left. by destruct Hv as [<- | []].
  - destruct (negb (eqs _ text)) eqn:E; [|done]. destruct Hv as [<- | []].
    destruct (decide (normalizeQuotes text = text)) as [-> | Hne]; [by left|].
    right. intros E'. apply normalizeQuotes_nil in E'. subst text. by apply Hne.
  - right. destruct (nonEmpty _) eqn:En; cbn [andb] in Hv; [|done].
    destruct (negb (eqs _ text)); [|done].
    assert (Hw : trim (replaceAllRe withoutQuotesRe (fun _ => []) text) <> []).
    { intros E. apply nonEmpty_false in E. congruence. }
    destruct Hv as [<- | Hv]; [exact Hw|].
    destruct (negb (eqs _ _)); [|done]. destruct Hv as [<- | []].
    intros E%normalizeQuotes_nil. contradiction.
  - right. eapply strippedBy_nonEmpty, Hv.
  - right. eapply strippedBy_nonEmpty, Hv.
Qed.

(** ** The exact-match predicate *)

Lemma includes_cons s c p : includes s (c :: p) = true -> includes s p = true.
Proof. apply (includes_app_l s [c] p). Qed.

Lemma existsb_includes line t pats :
  Forall (fun pat => exists a b, pat = a ++ t ++ b) pats ->
  existsb (includes line) pats = true -> includes line t = true.
Proof.
  intros Hall (pat & Hin & Hinc)%existsb_exists.
  rewrite List.Forall_forall in Hall. destruct (Hall _ Hin) as (a & b & ->).
  eapply includes_wrapped, Hinc.
Qed.

Ltac wrapped_patterns :=
  repeat (constructor;
          [first [ by eexists [_], _ | by eexists [_; _], _ | by eexists [_; _; _], _
                 | by eexists [_; _; _; _; _; _], _ | by eexists [_; _; _; _; _; _; _], _
                 | by eexists [_; _; _; _; _; _; _; _], _ ]|]);
  try constructor.

Lemma basicQuotedPatterns_wrap t :
  Forall (fun pat => exists a b, pat = a ++ t ++ b) (basicQuotedPatterns t).
Proof. unfold basicQuotedPatterns. wrapped_patterns. Qed.

Lemma simplePatterns_wrap t :
  Forall (fun pat => exists a b, pat = a ++ t ++ b) (simplePatterns t).
Proof. unfold simplePatterns. wrapped_patterns. Qed.

Lemma withPunctuation_wrap t :
  Forall (fun pat => exists a b, pat = a ++ t ++ b) (withPunctuation t).
Proof. unfold withPunctuation. wrapped_patterns. Qed.

Lemma hasExactTextMatch_includes line searchText :
  hasExactTextMatch line searchText = true -> includes line searchText = true.
Proof.
  unfold hasExactTextMatch.
  destruct (existsb _ (basicQuotedPatterns _)) eqn:E1;
    [intros _; eapply existsb_includes, E1; apply basicQuotedPatterns_wrap|].
  destruct (existsb _ (simplePatterns _)) eqn:E2;
    [intros _; eapply existsb_includes, E2; apply simplePatterns_wrap|].
  destruct (existsb _ (withPunctuation _)) eqn:E3;
    [intros _; eapply existsb_includes, E3; apply withPunctuation_wrap|].
  assert (Htrim : forall a b, eqs (trim line) (a ++ searchText ++ b) = true ->
                              includes line searchText = true).
  { intros a b E%eqs_eq. eapply includes_wrapped. rewrite <- E. apply includes_trim. }
  assert (Hplain : eqs (trim line) searchText = true -> includes line searchText = true).
  { intros E. apply (Htrim [] []). by rewrite app_nil_r. }
  assert (Hend : forall b, eqs (trim line) (searchText ++ b) = true ->
                           includes line searchText = true).
  { intros b. apply (Htrim []). }
  destruct (eqs (trim line) searchText) eqn:E4; [by intros _; apply Hplain|].
  destruct (eqs (trim line) ([dq] ++ _ ++ [dq])) eqn:E5; [intros _; eapply Htrim, E5|].
  destruct (eqs (trim line) ([sq] ++ _ ++ [sq])) eqn:E6; [intros _; eapply Htrim, E6|].
  cbn [orb].
  destruct (includes line (str ">" ++ _ ++ str "<")) eqn:E7;
    [intros _; eapply includes_wrapped, E7|].
  destruct (eqs (trim line) (searchText ++ str ".")) eqn:E8; [intros _; eapply Hend, E8|].
  destruct (eqs (trim line) (searchText ++ str "!")) eqn:E9; [intros _; eapply Hend, E9|].
  destruct (eqs (trim line) (searchText ++ str "?")) eqn:E10; [intros _; eapply Hend, E10|].
  discriminate.
Qed.

(** ** Where a capture comes from

    Whatever a regex captures on a line occurs in that line. *)

Section CapturedFrom.
Variable line : jsstring.

Local Abbreviation capturesIn := (capturesIn line).
Local Abbreviation keepsIn := (keepsIn line).

Lemma capturesIn_empty : capturesIn ∅.
Proof. intros n w Hw. by rewrite lookup_empty in Hw. Qed.

Lemma capturesIn_insert caps n w :
  capturesIn caps -> includes line w = true -> capturesIn (<[n := w]> caps).
Proof.
  intros Hc Hw n' w' Hl. destruct (decide (n = n')) as [->|Hne].
  - rewrite lookup_insert_eq in Hl. by injection Hl as <-.
  - rewrite lookup_insert_ne in Hl by done. by eapply Hc.
Qed.

Lemma suffix_tail (c : N) (s : jsstring) : (c :: s) `suffix_of` line -> s `suffix_of` line.
Proof. intros [k ->]. exists (k ++ [c]). by rewrite <- app_assoc. Qed.

Lemma suffix_drop n (s : jsstring) : s `suffix_of` line -> drop n s `suffix_of` line.
Proof.
  intros [k ->]. exists (k ++ take n s). by rewrite <- app_assoc, take_drop.
Qed.

Lemma starLoop_keepsIn step greedy k fuel :
  (forall k', keepsIn k' -> keepsIn (step k')) -> keepsIn k ->
  keepsIn (starLoop step greedy k fuel).
Proof.
  intros Hstep Hk. induction fuel as [|fuel IH]; intros caps i s res Hcaps Hs;
    cbn [starLoop]; [by apply Hk|].
  set (k' := fun caps' i' s' => if Nat.eqb i' i then None else _).
  assert (Hk' : keepsIn k').
  { intros caps' i' s' res' Hc' Hs'. unfold k'.
    destruct (Nat.eqb i' i); [discriminate | by apply IH]. }
  destruct greedy.
  - destruct (step k' caps i s) as [m|] eqn:E.
    + intros [= <-]. by eapply (Hstep k' Hk').
    + by apply Hk.
  - destruct (k caps i s) as [m|] eqn:E.
    + intros [= <-]. by eapply Hk.
    + by apply (Hstep k' Hk').
Qed.

Lemma rmatch_keepsIn r : forall k, keepsIn k -> keepsIn (rmatch r k).
Proof.
  induction r as [|p|a IHa b IHb|a IHa b IHb|g a IHa|n a IHa|n| |];
    intros k Hk caps i s res Hcaps Hs; cbn [rmatch].
  - by apply Hk.
  - destruct s as [|c s]; [discriminate|]. destruct (p c); [|discriminate].
    apply Hk; [exact Hcaps|]. by eapply suffix_tail.
  - apply (IHa (fun caps' i' s' => rmatch b k caps' i' s')); [|exact Hcaps|exact Hs].
    intros caps' i' s' res' Hc' Hs'. by apply IHb.
  - destruct (rmatch a k caps i s) as [m|] eqn:E.
    + intros [= <-]. by eapply IHa.
    + by apply IHb.
  - by apply starLoop_keepsIn.
  - apply (IHa (fun caps' i' s' => k (<[n := take (i' - i) s]> caps') i' s'));
      [|exact Hcaps|exact Hs].
    intros caps' i' s' res' Hc' Hs'. apply Hk; [|exact Hs'].
    apply capturesIn_insert; [exact Hc'|].
    eapply includes_trans; [apply includes_suffix, Hs | apply includes_take].
  - destruct (startsWith _ s); [|discriminate].
    apply Hk; [exact Hcaps | by apply suffix_drop].
  - destruct (Nat.eqb i 0); [by apply Hk | discriminate].
  - destruct s; [by apply Hk | discriminate].
Qed.

Lemma matchAt_capturesIn r i s m :
  s `suffix_of` line -> matchAt r i s = Some m -> capturesIn (f_caps m).
Proof.
  intros Hs. unfold matchAt.
  apply (rmatch_keepsIn r); [|apply capturesIn_empty|exact Hs].
  intros caps j s' res Hc _ [= <-]. exact Hc.
Qed.

Lemma search_capturesIn r i s m :
  s `suffix_of` line -> search r i s = Some m -> capturesIn (f_caps m).
Proof.
  revert i. induction s as [|c s IH]; intros i Hs; cbn [search].
  - destruct (matchAt r i []) eqn:E; [|discriminate].
    intros [= <-]. by eapply matchAt_capturesIn.
  - destruct (matchAt r i (c :: s)) eqn:E.
    + intros [= <-]. by eapply matchAt_capturesIn.
    + apply IH. by eapply suffix_tail.
Qed.

Lemma matchAll_from_capturesIn fuel r i s :
  s `suffix_of` line ->
  Forall (fun m => capturesIn (f_caps m)) (matchAll_from fuel r i s).
Proof.
  revert i s. induction fuel as [|fuel IH]; intros i s Hs; cbn [matchAll_from];
    [constructor|].
  destruct (search r i s) as [m|] eqn:E; [|constructor].
  constructor; [by eapply search_capturesIn|].
  destruct (Nat.ltb _ _); [constructor|]. by apply IH, suffix_drop.
Qed.

Lemma group_includes n m : capturesIn (f_caps m) -> includes line (group n m) = true.
Proof.
  intros Hc. unfold group. destruct (f_caps m !! n) as [w|] eqn:E; cbn [default].
  - by eapply Hc.
  - apply includes_infix. by exists [], line.
Qed.

Lemma exec_group_includes r n m : exec r line = Some m -> includes line (group n m) = true.
Proof. intros E. eapply group_includes, search_capturesIn, E. done. Qed.

Lemma matchAll_group_includes r n m :
  In m (matchAll r line) -> includes line (group n m) = true.
Proof.
  intros Hm. apply group_includes.
  pose proof (matchAll_from_capturesIn (S (length line)) r 0 line) as Hall.
  rewrite List.Forall_forall in Hall. by apply Hall.
Qed.

End CapturedFrom.

(** ** The text as the file spells it *)

Lemma includes_substringZ a b s : includes s (substringZ a b s) = true.
Proof. unfold substringZ. apply includes_substring. Qed.

Lemma findTextWithHtmlEntities_sound line v c :
  findTextWithHtmlEntities line v = Some c ->
  cleanSearchText c = v /\ includes line c = true.
Proof.
  unfold findTextWithHtmlEntities. destruct (indexOf _ _); [|discriminate].
  destruct (eqs _ v) eqn:E; [|discriminate]. intros [= <-].
  split; [by apply eqs_eq | apply includes_substring].
Qed.

Lemma extractOriginalTextFromLine_cases (originalLine variation normalizedLine : jsstring) :
  extractOriginalTextFromLine originalLine variation normalizedLine = variation
  \/ (cleanSearchText (extractOriginalTextFromLine originalLine variation normalizedLine)
      = variation
      /\ includes originalLine
           (extractOriginalTextFromLine originalLine variation normalizedLine) = true).
Proof.
  unfold extractOriginalTextFromLine.
  destruct (indexOf normalizedLine variation); [|by left].
  set (tail := match match exec quotedTextRe originalLine with
                     | Some _ => _ | None => _ end with
               | Some t => t | None => _ end).
  assert (Htail : tail = variation
                  \/ (cleanSearchText tail = variation /\ includes originalLine tail = true)).
  { unfold tail. destruct (exec quotedTextRe originalLine) as [m|] eqn:Em.
    - destruct (eqs (cleanSearchText (group 2 m)) variation) eqn:Eq.
      + right. split; [by apply eqs_eq | by eapply exec_group_includes].
      + destruct (List.find _ _) as [w|] eqn:Ew; [|by left].
        apply find_some in Ew as [_ Ew]. right.
        split; [by apply eqs_eq | apply includes_substringZ].
    - destruct (List.find _ _) as [w|] eqn:Ew; [|by left].
      apply find_some in Ew as [_ Ew]. right.
      split; [by apply eqs_eq | apply includes_substringZ]. }
  clearbody tail.
  destruct (includes originalLine (str "&")); [|exact Htail].
  destruct (findTextWithHtmlEntities originalLine variation) as [c|] eqn:Ef; [|exact Htail].
  destruct (nonEmpty c); [|exact Htail].
  apply findTextWithHtmlEntities_sound in Ef as [Hc Hi].
  destruct (eqs (cleanSearchText (trim c)) variation) eqn:Et; right.
  - split; [by apply eqs_eq|]. eapply includes_trans; [exact Hi | apply includes_trim].
  - by split.
Qed.

(** X2.  The text [extractOriginalTextFromLine] recovers from a line is
    either the variation it was asked for, or a piece of the line that
    the normalizer maps to that variation. *)
Theorem extractOriginalTextFromLine_sound (originalLine variation normalizedLine : jsstring) :
  let t := extractOriginalTextFromLine originalLine variation normalizedLine in
  t = variation \/ (cleanSearchText t = variation /\ includes originalLine t = true).
Proof. cbv zeta. apply extractOriginalTextFromLine_cases. Qed.

(** ** The candidates of the scan *)

Section CandidateFacts.
Context `{Runtime}.

Lemma matchedText_occurs line variation :
  hasExactTextMatch line variation = true ->
  includes line (extractOriginalTextFromLine line variation (cleanSearchText line)) = true.
Proof.
  intros He.
  destruct (extractOriginalTextFromLine_cases line variation (cleanSearchText line))
    as [-> | [_ Hi]]; [by apply hasExactTextMatch_includes | exact Hi].
Qed.

Lemma scanned_candidate tp fs text m :
  In m (findTextInSourceFiles tp fs text) ->
  exists file content i line variation,
    In file (allFiles tp fs)
    /\ readFile fs file = Some content
    /\ split lf content !! i = Some line
    /\ In variation (extractDynamicPart (cleanSearchText text))
    /\ hasExactTextMatch line variation = true
    /\ m = candidate tp (cleanSearchText text) (extractDynamicPart (cleanSearchText text))
             file (split lf content) i line variation.
Proof.
  unfold findTextInSourceFiles. rewrite in_flat_map. intros (file & Hfile & Hin).
  apply In_scanFile in Hin as (content & i & line & v & Hin).
  by exists file, content, i, line, v.
Qed.

(** X3.  Every candidate of the scan names a line of a file the scan
    could read: its line number is within the file, its [originalLine]
    is that line, its [matchedText] occurs in that line as it stands,
    and the normalizer maps it to one of the variations of the request
    text unless it is that variation itself. *)
Theorem findTextInSourceFiles_candidates (tp : TextProcessor) (fs : FileSystem)
    (text : jsstring) (m : FileMatch) :
  In m (findTextInSourceFiles tp fs text) ->
  exists file content variation,
    In file (allFiles tp fs)
    /\ readFile fs file = Some content
    /\ filePath m = path_relative (projectRoot tp) file
    /\ 1 <= lineNumber m <= length (split lf content)
    /\ split lf content !! (lineNumber m - 1) = Some (originalLine m)
    /\ includes (originalLine m) (matchedText m) = true
    /\ In variation (extractDynamicPart (cleanSearchText text))
    /\ (matchedText m = variation \/ cleanSearchText (matchedText m) = variation).
Proof.
  intros (file & content & i & line & v & Hfile & Hread & Hline & Hv & He & ->)%scanned_candidate.
  exists file, content, v. cbn [filePath lineNumber originalLine matchedText candidate].
  replace (i + 1 - 1) with i by lia.
  pose proof (lookup_lt_Some _ _ _ Hline) as Hlt.
  repeat split; try done; try lia.
  - by apply matchedText_occurs.
  - destruct (extractOriginalTextFromLine_cases line v (cleanSearchText line))
      as [-> | [Hc _]]; [by left | by right].
Qed.

(** X4.  The context a candidate carries is what surrounds its line in
    the file: the lines of the file are some lines, then
    [contextBefore], the line itself, [contextAfter], and the rest, with
    three lines of context on either side wherever the file has them. *)
Theorem findTextInSourceFiles_context (tp : TextProcessor) (fs : FileSystem)
    (text : jsstring) (m : FileMatch) :
  In m (findTextInSourceFiles tp fs text) ->
  exists file content pre post,
    In file (allFiles tp fs)
    /\ readFile fs file = Some content
    /\ split lf content
       = pre ++ contextBefore m ++ originalLine m :: contextAfter m ++ post
    /\ length (pre ++ contextBefore m) = lineNumber m - 1
    /\ length (contextBefore m) = Nat.min 3 (lineNumber m - 1)
    /\ length (contextAfter m) = Nat.min 3 (length (split lf content) - lineNumber m).
Proof.
  intros (file & content & i & line & v & Hfile & Hread & Hline & Hv & He & ->)%scanned_candidate.
  set (lines := split lf content) in *.
  exists file, content, (take (i - 3) lines), (drop (i + 4) lines).
  cbn [lineNumber originalLine contextBefore contextAfter candidate]. unfold slice.
  pose proof (lookup_lt_Some _ _ _ Hline) as Hlt.
  replace (i + 1 - 1) with i by lia.
  assert (Hb : take (i - 3) lines ++ take (i - (i - 3)) (drop (i - 3) lines) = take i lines).
  { rewrite <- (take_drop (i - 3) (take i lines)).
    rewrite take_take, skipn_firstn_comm. do 2 f_equal. lia. }
  assert (Ha : take (Nat.min (length lines) (i + 4) - (i + 1)) (drop (i + 1) lines)
               ++ drop (i + 4) lines = drop (i + 1) lines).
  { rewrite <- (take_drop 3 (drop (i + 1) lines)) at 2. rewrite drop_drop. f_equal.
    - destruct (Nat.le_gt_cases (length lines) (i + 4)).
      + rewrite Nat.min_l by lia. rewrite !take_ge; [done | | ]; rewrite length_drop; lia.
      + rewrite Nat.min_r by lia. f_equal. lia.
    - f_equal. lia. }
  repeat split; try done.
  - rewrite app_assoc, Hb, Ha. replace (i + 1) with (S i) by lia.
    symmetry. by apply take_drop_middle.
  - rewrite Hb, length_take. lia.
  - rewrite length_take, length_drop. lia.
  - rewrite length_take, length_drop. fold lines. lia.
Qed.

End CandidateFacts.

(** ** The outcomes of an edit *)

Section OutcomeFacts.
Context `{Runtime}.

Lemma scoredMatchesOf_nil_scan tp fs ctx :
  findTextInSourceFiles tp fs (originalText ctx) = [] -> scoredMatchesOf tp fs ctx = [].
Proof.
  intros E. unfold scoredMatchesOf, pageMatchesOf. rewrite E.
  unfold filterByPageContext. by destruct (nonEmpty _).
Qed.

(** The edit with its dead branch removed: since every scored candidate
    has confidence 1, the best one is always handed to the patcher. *)
Lemma processTextEdit_unfold tp fs ctx :
  processTextEdit tp fs ctx =
  match findBestMatch (scoredMatchesOf tp fs ctx) with
  | None =>
      (fs, failure 0 false
             (if Nat.eqb (length (findTextInSourceFiles tp fs (originalText ctx))) 0
              then None else Some [])
             NoMatchesFound)
  | Some bestMatch =>
      let '(fs', updateResult) := updateSourceFile tp fs (base bestMatch) ctx in
      if updated updateResult then
        (fs', {| success := true; resultConfidence := 1;
                 matchedFilePath := Some (filePath (base bestMatch));
                 resultLineNumber := Some (lineNumber (base bestMatch));
                 matchContext := Some (originalLine (base bestMatch));
                 alternativeMatches := None; hasConflicts := false;
                 errorMessage := None |})
      else (fs', failure 1 false None (default HostError (updateError updateResult)))
  end.
Proof.
  unfold processTextEdit. destruct (Nat.eqb _ 0) eqn:E0.
  - apply Nat.eqb_eq, nil_length_inv in E0.
    by rewrite (scoredMatchesOf_nil_scan _ _ _ E0).
  - fold (pageMatchesOf tp fs ctx). fold (scoredMatchesOf tp fs ctx).
    destruct (findBestMatch _) as [best|] eqn:Eb.
    + apply findBestMatch_In, scoredMatchesOf_confident in Eb. by rewrite Eb.
    + apply findBestMatch_None in Eb. by rewrite Eb.
Qed.

Lemma findBestMatch_Some (l : list ScoredMatch) :
  l <> [] -> exists best, findBestMatch l = Some best.
Proof.
  intros Hl. destruct (findBestMatch l) as [best|] eqn:E; [by exists best|].
  by apply findBestMatch_None in E.
Qed.

Lemma updateSourceFile_others tp fs m ctx other :
  other <> fullPathOf tp (filePath m) ->
  readFile (fst (updateSourceFile tp fs m ctx)) other = readFile fs other.
Proof.
  intros Hne. unfold updateSourceFile.
  destruct (readFile fs _); [|done].
  destruct (Nat.leb _ _); [|done].
  destruct (_ !! _); [|done]. destruct (lineNumber m); [done|].
  unfold writeFile. destruct (writable fs _); [|done].
  cbn. unfold readFile. cbn. by rewrite lookup_insert_ne.
Qed.

Lemma updateSourceFile_error tp fs m ctx :
  updated (snd (updateSourceFile tp fs m ctx)) = false ->
  updateError (snd (updateSourceFile tp fs m ctx)) = Some HostError
  \/ exists n, updateError (snd (updateSourceFile tp fs m ctx)) = Some (LineExceeds n).
Proof.
  unfold updateSourceFile.
  destruct (readFile fs _); [|by left].
  destruct (Nat.leb _ _); [|right; by eexists].
  destruct (_ !! _); [|by left]. destruct (lineNumber m); [by left|].
  destruct (writeFile _ _ _); [discriminate | by left].
Qed.

(** The patch of a candidate of the scan goes through when the file is
    still as the scan read it. *)
Lemma updateSourceFile_scanned tp fs text ctx m :
  In m (findTextInSourceFiles tp fs text) ->
  (forall file, In file (allFiles tp fs) ->
     fullPathOf tp (path_relative (projectRoot tp) file) = file) ->
  (forall file, In file (allFiles tp fs) -> writable fs file = true) ->
  updated (snd (updateSourceFile tp fs m ctx)) = true.
Proof.
  intros (file & content & i & line & v & Hfile & Hread & Hline & _ & _ & ->)%scanned_candidate
    Hpath Hw.
  unfold updateSourceFile. cbn [filePath lineNumber matchedText candidate].
  rewrite (Hpath file Hfile), Hread.
  pose proof (lookup_lt_Some _ _ _ Hline) as Hlt.
  destruct (Nat.leb_spec (i + 1) (length (split lf content))) as [_|Hgt]; [|lia].
  replace (i + 1 - 1) with i by lia. rewrite Hline.
  replace (i + 1) with (S i) by lia.
  unfold writeFile. by rewrite (Hw file Hfile).
Qed.

End OutcomeFacts.

(** C7, as amended.  No result reports a conflict, however many
    candidates pass validation.  The flag is computed from the number
    of scored matches only on the return taken when there is no best
    match or its confidence is below 0.5: without a best match the list
    of scored matches is empty, and every scored match has confidence
    1.  With two or more validated candidates the result is a success
    or a failed patch, and carries neither the flag nor the list of
    alternatives. *)
Theorem hasConflicts_never_reported `{Runtime} (tp : TextProcessor) (fs : FileSystem)
    (ctx : EditContext) :
  let r := snd (processTextEdit tp fs ctx) in
  let scored := scoredMatchesOf tp fs ctx in
  hasConflicts r = false
  /\ (forall sm, In sm scored -> confidence sm = 1%Q)
  /\ (findBestMatch scored = None -> scored = [])
  /\ (2 <= length scored ->
      exists best u,
        findBestMatch scored = Some best
        /\ u = snd (updateSourceFile tp fs (base best) ctx)
        /\ success r = updated u
        /\ alternativeMatches r = None
        /\ errorMessage r <> Some LowConfidenceMatch).
Proof.
  cbn zeta. split; [|split; [|split]].
  - rewrite processTextEdit_unfold. destruct (findBestMatch _) as [best|]; [|reflexivity].
    destruct (updateSourceFile _ _ _ _) as [fs' u]. by destruct (updated u).
  - intros sm. apply scoredMatchesOf_confident.
  - apply findBestMatch_None.
  - intros Hlen. rewrite processTextEdit_unfold.
    destruct (findBestMatch_Some (scoredMatchesOf tp fs ctx)) as [best Hbest].
    { intros E. rewrite E in Hlen. cbn in Hlen. lia. }
    rewrite Hbest. exists best, (snd (updateSourceFile tp fs (base best) ctx)).
    split; [reflexivity|]. split; [reflexivity|].
    pose proof (updateSourceFile_error tp fs (base best) ctx) as He.
    destruct (updateSourceFile _ _ _ _) as [fs' u]. cbn [snd] in *.
    destruct (updated u); cbn; [done|].
    destruct He as [-> | [n ->]]; done.
Qed.

(** X5.  The confidence of a result is 1 whenever some candidate passed
    validation and 0 otherwise, in which case the edit fails with the
    message that no match was found.  The failure for low confidence is
    never returned, no result reports a conflict, and
    [alternativeMatches] never lists a candidate. *)
Theorem processTextEdit_outcomes `{Runtime} (tp : TextProcessor) (fs : FileSystem)
    (ctx : EditContext) :
  let r := snd (processTextEdit tp fs ctx) in
  hasConflicts r = false
  /\ errorMessage r <> Some LowConfidenceMatch
  /\ (alternativeMatches r = None \/ alternativeMatches r = Some [])
  /\ ((scoredMatchesOf tp fs ctx = [] /\ success r = false
       /\ resultConfidence r = 0%Q /\ errorMessage r = Some NoMatchesFound)
      \/ (scoredMatchesOf tp fs ctx <> [] /\ resultConfidence r = 1%Q
          /\ errorMessage r <> Some NoMatchesFound)).
Proof.
  cbn zeta. rewrite processTextEdit_unfold.
  destruct (findBestMatch _) as [best|] eqn:Eb.
  - assert (Hne : scoredMatchesOf tp fs ctx <> []).
    { intros E. rewrite E in Eb. discriminate. }
    pose proof (updateSourceFile_error tp fs (base best) ctx) as He.
    destruct (updateSourceFile _ _ _ _) as [fs' u]. cbn [snd] in *.
    destruct (updated u); cbn.
    + repeat split; try done; [by left | by right].
    + destruct He as [-> | [n ->]]; try done; cbn;
        (repeat split; try done; [by left | by right]).
  - apply findBestMatch_None in Eb. cbn. repeat split; try done.
    + destruct (Nat.eqb _ 0); [by left | by right].
    + by left.
Qed.

(** X6.  An edit writes at most one file: a file whose content after
    the call differs from its content before is the file the result
    reports, and the result is a success. *)
Theorem processTextEdit_frame `{Runtime} (tp : TextProcessor) (fs : FileSystem)
    (ctx : EditContext) (other : jsstring) :
  readFile (fst (processTextEdit tp fs ctx)) other <> readFile fs other ->
  let r := snd (processTextEdit tp fs ctx) in
  success r = true
  /\ exists p, matchedFilePath r = Some p /\ other = fullPathOf tp p.
Proof.
  cbn zeta. rewrite processTextEdit_unfold.
  destruct (findBestMatch _) as [best|]; [|done].
  pose proof (updateSourceFile_others tp fs (base best) ctx other) as Ho.
  pose proof (updateSourceFile_failure_untouched tp fs (base best) ctx) as Hf.
  destruct (updateSourceFile _ _ _ _) as [fs' u]. cbn [fst snd] in *.
  destruct (updated u); cbn [fst snd success matchedFilePath].
  - intros Hne. split; [done|]. exists (filePath (base best)). split; [done|].
    destruct (decide (other = fullPathOf tp (filePath (base best)))) as [E|E]; [done|].
    by specialize (Ho E).
  - rewrite Hf by done. done.
Qed.

(** X7.  A successful result reports a candidate of the scan that
    passed validation: the file and line it names are those of a line
    the scan read, and [matchContext] is that line as the scan read
    it. *)
Theorem processTextEdit_success_reports `{Runtime} (tp : TextProcessor) (fs : FileSystem)
    (ctx : EditContext) :
  let r := snd (processTextEdit tp fs ctx) in
  success r = true ->
  exists best file content,
    In best (scoredMatchesOf tp fs ctx)
    /\ In (base best) (findTextInSourceFiles tp fs (originalText ctx))
    /\ In file (allFiles tp fs)
    /\ readFile fs file = Some content
    /\ matchedFilePath r = Some (path_relative (projectRoot tp) file)
    /\ resultLineNumber r = Some (lineNumber (base best))
    /\ matchContext r = split lf content !! (lineNumber (base best) - 1)
    /\ errorMessage r = None.
Proof.
  cbn zeta. rewrite processTextEdit_unfold.
  destruct (findBestMatch _) as [best|] eqn:Eb; [|discriminate].
  apply findBestMatch_In in Eb.
  assert (Hscan : In (base best) (findTextInSourceFiles tp fs (originalText ctx))).
  { apply In_scoreMatchesWithContext in Eb as (m & Hm & -> & _).
    eapply filterByPageContext_In, Hm. }
  destruct (updateSourceFile _ _ _ _) as [fs' u]. cbn [fst snd].
  destruct (updated u); [|discriminate]. intros _.
  destruct (scanned_candidate _ _ _ _ Hscan)
    as (file & content & i & line & v & Hfile & Hread & Hline & _ & _ & Eq).
  exists best, file, content.
  cbn [matchedFilePath resultLineNumber matchContext errorMessage].
  rewrite Eq. cbn [filePath lineNumber originalLine candidate].
  replace (i + 1 - 1) with i by lia. rewrite Hline, <- Eq. by repeat split.
Qed.

(** X8.  When every scanned file is found again under the path a
    candidate carries and can be written, an edit succeeds exactly when
    at least one candidate passes validation. *)
Theorem processTextEdit_succeeds_iff `{Runtime} (tp : TextProcessor) (fs : FileSystem)
    (ctx : EditContext) :
  (forall file, In file (allFiles tp fs) ->
     fullPathOf tp (path_relative (projectRoot tp) file) = file) ->
  (forall file, In file (allFiles tp fs) -> writable fs file = true) ->
  success (snd (processTextEdit tp fs ctx)) = true <-> scoredMatchesOf tp fs ctx <> [].
Proof.
  intros Hpath Hw. rewrite processTextEdit_unfold.
  destruct (findBestMatch _) as [best|] eqn:Eb.
  - assert (Hne : scoredMatchesOf tp fs ctx <> []).
    { intros E. rewrite E in Eb. discriminate. }
    apply findBestMatch_In in Eb.
    assert (Hscan : In (base best) (findTextInSourceFiles tp fs (originalText ctx))).
    { apply In_scoreMatchesWithContext in Eb as (m & Hm & -> & _).
      eapply filterByPageContext_In, Hm. }
    pose proof (updateSourceFile_scanned tp fs _ ctx _ Hscan Hpath Hw) as Hu.
    destruct (updateSourceFile _ _ _ _) as [fs' u]. cbn [snd] in *. by rewrite Hu.
  - apply findBestMatch_None in Eb. by rewrite Eb.
Qed.

(** ** Validation and selection *)

Section ValidationBounds.
Context `{Runtime}.

Lemma inject_nat_nonneg (n : nat) : (0 <= inject_Z (Z.of_nat n))%Q.
Proof. unfold Qle. cbn. lia. Qed.

Lemma siblingScore_lower ctx fileContent : (- (1) <= siblingScore ctx fileContent)%Q.
Proof.
  unfold siblingScore. cbv zeta. destruct (Nat.ltb 0 _); [|lra].
  destruct (Qle_bool _ _); [|lra].
  match goal with |- context [inject_Z (Z.of_nat ?n)] =>
    pose proof (inject_nat_nonneg n) end. lra.
Qed.

Lemma pageScore_nonneg ctx m : (0 <= pageScore ctx m)%Q.
Proof.
  unfold pageScore. cbv zeta. destruct (nonEmpty _); [|lra].
  destruct (_ || _); [destruct (_ || _)|]; destruct (_ && _);
    try destruct (includes _ _); lra.
Qed.

Lemma selectorScore_nonneg ctx fileContent : (0 <= selectorScore ctx fileContent)%Q.
Proof.
  unfold selectorScore. cbv zeta. destruct (nonEmpty _); [|lra].
  destruct (Nat.ltb 0 _); [|lra].
  match goal with |- context [inject_Z (Z.of_nat ?n)] =>
    pose proof (inject_nat_nonneg n) end. lra.
Qed.

Lemma validationScore_supported tp fs m ctx isUniqueText :
  hasElementId ctx || isUniqueText = true ->
  Qle_bool (minRequiredScore ctx isUniqueText) (validationScore tp fs m ctx isUniqueText) = true.
Proof.
  intros Hs. apply Qle_bool_iff. unfold minRequiredScore, validationScore. rewrite Hs.
  cbv zeta.
  pose proof (siblingScore_lower ctx (getFileContent tp fs (filePath m))).
  pose proof (pageScore_nonneg ctx m).
  pose proof (selectorScore_nonneg ctx (getFileContent tp fs (filePath m))).
  unfold parentScore, minimalContextScore, hasMinimalContext.
  destruct (truthy _); cbn [andb]; [destruct (eqs _ _); [destruct (Nat.ltb 20 _)|]|];
    destruct isUniqueText; destruct (hasElementId ctx); try discriminate; lra.
Qed.

End ValidationBounds.

(** X9.  For a request that carries an element id, and for a candidate
    that is the only one left by the page filter, the score threshold
    never rejects: validation fails only by one of the two early checks,
    which apply when the request has a parent text that does not contain
    the request text or whose file does not contain it. *)
Theorem validateExactContext_supported `{Runtime} (tp : TextProcessor) (fs : FileSystem)
    (m : FileMatch) (ctx : EditContext) (isUniqueText : bool) :
  hasElementId ctx || isUniqueText = true ->
  let wanted := cleanSearchText (originalText ctx) in
  isValid (validateExactContext tp fs m ctx isUniqueText)
  = negb (truthy (parentTextOf ctx)
          && (negb (includes (cleanSearchText (default [] (parentTextOf ctx))) wanted)
              || negb (includes (cleanSearchText (getFileContent tp fs (filePath m)))
                                wanted))).
Proof.
  intros Hs. cbv zeta. unfold validateExactContext. cbv zeta.
  pose proof (validationScore_supported tp fs m ctx isUniqueText Hs) as Hv.
  destruct (truthy _); cbn [andb negb]; [|exact Hv].
  destruct (includes (cleanSearchText (default [] _)) _); cbn [negb orb]; [|reflexivity].
  destruct (includes _ _); cbn [negb]; [exact Hv | reflexivity].
Qed.

Section SelectionFacts.
Context `{Runtime}.

Lemma validMatches_confident tp fs ctx sm :
  In sm (validMatches tp fs (pageMatchesOf tp fs ctx) ctx) -> confidence sm = 1%Q.
Proof.
  intros (m & Hm & -> & _)%In_validMatches.
  apply confidence_exact. eapply scanned_exact, filterByPageContext_In, Hm.
Qed.

Lemma scoredMatchesOf_unsorted tp fs ctx :
  scoredMatchesOf tp fs ctx = validMatches tp fs (pageMatchesOf tp fs ctx) ctx.
Proof.
  unfold scoredMatchesOf, scoreMatchesWithContext. apply sortDesc_level.
  intros x y Hx%validMatches_confident Hy%validMatches_confident.
  unfold byConfidence. by rewrite Hx, Hy.
Qed.

Lemma findBestMatch_confident (l : list ScoredMatch) :
  (forall sm, In sm l -> confidence sm = 1%Q) ->
  findBestMatch l = head (firstNonEmptyBucket l).
Proof.
  intros Hc. unfold findBestMatch, firstNonEmptyBucket. destruct l as [|b l]; [reflexivity|].
  destruct (List.filter isPureText (b :: l)); [|reflexivity].
  destruct (List.filter isContentAttribute (b :: l)); [|reflexivity].
  destruct (List.filter isMixed (b :: l)); [|reflexivity].
  assert (Hall : List.filter isHighConfidence (b :: l) = b :: l).
  { apply forallb_filter_id, forallb_forall. intros sm Hsm.
    unfold isHighConfidence. by rewrite (Hc sm Hsm). }
  rewrite Hall. by destruct (Nat.ltb _ _).
Qed.

End SelectionFacts.

(** X10.  On the candidates of a scan the sort by confidence changes
    nothing, all confidences being 1: the scored candidates are the
    valid ones in the order the page filter left them, and the ranker
    selects the first candidate of the first bucket that is not
    empty. *)
Theorem findBestMatch_first_of_bucket `{Runtime} (tp : TextProcessor) (fs : FileSystem)
    (ctx : EditContext) :
  let valid := validMatches tp fs (pageMatchesOf tp fs ctx) ctx in
  scoredMatchesOf tp fs ctx = valid
  /\ findBestMatch (scoredMatchesOf tp fs ctx) = head (firstNonEmptyBucket valid).
Proof.
  cbv zeta. rewrite scoredMatchesOf_unsorted. split; [reflexivity|].
  apply findBestMatch_confident. intros sm. apply validMatches_confident.
Qed.

(** ** Where a match lies *)

Lemma startsWith_length p s : startsWith p s = true -> length p <= length s.
Proof. intros (rest & ->)%startsWith_app. rewrite length_app. lia. Qed.

Section Positions.
Variables (Q : found -> Prop) (i0 : nat) (s0 : jsstring).

Local Abbreviation reaches := (reaches i0 s0).
Local Abbreviation keepsAt := (keepsAt Q i0 s0).

Lemma starLoop_keepsAt step greedy k fuel :
  (forall k', keepsAt k' -> keepsAt (step k')) -> keepsAt k ->
  keepsAt (starLoop step greedy k fuel).
Proof.
  intros Hstep Hk. induction fuel as [|fuel IH]; intros caps i s res Hpos;
    cbn [starLoop]; [by apply Hk|].
  set (k' := fun caps' i' s' => if Nat.eqb i' i then None else _).
  assert (Hk' : keepsAt k').
  { intros caps' i' s' res' Hpos'. unfold k'.
    destruct (Nat.eqb i' i); [discriminate | by apply IH]. }
  destruct greedy.
  - destruct (step k' caps i s) as [m|] eqn:E.
    + intros [= <-]. by eapply (Hstep k' Hk').
    + by apply Hk.
  - destruct (k caps i s) as [m|] eqn:E.
    + intros [= <-]. by eapply Hk.
    + by apply (Hstep k' Hk').
Qed.

Lemma rmatch_keepsAt r : forall k, keepsAt k -> keepsAt (rmatch r k).
Proof.
  induction r as [|p|a IHa b IHb|a IHa b IHb|g a IHa|n a IHa|n| |];
    intros k Hk caps i s res Hpos; cbn [rmatch].
  - by apply Hk.
  - destruct s as [|c s]; [discriminate|]. destruct (p c); [|discriminate].
    apply Hk. destruct Hpos as [Hlo Hlen]. cbn [length] in Hlen. split; lia.
  - apply (IHa (fun caps' i' s' => rmatch b k caps' i' s')); [|exact Hpos].
    intros caps' i' s' res' Hpos'. by apply IHb.
  - destruct (rmatch a k caps i s) as [m|] eqn:E.
    + intros [= <-]. by eapply IHa.
    + by apply IHb.
  - by apply starLoop_keepsAt.
  - apply (IHa (fun caps' i' s' => k (<[n := take (i' - i) s]> caps') i' s')); [|exact Hpos].
    intros caps' i' s' res' Hpos'. by apply Hk.
  - destruct (startsWith _ s) eqn:E; [|discriminate].
    apply Hk. apply startsWith_length in E. destruct Hpos as [Hlo Hlen].
    split; [lia|]. rewrite length_drop. lia.
  - destruct (Nat.eqb i 0); [by apply Hk | discriminate].
  - destruct s; [by apply Hk | discriminate].
Qed.

End Positions.

Lemma matchAt_liesIn r i s m :
  matchAt r i s = Some m -> f_start m = i /\ liesIn i (i + length s) m.
Proof.
  unfold matchAt.
  apply (rmatch_keepsAt (fun m => f_start m = i /\ liesIn i (i + length s) m) i s r).
  - intros caps j s' res [Hlo Hlen] [= <-]. unfold liesIn. cbn. repeat split; lia.
  - split; lia.
Qed.

Lemma search_liesIn r i s m : search r i s = Some m -> liesIn i (i + length s) m.
Proof.
  revert i. induction s as [|c s IH]; intros i; cbn [search].
  - destruct (matchAt r i []) eqn:E; [|discriminate].
    intros [= <-]. by apply matchAt_liesIn in E as [_ E].
  - destruct (matchAt r i (c :: s)) eqn:E.
    + intros [= <-]. by apply matchAt_liesIn in E as [_ E].
    + intros Hm%IH. unfold liesIn in *. cbn [length]. lia.
Qed.

(** Putting back what was matched gives the input back. *)
Lemma stitch_matched fuel r (s0 : jsstring) (f : found -> jsstring) : forall i pos,
  pos <= i -> i <= length s0 ->
  (forall m, In m (matchAll_from fuel r i (drop i s0)) -> f m = matched s0 m) ->
  stitch s0 pos (matchAll_from fuel r i (drop i s0)) f = drop pos s0.
Proof.
  induction fuel as [|fuel IH]; intros i pos Hpos Hi Hf; cbn [matchAll_from stitch];
    [reflexivity|].
  cbn [matchAll_from] in Hf.
  destruct (search r i (drop i s0)) as [m|] eqn:Es; [|reflexivity].
  pose proof (search_liesIn _ _ _ _ Es) as (Hlo & Hse & Hhi).
  rewrite length_drop in Hhi. cbn [stitch].
  rewrite (Hf m) by (by left). unfold matched, substring.
  set (next := if Nat.eqb (f_end m) (f_start m) then S (f_end m) else f_end m) in *.
  assert (Hnext : f_end m <= next) by (unfold next; destruct (Nat.eqb _ _); lia).
  assert (Hrest : stitch s0 (f_end m)
                    (if Nat.ltb (length (drop i s0)) (next - i) then []
                     else matchAll_from fuel r next (drop (next - i) (drop i s0))) f
                  = drop (f_end m) s0).
  { destruct (Nat.ltb_spec (length (drop i s0)) (next - i)) as [Hlt|Hge]; [reflexivity|].
    rewrite length_drop in Hge.
    assert (En : drop (next - i) (drop i s0) = drop next s0).
    { rewrite drop_drop. f_equal. lia. }
    rewrite En. apply IH; [lia | lia |].
    intros m' Hm'. apply Hf. right.
    destruct (Nat.ltb_spec (length (drop i s0)) (next - i)) as [Hlt|_].
    - rewrite length_drop in Hlt. lia.
    - by rewrite En. }
  rewrite Hrest.
  rewrite <- (take_drop (f_start m - pos) (drop pos s0)) at 2.
  f_equal. rewrite drop_drop.
  replace (pos + (f_start m - pos)) with (f_start m) by lia.
  rewrite <- (take_drop (f_end m - f_start m) (drop (f_start m) s0)) at 2.
  f_equal. rewrite drop_drop. f_equal. lia.
Qed.

Lemma replaceAllRe_matched r f s :
  (forall m, In m (matchAll r s) -> f m = matched s m) -> replaceAllRe r f s = s.
Proof.
  intros Hf. unfold replaceAllRe, matchAll.
  apply (stitch_matched (S (length s)) r s f 0 0); [lia | lia | exact Hf].
Qed.

Lemma matchAll_from_liesIn fuel r (s0 : jsstring) : forall i m,
  i <= length s0 -> In m (matchAll_from fuel r i (drop i s0)) -> liesIn i (length s0) m.
Proof.
  induction fuel as [|fuel IH]; intros i m Hi; cbn [matchAll_from]; [intros []|].
  destruct (search r i (drop i s0)) as [m0|] eqn:Es; [|intros []].
  pose proof (search_liesIn _ _ _ _ Es) as (Hlo & Hse & Hhi).
  rewrite length_drop in Hhi.
  intros [<- | Hm]; [unfold liesIn; lia|].
  set (next := if Nat.eqb (f_end m0) (f_start m0) then S (f_end m0) else f_end m0) in *.
  assert (Hnext : f_end m0 <= next) by (unfold next; destruct (Nat.eqb _ _); lia).
  destruct (Nat.ltb_spec (length (drop i s0)) (next - i)) as [Hlt|Hge]; [destruct Hm|].
  rewrite length_drop in Hge.
  assert (En : drop (next - i) (drop i s0) = drop next s0).
  { rewrite drop_drop. f_equal. lia. }
  rewrite En in Hm. apply IH in Hm; [|lia]. unfold liesIn in *. lia.
Qed.

Lemma matched_includes s m : includes s (matched s m) = true.
Proof. apply includes_substring. Qed.

(** ** Literal patterns *)

Lemma rmatch_Lit p k caps i s :
  rmatch (Lit p) k caps i s
  = if startsWith p s then k caps (i + length p) (drop (length p) s) else None.
Proof.
  revert i s. induction p as [|c p IH]; intros i s; cbn [Lit fold_right rmatch startsWith].
  - cbn. f_equal. lia.
  - fold (Lit p). unfold Chr. cbn [rmatch]. destruct s as [|x s]; [reflexivity|].
    destruct (c =? x)%N; [|reflexivity]. cbn [andb length drop]. rewrite IH.
    destruct (startsWith p s); [|reflexivity]. f_equal. lia.
Qed.

Lemma matchAt_Lit p i s :
  matchAt (Lit p) i s = if startsWith p s then Some (Found i (i + length p) ∅) else None.
Proof. unfold matchAt. by rewrite rmatch_Lit. Qed.

Lemma search_Lit_absent p i s : includes s p = false -> search (Lit p) i s = None.
Proof.
  revert i. induction s as [|c s IH]; intros i; cbn [includes search]; rewrite matchAt_Lit.
  - rewrite orb_false_r. by intros ->.
  - intros [-> Hs]%orb_false_iff. by apply IH.
Qed.

Lemma search_Lit_found p i s k :
  indexOf s p = Some k -> search (Lit p) i s = Some (Found (i + k) (i + k + length p) ∅).
Proof.
  revert i k. induction s as [|c s IH]; intros i k; cbn [indexOf search]; rewrite matchAt_Lit.
  - destruct (startsWith p []); [|discriminate]. intros [= <-]. do 2 f_equal; lia.
  - destruct (startsWith p (c :: s)).
    + intros [= <-]. do 2 f_equal; lia.
    + destruct (indexOf s p) as [k'|] eqn:Ek; [|discriminate]. intros [= <-].
      rewrite (IH (S i) k' eq_refl). do 2 f_equal; lia.
Qed.

Lemma indexOf_None s p : indexOf s p = None <-> includes s p = false.
Proof.
  induction s as [|c s IH]; cbn [indexOf includes].
  - destruct (startsWith p []); cbn; split; done.
  - destruct (startsWith p (c :: s)); cbn [orb]; [split; done|].
    rewrite <- IH. destruct (indexOf s p); cbn; split; done.
Qed.

Lemma replaceAllLit_absent p template s :
  includes s p = false -> replaceAllLit p template s = s.
Proof.
  intros Ha. unfold replaceAllLit, replaceAllRe, matchAll. cbn [matchAll_from].
  by rewrite search_Lit_absent.
Qed.

Lemma replaceFirstStr_absent p template s :
  includes s p = false -> replaceFirstStr p template s = s.
Proof. intros Ha%indexOf_None. unfold replaceFirstStr. by rewrite Ha. Qed.

(** *** A replacement without dollar sign is taken literally *)

Lemma getSubstitution_plain matched before after template :
  ~ In 36%N template -> getSubstitution matched before after template = template.
Proof.
  induction template as [|c t IH]; [reflexivity|]. intros Hnot. cbn [getSubstitution].
  destruct (c =? 36)%N eqn:E.
  - apply N.eqb_eq in E. subst c. exfalso. apply Hnot. by left.
  - f_equal. apply IH. intros Hin. apply Hnot. by right.
Qed.

Lemma stitch_ext s pos ms f g :
  (forall m, In m ms -> f m = g m) -> stitch s pos ms f = stitch s pos ms g.
Proof.
  revert pos. induction ms as [|m ms IH]; intros pos Hfg; cbn [stitch]; [reflexivity|].
  rewrite (Hfg m) by (by left). rewrite IH; [reflexivity|].
  intros m' Hm'. apply Hfg. by right.
Qed.

Lemma replaceAll_from_skip k p r s :
  replaceAll_from k p r s = replaceAll_from 0 p r (drop k s).
Proof.
  revert k. induction s as [|c s IH]; intros [|k]; cbn [replaceAll_from drop]; try reflexivity.
  apply IH.
Qed.

Lemma replaceAll_from_found p r s k :
  p <> [] -> indexOf s p = Some k ->
  replaceAll_from 0 p r s = take k s ++ r ++ replaceAll_from 0 p r (drop (k + length p) s).
Proof.
  intros Hp. revert k. induction s as [|c s IH]; intros k; cbn [indexOf].
  - destruct p; [done|]. cbn. discriminate.
  - cbn [replaceAll_from]. destruct (startsWith p (c :: s)) eqn:E.
    + intros [= <-]. cbn [take app]. f_equal. rewrite replaceAll_from_skip.
      destruct p as [|x p]; [done|]. cbn [length]. f_equal.
      replace (S (length p) - 1) with (length p) by lia. reflexivity.
    + destruct (indexOf s p) as [k'|] eqn:Ek; [|discriminate]. intros [= <-].
      cbn [take app drop plus]. f_equal. by apply IH.
Qed.

Lemma stitch_Lit p r (s0 : jsstring) : p <> [] -> forall fuel i,
  i <= length s0 -> length s0 - i < fuel ->
  stitch s0 i (matchAll_from fuel (Lit p) i (drop i s0)) (fun _ => r)
  = replaceAll_from 0 p r (drop i s0).
Proof.
  intros Hp. induction fuel as [|fuel IH]; intros i Hi Hfuel; [lia|].
  cbn [matchAll_from].
  destruct (indexOf (drop i s0) p) as [k|] eqn:Ek.
  - rewrite (search_Lit_found _ _ _ _ Ek). cbn [f_start f_end stitch].
    pose proof (indexOf_found _ _ _ Ek) as Hd.
    assert (Hlen : k + length p <= length s0 - i).
    { apply (f_equal length) in Hd. rewrite length_app, !length_drop in Hd.
      destruct p; [done|]. cbn [length] in *. lia. }
    assert (Hpos : 0 < length p) by (destruct p; [done | cbn; lia]).
    destruct (Nat.eqb_spec (i + k + length p) (i + k)) as [E|_]; [lia|].
    destruct (Nat.ltb_spec (length (drop i s0)) (i + k + length p - i)) as [Hlt|_].
    { rewrite length_drop in Hlt. lia. }
    rewrite (replaceAll_from_found _ _ _ _ Hp Ek). unfold substring.
    replace (i + k - i) with k by lia. do 2 f_equal.
    replace (i + k + length p - i) with (k + length p) by lia.
    assert (En : drop (k + length p) (drop i s0) = drop (i + k + length p) s0).
    { rewrite drop_drop. f_equal. lia. }
    rewrite En. apply IH; lia.
  - apply indexOf_None in Ek. rewrite (search_Lit_absent _ _ _ Ek). cbn [stitch].
    by rewrite replaceAll_from_absent.
Qed.

(** X11.  With a search text that is not empty and a replacement text
    without dollar sign, the global replacement through the escaped
    regex is the plain literal one: every occurrence of the search text,
    leftmost first and without overlap, becomes the replacement, and a
    line without occurrence is returned as it is. *)
Theorem replaceAllLit_literal (p template s : jsstring) :
  p <> [] -> ~ In 36%N template ->
  replaceAllLit p template s = replaceAll p template s
  /\ (includes s p = false -> replaceAllLit p template s = s).
Proof.
  intros Hp Ht. split; [|apply replaceAllLit_absent].
  unfold replaceAllLit, replaceAllRe, matchAll.
  rewrite (stitch_ext _ _ _ _ (fun _ => template))
    by (intros m _; by apply getSubstitution_plain).
  rewrite <- (drop_0 s) at 3. rewrite stitch_Lit by (done || lia).
  destruct p; [done | reflexivity].
Qed.

(** ** A text that is not on the line *)

Lemma jsonNeedle_includes oldText : includes oldText (jsonNeedle oldText) = true.
Proof.
  unfold jsonNeedle. cbv zeta.
  destruct (_ && _); [|destruct (_ && _)];
    try (eapply includes_trans; [apply includes_trim | apply includes_substring]).
  apply includes_trim.
Qed.

Lemma entityNeedle_includes oldText : includes oldText (entityNeedle oldText) = true.
Proof.
  unfold entityNeedle. destruct (_ && _); [apply includes_substring | apply includes_refl].
Qed.

Lemma includes_absent line a b :
  includes line b = false -> includes a b = true -> includes line a = false.
Proof.
  intros Hb Hab. destruct (includes line a) eqn:E; [|reflexivity].
  by rewrite (includes_trans _ _ _ E Hab) in Hb.
Qed.

Lemma includes_absent_in line a b :
  includes line b = false -> includes line a = true -> includes a b = false.
Proof.
  intros Hb Ha. destruct (includes a b) eqn:E; [|reflexivity].
  by rewrite (includes_trans _ _ _ Ha E) in Hb.
Qed.

Lemma eqs_includes a b : eqs a b = true -> includes a b = true.
Proof. intros ->%eqs_eq. apply includes_refl. Qed.

Lemma eqs_absent a b : includes a b = false -> eqs a b = false.
Proof.
  intros Hb. destruct (eqs a b) eqn:E; [|reflexivity].
  by rewrite (eqs_includes _ _ E) in Hb.
Qed.

Lemma replaceJsonValue_absent line oldText newText :
  includes line (jsonNeedle oldText) = false ->
  replaceJsonValue line oldText newText = line.
Proof.
  intros Ha. unfold replaceJsonValue. cbv zeta. fold (jsonNeedle oldText).
  apply replaceAllRe_matched. intros m Hm.
  pose proof (matchAll_group_includes line _ 1 m Hm) as Hg.
  pose proof (includes_absent_in _ _ _ Ha Hg) as Hc.
  by rewrite Hc, (eqs_absent _ _ Hc).
Qed.

Lemma preserveEntityQuotesSimple_absent line oldText newText :
  includes line (entityNeedle oldText) = false ->
  preserveEntityQuotesSimple line oldText newText = line.
Proof.
  intros Ha. unfold preserveEntityQuotesSimple. cbv zeta. fold (entityNeedle oldText).
  apply replaceAllRe_matched. intros m Hm.
  pose proof (matchAll_group_includes line _ 2 m Hm) as Hg.
  pose proof (includes_absent_in _ _ _ Ha Hg) as Hc.
  rewrite Hc, (eqs_absent _ _ Hc). cbn [orb].
  pose proof (includes_absent _ _ _ Ha (entityNeedle_includes oldText)) as Hold.
  by rewrite (eqs_absent _ _ (includes_absent_in _ _ _ Hold (matched_includes line m))).
Qed.

Lemma rewriteRun_absent line oldText newText run result :
  includes line oldText = false -> includes line run = true ->
  rewriteRun oldText newText run result = result.
Proof.
  intros Ha Hr. unfold rewriteRun. by rewrite (includes_absent_in _ _ _ Ha Hr).
Qed.

Lemma replaceTextContent_absent line oldText newText :
  includes line (jsonNeedle oldText) = false ->
  includes line (entityNeedle oldText) = false ->
  replaceTextContent line oldText newText = line.
Proof.
  intros Hj He.
  pose proof (includes_absent _ _ _ He (entityNeedle_includes oldText)) as Hold.
  unfold replaceTextContent.
  destruct (_ && _); [by apply replaceJsonValue_absent|].
  destruct (includes line (str "&quot;")); [by apply preserveEntityQuotesSimple_absent|].
  destruct (_ && _); [|by apply replaceAllLit_absent].
  assert (Hfold : forall ms acc,
            (forall m, In m ms -> includes line (group 1 m) = true) ->
            fold_left (fun result m => rewriteRun oldText newText (group 1 m) result) ms acc
            = acc).
  { induction ms as [|m ms IH]; intros acc Hms; cbn [fold_left]; [reflexivity|].
    rewrite (rewriteRun_absent line) by (done || apply Hms; by left).
    apply IH. intros m' Hm'. apply Hms. by right. }
  rewrite Hfold by (intros m Hm; by eapply matchAll_group_includes).
  destruct (exec beforeFirstTagRe line) as [m1|] eqn:E1.
  - rewrite (rewriteRun_absent line) by (done || by eapply exec_group_includes).
    destruct (exec afterLastTagRe line) as [m2|] eqn:E2; [|reflexivity].
    by rewrite (rewriteRun_absent line) by (done || by eapply exec_group_includes).
  - destruct (exec afterLastTagRe line) as [m2|] eqn:E2; [|reflexivity].
    by rewrite (rewriteRun_absent line) by (done || by eapply exec_group_includes).
Qed.

(** X12.  When the matched text is no longer on the line the candidate
    names (neither as it is, nor trimmed and without its enclosing
    quotes), the patch finds nothing to replace, writes the file back
    with the content it had, and still reports success. *)
Theorem updateSourceFile_absent_text `{Runtime} (tp : TextProcessor) (fs : FileSystem)
    (m : FileMatch) (ctx : EditContext) (content line : jsstring) :
  readFile fs (fullPathOf tp (filePath m)) = Some content ->
  1 <= lineNumber m ->
  split lf content !! (lineNumber m - 1) = Some line ->
  writable fs (fullPathOf tp (filePath m)) = true ->
  includes line (jsonNeedle (matchedText m)) = false ->
  includes line (entityNeedle (matchedText m)) = false ->
  updateSourceFile tp fs m ctx = (fs, {| updated := true; updateError := None |}).
Proof.
  intros Hread Hn Hline Hw Hj He.
  pose proof (includes_absent _ _ _ He (entityNeedle_includes (matchedText m))) as Hold.
  unfold updateSourceFile. rewrite Hread, Hline.
  pose proof (lookup_lt_Some _ _ _ Hline) as Hlt.
  destruct (Nat.leb_spec (lineNumber m) (length (split lf content))) as [_|Hgt]; [|lia].
  destruct (lineNumber m) as [|n] eqn:En; [lia|].
  rewrite replaceTextContent_absent by done.
  assert (Eq : eqs line line = true) by (by apply eqs_eq). rewrite Eq.
  rewrite replaceFirstStr_absent by done.
  rewrite list_insert_id by done. rewrite join_split.
  unfold writeFile. rewrite Hw. f_equal.
  destruct fs as [fl gl dir wr]. cbn in *. f_equal.
  apply insert_id. exact Hread.
Qed.

(** ** Further properties of the normalizer, the scan and the patch *)

Lemma mem_In c cs : mem c cs = true <-> In c cs.
Proof.
  unfold mem. rewrite existsb_exists. split.
  - intros (x & Hx & ->%N.eqb_eq). exact Hx.
  - intros Hc. exists c. split; [exact Hc | apply N.eqb_refl].
Qed.

(** X13.  A normalized text is trimmed, a second collapse of white
    space leaves it as it is, its white space is plain spaces only, and
    it holds none of the typographic code units the normalizer rewrites
    (no-break space, ellipsis, curly and low quotes). *)
Theorem cleanSearchText_shape (text : jsstring) :
  let t := cleanSearchText text in
  trim t = t /\ collapseSpaces t = t
  /\ (forall c, In c t -> ~ In c typographic)
  /\ (forall c, In c t -> is_ws c = true -> c = 32%N).
Proof.
  cbv zeta. destruct (cleanSearchText_normalForm text) as [Hp Hs Hl Ht].
  split; [by apply trim_fixed|]. split; [by apply collapse_from_fixed|]. split.
  - intros c Hc Hin. rewrite forallb_forall in Hp. specialize (Hp c Hc).
    unfold plain in Hp. apply mem_In in Hin. rewrite Hin in Hp. discriminate Hp.
  - clear Hp Hl Ht. induction (cleanSearchText text) as [|x t IH]; [intros c []|].
    cbn [spaced] in Hs. apply andb_true_iff in Hs as [Hx Hs].
    intros c [<- | Hc] Hw; [|by apply IH].
    rewrite Hw in Hx. apply andb_true_iff in Hx as [Hx _]. by apply N.eqb_eq.
Qed.

(** X14.  A line is a candidate only if it contains one of the
    variations of the normalized request text verbatim, as the file
    spells the line. *)
Theorem findTextInSourceFiles_verbatim `{Runtime} (tp : TextProcessor) (fs : FileSystem)
    (text : jsstring) (m : FileMatch) :
  In m (findTextInSourceFiles tp fs text) ->
  exists variation,
    In variation (extractDynamicPart (cleanSearchText text))
    /\ includes (originalLine m) variation = true.
Proof.
  intros (file & content & i & line & v & _ & _ & _ & Hv & He & ->)%scanned_candidate.
  exists v. split; [exact Hv|]. by apply hasExactTextMatch_includes.
Qed.

Lemma hasExactTextMatch_blank line : trim line = [] -> hasExactTextMatch line [] = true.
Proof.
  intros E. unfold hasExactTextMatch.
  destruct (existsb _ _); [reflexivity|]. destruct (existsb _ _); [reflexivity|].
  destruct (existsb _ _); [reflexivity|]. by rewrite E.
Qed.

(** X15.  When the request text normalizes to the empty string, every
    blank line of every file the scan reads is a candidate. *)
Theorem findTextInSourceFiles_blank `{Runtime} (tp : TextProcessor) (fs : FileSystem)
    (text file content line : jsstring) (i : nat) :
  cleanSearchText text = [] ->
  In file (allFiles tp fs) ->
  readFile fs file = Some content ->
  split lf content !! i = Some line ->
  trim line = [] ->
  exists m,
    In m (findTextInSourceFiles tp fs text)
    /\ filePath m = path_relative (projectRoot tp) file
    /\ lineNumber m = i + 1
    /\ originalLine m = line.
Proof.
  intros Ec Hfile Hread Hline Hblank.
  exists (candidate tp (cleanSearchText text) (extractDynamicPart (cleanSearchText text))
            file (split lf content) i line []).
  split; [|by repeat split].
  unfold findTextInSourceFiles. apply in_flat_map. exists file. split; [exact Hfile|].
  apply In_scanFile. exists content, i, line, []. repeat split; try done.
  - rewrite Ec. by left.
  - by apply hasExactTextMatch_blank.
Qed.

(** X16.  The line [replaceTextContent] returns is made of code units
    of the line it was given, of the new text, and of double quotes. *)
Theorem replaceTextContent_alphabet (line oldText newText : jsstring) (c : N) :
  In c (replaceTextContent line oldText newText) ->
  In c line \/ In c newText \/ c = dq.
Proof.
  intros Hc.
  assert (Hall : Forall (fun c => In c line \/ In c newText \/ c = dq)
                   (replaceTextContent line oldText newText)).
  { apply replaceTextContent_made.
    - right. by right.
    - apply List.Forall_forall. intros x Hx. by left.
    - apply List.Forall_forall. intros x Hx. right. by left. }
  rewrite List.Forall_forall in Hall. exact (Hall c Hc).
Qed.

Lemma filter_nil_forall {A} (f : A -> bool) (l : list A) x :
  List.filter f l = [] -> In x l -> f x = false.
Proof.
  intros Hnil Hx. destruct (f x) eqn:E; [|reflexivity].
  assert (Hin : In x (List.filter f l)) by (apply filter_In; by split).
  by rewrite Hnil in Hin.
Qed.

Lemma findBestMatch_not_text `{Runtime} (l : list ScoredMatch) (best sm : ScoredMatch) :
  findBestMatch l = Some best ->
  isTextContentMatchFlag (base best) = false ->
  In sm l -> isTextContentMatchFlag (base sm) = false.
Proof.
  unfold findBestMatch. destruct l as [|b l]; [discriminate|].
  destruct (List.filter isPureText (b :: l)) as [|x t] eqn:E1.
  2:{ intros [= <-] Hb. exfalso.
      assert (Hx : In x (List.filter isPureText (b :: l))) by (rewrite E1; by left).
      apply filter_In in Hx as [_ Hx]. unfold isPureText in Hx. by rewrite Hb in Hx. }
  destruct (List.filter isContentAttribute (b :: l)) as [|x t] eqn:E2.
  2:{ intros [= <-] Hb. exfalso.
      assert (Hx : In x (List.filter isContentAttribute (b :: l))) by (rewrite E2; by left).
      apply filter_In in Hx as [_ Hx]. unfold isContentAttribute in Hx.
      by rewrite Hb in Hx. }
  destruct (List.filter isMixed (b :: l)) as [|x t] eqn:E3.
  2:{ intros [= <-] Hb. exfalso.
      assert (Hx : In x (List.filter isMixed (b :: l))) by (rewrite E3; by left).
      apply filter_In in Hx as [_ Hx]. unfold isMixed in Hx. by rewrite Hb in Hx. }
  intros _ _ Hsm.
  pose proof (filter_nil_forall _ _ sm E1 Hsm) as H1.
  pose proof (filter_nil_forall _ _ sm E3 Hsm) as H3.
  unfold isPureText in H1. unfold isMixed in H3.
  destruct (isTextContentMatchFlag (base sm)); [|reflexivity].
  by destruct (isAttributeMatchFlag (base sm)).
Qed.

(** X17.  An edit selects a candidate that is not text content, that
    is, one that only matched inside an attribute value, only when none
    of the candidates that passed validation is text content; all of
    them are attribute matches then. *)
Theorem findBestMatch_attribute_last `{Runtime} (tp : TextProcessor) (fs : FileSystem)
    (ctx : EditContext) (best : ScoredMatch) :
  findBestMatch (scoredMatchesOf tp fs ctx) = Some best ->
  isTextContentMatchFlag (base best) = false ->
  forall sm, In sm (scoredMatchesOf tp fs ctx) ->
    isTextContentMatchFlag (base sm) = false /\ isAttributeMatchFlag (base sm) = true.
Proof.
  intros Hbest Hb sm Hsm.
  pose proof (findBestMatch_not_text _ _ sm Hbest Hb Hsm) as Ht. split; [exact Ht|].
  apply In_scoreMatchesWithContext in Hsm as (m & Hm & -> & _).
  apply filterByPageContext_In, scanned_candidate in Hm
    as (file & content & i & line & v & _ & _ & _ & _ & _ & ->).
  cbn [base scoreOf isTextContentMatchFlag isAttributeMatchFlag candidate] in *.
  unfold isTextContentMatch in Ht.
  destruct (isAttributeMatch (cleanSearchText line) v); [reflexivity | discriminate].
Qed.

(** ** A source directory below the project root *)

Section TwiceFacts.
Context `{Runtime}.

Lemma In_globbed fs searchDir pattern found f :
  In pattern patterns -> glob fs pattern searchDir = Some found -> In f found ->
  In (path_join searchDir f)
     (flat_map (fun pattern =>
                  match glob fs pattern searchDir with
                  | Some found => List.map (path_join searchDir) found
                  | None => []
                  end) patterns).
Proof.
  intros Hp Hg Hf. apply in_flat_map. exists pattern. split; [exact Hp|].
  rewrite Hg. by apply in_map.
Qed.

End TwiceFacts.

(** X18.  When the source directory differs from the project root and
    the glob from the root also lists what the glob from the source
    directory lists (under the same absolute path), every candidate of a
    file below the source directory is in the result of the scan twice;
    the list handed to validation then never has length 1, so no such
    candidate is validated as unique. *)
Theorem findTextInSourceFiles_twice `{Runtime} (tp : TextProcessor) (fs : FileSystem)
    (text : jsstring) (page : PageContext) (pattern : jsstring) (found : list jsstring)
    (f : jsstring) (m : FileMatch) :
  eqs (sourceDir tp) (projectRoot tp) = false ->
  (forall pattern found f,
     In pattern patterns -> glob fs pattern (sourceDir tp) = Some found -> In f found ->
     exists found' f',
       glob fs pattern (projectRoot tp) = Some found' /\ In f' found'
       /\ path_join (projectRoot tp) f' = path_join (sourceDir tp) f) ->
  In pattern patterns -> glob fs pattern (sourceDir tp) = Some found -> In f found ->
  In m (scanFile tp fs (cleanSearchText text) (extractDynamicPart (cleanSearchText text))
          (path_join (sourceDir tp) f)) ->
  discoveredBefore (findTextInSourceFiles tp fs text) m m
  /\ Nat.eqb (length (filterByPageContext (findTextInSourceFiles tp fs text) page)) 1 = false.
Proof.
  intros Hne Hglob Hp Hg Hf Hm.
  set (scan := scanFile tp fs (cleanSearchText text) (extractDynamicPart (cleanSearchText text))).
  set (globbed := fun searchDir =>
         flat_map (fun pattern =>
                     match glob fs pattern searchDir with
                     | Some found => List.map (path_join searchDir) found
                     | None => []
                     end) patterns).
  assert (Hall : findTextInSourceFiles tp fs text
                 = flat_map scan (globbed (sourceDir tp))
                   ++ flat_map scan (globbed (projectRoot tp))).
  { unfold findTextInSourceFiles, allFiles, searchDirs. rewrite Hne.
    cbn [flat_map]. rewrite app_nil_r. fold (globbed (sourceDir tp)).
    fold (globbed (projectRoot tp)). cbv zeta. fold scan. apply flat_map_app. }
  assert (H1 : In m (flat_map scan (globbed (sourceDir tp)))).
  { apply in_flat_map. exists (path_join (sourceDir tp) f). split; [|exact Hm].
    by eapply In_globbed. }
  assert (H2 : In m (flat_map scan (globbed (projectRoot tp)))).
  { destruct (Hglob pattern found f Hp Hg Hf) as (found' & f' & Hg' & Hf' & Epath).
    apply in_flat_map. exists (path_join (sourceDir tp) f). split; [|exact Hm].
    rewrite <- Epath. by eapply In_globbed. }
  apply in_split in H1 as (pre & mid1 & E1). apply in_split in H2 as (mid2 & post & E2).
  assert (Hd : findTextInSourceFiles tp fs text = pre ++ m :: (mid1 ++ mid2) ++ m :: post).
  { rewrite Hall, E1, E2. by rewrite <- !app_assoc. }
  split; [by exists pre, (mid1 ++ mid2), post|].
  rewrite filterByPageContext_length, Hd. rewrite !length_app. cbn [length].
  rewrite !length_app. cbn [length].
  destruct (nonEmpty _); apply Nat.eqb_neq; lia.
Qed.

(** ** Requests that cannot be applied, and files that are not there *)

(** X19.  A request whose parent text does not contain the request text
    (both normalized) is never applied: every candidate is rejected,
    and the edit fails with confidence 0 and the message that no match
    was found, leaving the files as they were. *)
Theorem processTextEdit_parent_mismatch `{Runtime} (tp : TextProcessor) (fs : FileSystem)
    (ctx : EditContext) :
  truthy (parentTextOf ctx) = true ->
  includes (cleanSearchText (default [] (parentTextOf ctx)))
           (cleanSearchText (originalText ctx)) = false ->
  processTextEdit tp fs ctx
  = (fs, failure 0 false
           (if Nat.eqb (length (findTextInSourceFiles tp fs (originalText ctx))) 0
            then None else Some [])
           NoMatchesFound).
Proof.
  intros Hp Hi. rewrite processTextEdit_unfold.
  assert (Hnil : scoredMatchesOf tp fs ctx = []).
  { destruct (scoredMatchesOf tp fs ctx) as [|sm l] eqn:E; [reflexivity|]. exfalso.
    assert (Hsm : In sm (scoredMatchesOf tp fs ctx)) by (rewrite E; by left).
    apply In_scoreMatchesWithContext in Hsm as (m & _ & _ & Hv).
    unfold validateExactContext in Hv. cbv zeta in Hv. rewrite Hp, Hi in Hv.
    discriminate. }
  by rewrite Hnil.
Qed.

(** X20.  An edit creates no file and removes none: a path can be read
    after [processTextEdit] exactly when it could be read before. *)
Theorem processTextEdit_no_new_files `{Runtime} (tp : TextProcessor) (fs : FileSystem)
    (ctx : EditContext) (p : jsstring) :
  is_Some (readFile (fst (processTextEdit tp fs ctx)) p) <-> is_Some (readFile fs p).
Proof.
  rewrite processTextEdit_unfold.
  destruct (findBestMatch _) as [best|]; [|reflexivity].
  assert (Hu : is_Some (readFile (fst (updateSourceFile tp fs (base best) ctx)) p)
               <-> is_Some (readFile fs p)).
  { unfold updateSourceFile.
    destruct (readFile fs (fullPathOf tp (filePath (base best)))) as [content|] eqn:Er;
      [|reflexivity].
    destruct (Nat.leb _ _); [|reflexivity].
    destruct (_ !! _); [|reflexivity]. destruct (lineNumber (base best)); [reflexivity|].
    unfold writeFile. destruct (writable fs _); [|reflexivity].
    cbn [fst]. unfold readFile in *. cbn [files].
    destruct (decide (p = fullPathOf tp (filePath (base best)))) as [->|Hne].
    - rewrite lookup_insert_eq, Er. split; intros _; by eexists.
    - by rewrite lookup_insert_ne. }
  destruct (updateSourceFile _ _ _ _) as [fs' u]. cbn [fst] in *.
  by destruct (updated u).
Qed.

(** ** The fields of a request the engine reads *)

Section RequestFacts.
Context `{Runtime}.

Lemma processTextEdit_core tp fs ctx :
  processTextEdit tp fs (core ctx) = processTextEdit tp fs ctx.
Proof.
  destruct ctx as [text new [tag classes id hero selector path] [[parent before after nearby]|]
                     [url title full]]; reflexivity.
Qed.

End RequestFacts.

(** X21.  The outcome of an edit depends on the request only through
    [originalText], [newText], [elementTag], [elementClasses],
    [elementId], [cssSelector], [parentText], [siblingsAfter] and
    [pageUrl]: two requests that agree on these give the same result and
    leave the same files, whatever their [heroPageElementId],
    [elementPath], [siblingsBefore], [nearbyUniqueText], [pageTitle] and
    [fullUrl]. *)
Theorem processTextEdit_reads `{Runtime} (tp : TextProcessor) (fs : FileSystem)
    (a b : EditContext) :
  core a = core b -> processTextEdit tp fs a = processTextEdit tp fs b.
Proof.
  intros E. rewrite <- (processTextEdit_core tp fs a), <- (processTextEdit_core tp fs b).
  by rewrite E.
Qed.

(** * The further properties at concrete inputs *)

Section MoreInstances.
Import Examples.

Local Abbreviation tp := helloProcessor.

(** C7, as amended, at the edit of [twoFiles]: two candidates pass
    validation, the edit succeeds, and the result carries no flag and
    no alternatives. *)
Lemma hasConflicts_never_reported_witness :
  let r := snd (processTextEdit tp twoFiles helloRequest) in
  let scored := scoredMatchesOf tp twoFiles helloRequest in
  length scored = 2
  /\ hasConflicts r = false
  /\ exists best u,
       findBestMatch scored = Some best
       /\ u = snd (updateSourceFile tp twoFiles (base best) helloRequest)
       /\ success r = updated u
       /\ alternativeMatches r = None
       /\ errorMessage r <> Some LowConfidenceMatch.
Proof.
  intros r scored. split; [vm_compute; reflexivity|].
  split; [apply (proj1 (hasConflicts_never_reported tp twoFiles helloRequest))|].
  apply (proj2 (proj2 (proj2 (hasConflicts_never_reported tp twoFiles helloRequest)))).
  vm_compute. lia.
Defined.

(** The first candidate of the scan of [twoFiles] for [Hello]. *)
Local Abbreviation firstHello :=
  (default (matchAt "" 0 "") (head (findTextInSourceFiles tp twoFiles (str "Hello")))).

(** The candidates of [twoFiles] name lines of its files. *)
Lemma findTextInSourceFiles_candidates_witness :
  In firstHello (findTextInSourceFiles tp twoFiles (str "Hello"))
  /\ exists file content variation,
       In file (allFiles tp twoFiles)
       /\ readFile twoFiles file = Some content
       /\ filePath firstHello = path_relative (projectRoot tp) file
       /\ 1 <= lineNumber firstHello <= length (split lf content)
       /\ split lf content !! (lineNumber firstHello - 1) = Some (originalLine firstHello)
       /\ includes (originalLine firstHello) (matchedText firstHello) = true
       /\ In variation (extractDynamicPart (cleanSearchText (str "Hello")))
       /\ (matchedText firstHello = variation
           \/ cleanSearchText (matchedText firstHello) = variation).
Proof.
  split; [vm_compute; left; reflexivity|].
  apply (findTextInSourceFiles_candidates tp twoFiles (str "Hello") firstHello).
  vm_compute. left. reflexivity.
Defined.

(** The first candidate of the eleven lines of [list.html] that holds a
    full context before it is the fourth. *)
Local Abbreviation fourthOfEleven :=
  (default (matchAt "" 0 "")
     (findTextInSourceFiles (processor elevenLines) elevenLines (str "Hello") !! 3)).

Lemma findTextInSourceFiles_context_witness :
  In fourthOfEleven (findTextInSourceFiles (processor elevenLines) elevenLines (str "Hello"))
  /\ exists file content pre post,
       In file (allFiles (processor elevenLines) elevenLines)
       /\ readFile elevenLines file = Some content
       /\ split lf content
          = pre ++ contextBefore fourthOfEleven
              ++ originalLine fourthOfEleven :: contextAfter fourthOfEleven ++ post
       /\ length (pre ++ contextBefore fourthOfEleven) = lineNumber fourthOfEleven - 1
       /\ length (contextBefore fourthOfEleven) = Nat.min 3 (lineNumber fourthOfEleven - 1)
       /\ length (contextAfter fourthOfEleven)
          = Nat.min 3 (length (split lf content) - lineNumber fourthOfEleven).
Proof.
  split; [vm_compute; do 3 right; left; reflexivity|].
  apply (findTextInSourceFiles_context (processor elevenLines) elevenLines (str "Hello")
           fourthOfEleven).
  vm_compute. do 3 right. left. reflexivity.
Defined.

(** The edit of [twoFiles] changes [nav.html], the file it reports. *)
Lemma processTextEdit_frame_witness :
  let out := processTextEdit tp twoFiles helloRequest in
  readFile (fst out) (str "/p/nav.html") <> readFile twoFiles (str "/p/nav.html")
  /\ success (snd out) = true
  /\ exists p, matchedFilePath (snd out) = Some p /\ str "/p/nav.html" = fullPathOf tp p.
Proof.
  intros out. split; [vm_compute; discriminate|].
  apply (processTextEdit_frame tp twoFiles helloRequest (str "/p/nav.html")).
  vm_compute. discriminate.
Defined.

Lemma processTextEdit_success_reports_witness :
  let r := snd (processTextEdit tp twoFiles helloRequest) in
  success r = true
  /\ exists best file content,
       In best (scoredMatchesOf tp twoFiles helloRequest)
       /\ In (base best) (findTextInSourceFiles tp twoFiles (originalText helloRequest))
       /\ In file (allFiles tp twoFiles)
       /\ readFile twoFiles file = Some content
       /\ matchedFilePath r = Some (path_relative (projectRoot tp) file)
       /\ resultLineNumber r = Some (lineNumber (base best))
       /\ matchContext r = split lf content !! (lineNumber (base best) - 1)
       /\ errorMessage r = None.
Proof.
  intros r. split; [vm_compute; reflexivity|].
  apply (processTextEdit_success_reports tp twoFiles helloRequest).
  vm_compute. reflexivity.
Defined.

(** Both files of [twoFiles] are found again under their relative path
    and can be written. *)
Lemma processTextEdit_succeeds_iff_witness :
  (forall file, In file (allFiles tp twoFiles) ->
     fullPathOf tp (path_relative (projectRoot tp) file) = file)
  /\ (forall file, In file (allFiles tp twoFiles) -> writable twoFiles file = true)
  /\ (success (snd (processTextEdit tp twoFiles helloRequest)) = true
      <-> scoredMatchesOf tp twoFiles helloRequest <> []).
Proof.
  assert (Hpath : forall file, In file (allFiles tp twoFiles) ->
                    fullPathOf tp (path_relative (projectRoot tp) file) = file).
  { intros file Hin. vm_compute in Hin.
    destruct Hin as [<- | [<- | []]]; vm_compute; reflexivity. }
  assert (Hw : forall file, In file (allFiles tp twoFiles) -> writable twoFiles file = true).
  { intros file _. reflexivity. }
  split; [exact Hpath|]. split; [exact Hw|].
  apply (processTextEdit_succeeds_iff tp twoFiles helloRequest Hpath Hw).
Defined.

(** A request with an element id and no parent text. *)
Lemma validateExactContext_supported_witness :
  hasElementId helloRequest || false = true
  /\ isValid (validateExactContext tp twoFiles (matchAt "a.html" 1 "Hello") helloRequest false)
     = negb (truthy (parentTextOf helloRequest)
             && (negb (includes (cleanSearchText (default [] (parentTextOf helloRequest)))
                                (cleanSearchText (originalText helloRequest)))
                 || negb (includes
                            (cleanSearchText
                               (getFileContent tp twoFiles
                                  (filePath (matchAt "a.html" 1 "Hello"))))
                            (cleanSearchText (originalText helloRequest))))).
Proof.
  split; [vm_compute; reflexivity|].
  apply (validateExactContext_supported tp twoFiles (matchAt "a.html" 1 "Hello")
           helloRequest false).
  vm_compute. reflexivity.
Defined.

Lemma replaceAllLit_literal_witness :
  str "Hello" <> [] /\ ~ In 36%N (str "Bye")
  /\ replaceAllLit (str "Hello") (str "Bye") (str "Hello, Hello")
     = replaceAll (str "Hello") (str "Bye") (str "Hello, Hello")
  /\ (includes (str "Hello, Hello") (str "Hello") = false ->
      replaceAllLit (str "Hello") (str "Bye") (str "Hello, Hello") = str "Hello, Hello").
Proof.
  assert (Hp : str "Hello" <> []) by (vm_compute; discriminate).
  assert (Ht : ~ In 36%N (str "Bye")).
  { intros Hin%mem_In. vm_compute in Hin. discriminate. }
  split; [exact Hp|]. split; [exact Ht|].
  apply (replaceAllLit_literal (str "Hello") (str "Bye") (str "Hello, Hello") Hp Ht).
Defined.

(** A candidate for the first line of [a.html] whose text is not there. *)
Lemma updateSourceFile_absent_text_witness :
  let m := matchAt "a.html" 1 "Goodbye" in
  let line := str "<div class='Hello'>" in
  readFile twoFiles (fullPathOf tp (filePath m)) = Some line
  /\ split lf line !! (lineNumber m - 1) = Some line
  /\ includes line (jsonNeedle (matchedText m)) = false
  /\ includes line (entityNeedle (matchedText m)) = false
  /\ updateSourceFile tp twoFiles m helloRequest
     = (twoFiles, {| updated := true; updateError := None |}).
Proof.
  intros m line.
  assert (Hread : readFile twoFiles (fullPathOf tp (filePath m)) = Some line)
    by (vm_compute; reflexivity).
  assert (Hline : split lf line !! (lineNumber m - 1) = Some line)
    by (vm_compute; reflexivity).
  assert (Hj : includes line (jsonNeedle (matchedText m)) = false)
    by (vm_compute; reflexivity).
  assert (He : includes line (entityNeedle (matchedText m)) = false)
    by (vm_compute; reflexivity).
  split; [exact Hread|]. split; [exact Hline|]. split; [exact Hj|]. split; [exact He|].
  apply (updateSourceFile_absent_text tp twoFiles m helloRequest line line Hread);
    [vm_compute; lia | exact Hline | reflexivity | exact Hj | exact He].
Defined.

Lemma findTextInSourceFiles_verbatim_witness :
  In firstHello (findTextInSourceFiles tp twoFiles (str "Hello"))
  /\ exists variation,
       In variation (extractDynamicPart (cleanSearchText (str "Hello")))
       /\ includes (originalLine firstHello) variation = true.
Proof.
  split; [vm_compute; left; reflexivity|].
  apply (findTextInSourceFiles_verbatim tp twoFiles (str "Hello") firstHello).
  vm_compute. left. reflexivity.
Defined.

(** The second line of [a.html] in [blankLine] is empty, and a request
    text of one space normalizes to the empty string. *)
Lemma findTextInSourceFiles_blank_witness :
  cleanSearchText (str " ") = []
  /\ exists m,
       In m (findTextInSourceFiles (processor blankLine) blankLine (str " "))
       /\ filePath m = path_relative (projectRoot (processor blankLine)) (str "/p/a.html")
       /\ lineNumber m = 1 + 1
       /\ originalLine m = [].
Proof.
  split; [vm_compute; reflexivity|].
  apply (findTextInSourceFiles_blank (processor blankLine) blankLine (str " ")
           (str "/p/a.html") (join lf [str "<p>"; []; str "</p>"]) [] 1).
  - vm_compute. reflexivity.
  - vm_compute. left. reflexivity.
  - vm_compute. reflexivity.
  - vm_compute. reflexivity.
  - vm_compute. reflexivity.
Defined.

(** That request goes through: the blank line becomes the new text. *)
Example blank_request_rewrites_blank_line :
  let out := processTextEdit (processor blankLine) blankLine blankRequest in
  success (snd out) = true
  /\ readFile (fst out) (str "/p/a.html") = Some (join lf [str "<p>"; str "Bye"; str "</p>"]).
Proof. vm_compute. split; reflexivity. Qed.

Lemma replaceTextContent_alphabet_witness :
  In 66%N (replaceTextContent (str "<b>Hello</b>") (str "Hello") (str "Bye"))
  /\ (In 66%N (str "<b>Hello</b>") \/ In 66%N (str "Bye") \/ 66%N = dq).
Proof.
  split; [vm_compute; do 3 right; left; reflexivity|].
  apply (replaceTextContent_alphabet (str "<b>Hello</b>") (str "Hello") (str "Bye") 66%N).
  vm_compute. do 3 right. left. reflexivity.
Defined.

Lemma findBestMatch_attribute_last_witness :
  let scored := scoredMatchesOf helloProcessor twoFiles helloRequest in
  let best := default (scoreOf helloRequest (matchAt "" 0 "")) (head scored) in
  findBestMatch scored = Some best
  /\ isTextContentMatchFlag (base best) = false
  /\ forall sm, In sm scored ->
       isTextContentMatchFlag (base sm) = false /\ isAttributeMatchFlag (base sm) = true.
Proof.
  intros scored best.
  assert (Hbest : findBestMatch scored = Some best) by (vm_compute; reflexivity).
  assert (Hb : isTextContentMatchFlag (base best) = false) by (vm_compute; reflexivity).
  split; [exact Hbest|]. split; [exact Hb|].
  apply (findBestMatch_attribute_last helloProcessor twoFiles helloRequest best Hbest Hb).
Defined.

(** A file below [src] is scanned from [src] and from the root. *)
Lemma findTextInSourceFiles_twice_witness :
  let tp := processor srcProject in
  let m := default (matchAt "" 0 "")
             (head (scanFile tp srcProject (cleanSearchText (str "Hello"))
                      (extractDynamicPart (cleanSearchText (str "Hello")))
                      (path_join (sourceDir tp) (str "a.html")))) in
  eqs (sourceDir tp) (projectRoot tp) = false
  /\ In m (scanFile tp srcProject (cleanSearchText (str "Hello"))
             (extractDynamicPart (cleanSearchText (str "Hello")))
             (path_join (sourceDir tp) (str "a.html")))
  /\ discoveredBefore (findTextInSourceFiles tp srcProject (str "Hello")) m m
  /\ Nat.eqb (length (filterByPageContext (findTextInSourceFiles tp srcProject (str "Hello"))
                        (pageContext helloRequest))) 1 = false.
Proof.
  intros tp m.
  assert (Hne : eqs (sourceDir tp) (projectRoot tp) = false) by (vm_compute; reflexivity).
  assert (Hm : In m (scanFile tp srcProject (cleanSearchText (str "Hello"))
                       (extractDynamicPart (cleanSearchText (str "Hello")))
                       (path_join (sourceDir tp) (str "a.html"))))
    by (vm_compute; left; reflexivity).
  split; [exact Hne|]. split; [exact Hm|].
  apply (findTextInSourceFiles_twice tp srcProject (str "Hello") (pageContext helloRequest)
           (str "**/*.{html,htm}") [str "a.html"] (str "a.html") m Hne).
  - intros pattern found f Hp Hg Hf.
    exists (List.map (fun f => str "src/" ++ f) found), (str "src/" ++ f).
    vm_compute in Hp.
    destruct Hp as [<- | [<- | [<- | [<- | [<- | [<- | [<- | []]]]]]]];
      vm_compute in Hg; injection Hg as <-; try (by destruct Hf);
      destruct Hf as [<- | []]; vm_compute; repeat split; by left.
  - vm_compute. do 2 right. left. reflexivity.
  - vm_compute. reflexivity.
  - by left.
  - exact Hm.
Defined.

(** The parent text [Welcome] does not hold [Hello]. *)
Lemma processTextEdit_parent_mismatch_witness :
  truthy (parentTextOf orphanRequest) = true
  /\ processTextEdit tp twoFiles orphanRequest
     = (twoFiles,
        failure 0 false
          (if Nat.eqb (length (findTextInSourceFiles tp twoFiles
                                 (originalText orphanRequest))) 0
           then None else Some [])
          NoMatchesFound).
Proof.
  split; [vm_compute; reflexivity|].
  apply (processTextEdit_parent_mismatch tp twoFiles orphanRequest).
  - vm_compute. reflexivity.
  - vm_compute. reflexivity.
Defined.

(** Two requests that differ in fields the engine does not read. *)
Lemma processTextEdit_reads_witness :
  core decoratedRequest = core helloRequest
  /\ decoratedRequest <> helloRequest
  /\ processTextEdit tp twoFiles decoratedRequest
     = processTextEdit tp twoFiles helloRequest.
Proof.
  assert (E : core decoratedRequest = core helloRequest) by (vm_compute; reflexivity).
  split; [exact E|]. split; [vm_compute; discriminate|].
  apply (processTextEdit_reads tp twoFiles decoratedRequest helloRequest E).
Defined.

End MoreInstances.
